(** * Web-Scraping: the harvesting robot and the cleaning pipeline

    A shallow embedding of [scraping.py] and [traitement.py].

    - Python [str] values are lists of Unicode code points.
    - The regular expressions of the source are terms of a small regex
      syntax, run by a backtracking matcher that enumerates the possible
      ends of a match in the order Python's [re] tries them.
    - Python floats are binary64 values, carried as the exact rational
      they denote, every operation being the exact operation followed by
      rounding to nearest, ties to even.
    - The robot is a function of the outcomes of its calls to the browser,
      and returns the trace of the calls it made. *)

From Stdlib Require Import ZArith NArith PArith List String Ascii Bool Lia.
From Stdlib Require Import QArith Qreduction SpecFloat.
Import ListNotations.

Close Scope Q_scope.
Open Scope list_scope.

(* ================================================================== *)
(** * Characters and strings *)
(* ================================================================== *)

Module Str.

Local Open Scope N_scope.

(** A character is a Unicode code point. *)
Definition char := N.
Definition str := list char.

Definition eqc (a b : char) : bool := N.eqb a b.

Definition in_range (lo hi c : char) : bool := (N.leb lo c && N.leb c hi)%bool.

(** ** UTF-8 decoding, to write string literals as in the source *)

Fixpoint utf8_go (acc : N) (need : nat) (bs : list N) : str :=
  match bs with
  | [] => match need with O => [] | S _ => [acc] end
  | b :: t =>
      match need with
      | S k =>
          let acc' := (acc * 64 + N.land b 63) in
          match k with
          | O => acc' :: utf8_go 0 O t
          | S _ => utf8_go acc' k t
          end
      | O =>
          if N.ltb b 128 then b :: utf8_go 0 O t
          else if N.ltb b 224 then utf8_go (N.land b 31) 1%nat t
          else if N.ltb b 240 then utf8_go (N.land b 15) 2%nat t
          else utf8_go (N.land b 7) 3%nat t
      end
  end.

Definition u (s : string) : str :=
  utf8_go 0 O (map N_of_ascii (list_ascii_of_string s)).

(** ** Character classes, as CPython's Unicode database gives them

    White space ([str.isspace], [str.strip], the regex class [\s]) is
    the full Unicode list.  The alphanumeric class, the digits and the case
    mappings are those of U+0000..U+00FF, the range of French text; a code
    point above U+00FF is taken as caseless and as neither a letter nor a
    digit. *)

Definition is_space (c : char) : bool :=
  (in_range 9 13 c || in_range 28 32 c || eqc c 133 || eqc c 160
   || eqc c 5760 || in_range 8192 8202 c || eqc c 8232 || eqc c 8233
   || eqc c 8239 || eqc c 8287 || eqc c 12288)%bool.

Definition is_digit (c : char) : bool := in_range 48 57 c.

Definition is_alnum (c : char) : bool :=
  (in_range 48 57 c || in_range 65 90 c || in_range 97 122 c
   || eqc c 170 || eqc c 178 || eqc c 179 || eqc c 181 || eqc c 185
   || eqc c 186 || in_range 188 190 c
   || in_range 192 214 c || in_range 216 246 c || in_range 248 255 c)%bool.

(** The regex class [\w]. *)
Definition is_word (c : char) : bool := (is_alnum c || eqc c 95)%bool.

Definition to_lower (c : char) : char :=
  if (in_range 65 90 c || in_range 192 214 c || in_range 216 222 c)%bool
  then (c + 32) else c.

(** Title case of one character, which [str.capitalize] applies to the
    first one: one code point gives one, but for the sharp s. *)
Definition to_title (c : char) : str :=
  if (in_range 97 122 c || in_range 224 246 c || in_range 248 254 c)%bool
  then [(c - 32)]
  else if eqc c 181 then [924]
  else if eqc c 223 then [83; 115]
  else if eqc c 255 then [376]
  else [c].

(** ** Methods of [str] *)

Definition lower (s : str) : str := map to_lower s.

Definition capitalize (s : str) : str :=
  match s with
  | [] => []
  | c :: t => to_title c ++ lower t
  end.

Fixpoint prefixb (p s : str) : bool :=
  match p, s with
  | [], _ => true
  | _ :: _, [] => false
  | a :: p', b :: s' => (eqc a b && prefixb p' s')%bool
  end.

(** [sub in s] *)
Fixpoint contains (sub s : str) : bool :=
  (prefixb sub s ||
   match s with
   | [] => false
   | _ :: t => contains sub t
   end)%bool.

(** [s.replace(old, new)]: the occurrences of [old] are replaced from the
    left and do not overlap; [skip] counts the characters of the
    occurrence being replaced that are still to be passed. *)
Fixpoint replace_go (old new : str) (skip : nat) (s : str) : str :=
  match s with
  | [] => []
  | c :: t =>
      match skip with
      | S k => replace_go old new k t
      | O =>
          if prefixb old s
          then new ++ replace_go old new (List.length old - 1)%nat t
          else c :: replace_go old new O t
      end
  end.

Definition replace (old new s : str) : str :=
  match old with
  | [] => new ++ flat_map (fun c => c :: new) s
  | _ :: _ => replace_go old new O s
  end.

Fixpoint drop_space (s : str) : str :=
  match s with
  | [] => []
  | c :: t => if is_space c then drop_space t else s
  end.

(** [s.strip()] *)
Definition strip (s : str) : str := rev (drop_space (rev (drop_space s))).

(** [s.split(sep)] for a separator of one character. *)
Fixpoint split_chr (sep : char) (s : str) : list str :=
  match s with
  | [] => [[]]
  | c :: t =>
      if eqc c sep then [] :: split_chr sep t
      else match split_chr sep t with
           | [] => [[c]]
           | w :: ws => (c :: w) :: ws
           end
  end.

(** Index of the last occurrence of [sep] in [s]. *)
Fixpoint rfind (sep s : str) : option nat :=
  match s with
  | [] => if prefixb sep [] then Some O else None
  | _ :: t =>
      match rfind sep t with
      | Some i => Some (S i)
      | None => if prefixb sep s then Some O else None
      end
  end.

(** [s.rsplit(sep, 1)]: at most one split, at the last occurrence. *)
Definition rsplit1 (sep s : str) : list str :=
  match rfind sep s with
  | Some i => [firstn i s; skipn (i + List.length sep)%nat s]
  | None => [s]
  end.

End Str.

Import Str.

(* ================================================================== *)
(** * Regular expressions *)
(* ================================================================== *)

Module Re.

Local Open Scope N_scope.

(** The syntax covers what the patterns of the source use: literals,
    classes, concatenation, ordered alternation, the optional group [r?],
    the repetition of a class ([c*], [c+], [c*?]: [lazy] for the
    non-greedy forms, [min] the least number of repetitions), the word
    boundary [\b] and the end anchor [$]. *)
Inductive regex : Type :=
| Lit (c : char)
| Cls (p : char -> bool)
| Cat (r1 r2 : regex)
| Alt (r1 r2 : regex)
| Opt (r : regex)
| Many (lazy : bool) (min : nat) (p : char -> bool)
| Bnd
| Eos.

(** Where the matcher stands: the character before it, if any, and the
    text that remains. *)
Record cursor : Type := Cursor { prev : option char; rest : str }.

(** All the cursors reached by reading 0, 1, 2, ... characters of the
    class [p], shortest first. *)
Fixpoint runs (p : char -> bool) (pv : option char) (s : str) : list cursor :=
  Cursor pv s ::
  match s with
  | [] => []
  | c :: t => if p c then runs p (Some c) t else []
  end.

Definition word_at (o : option char) : bool :=
  match o with
  | Some c => is_word c
  | None => false
  end.

(** With [re.IGNORECASE] a literal matches the characters with the same
    lower case. *)
Definition lit_ok (ic : bool) (c x : char) : bool :=
  if ic then eqc (to_lower c) (to_lower x) else eqc c x.

(** The ends of the matches of [r] that start at a cursor, in the order
    in which a backtracking matcher finds them: the head of the list is
    the match that [re] reports. *)
Fixpoint ends (ic : bool) (r : regex) (k : cursor) : list cursor :=
  match r with
  | Lit c =>
      match rest k with
      | x :: t => if lit_ok ic c x then [Cursor (Some x) t] else []
      | [] => []
      end
  | Cls p =>
      match rest k with
      | x :: t => if p x then [Cursor (Some x) t] else []
      | [] => []
      end
  | Cat r1 r2 => flat_map (ends ic r2) (ends ic r1 k)
  | Alt r1 r2 => ends ic r1 k ++ ends ic r2 k
  | Opt r1 => ends ic r1 k ++ [k]
  | Many lazy min p =>
      let rs := skipn min (runs p (prev k) (rest k)) in
      if lazy then rs else rev rs
  | Bnd =>
      if xorb (word_at (prev k)) (word_at (hd_error (rest k)))
      then [k] else []
  | Eos =>
      match rest k with
      | [] => [k]
      | [c] => if eqc c 10 then [k] else []
      | _ => []
      end
  end.

(** Length of the match reported at a cursor, if there is one. *)
Definition match_len (ic : bool) (r : regex) (pv : option char) (s : str)
  : option nat :=
  match ends ic r (Cursor pv s) with
  | e :: _ => Some (List.length s - List.length (rest e))%nat
  | [] => None
  end.

(** [re.sub(r, repl, s)]: the matches are replaced from the left and do
    not overlap; [skip] counts the characters of the current match that
    are still to be passed. *)
Fixpoint sub_go (ic : bool) (r : regex) (repl : str)
         (skip : nat) (pv : option char) (s : str) : str :=
  match s with
  | [] =>
      match skip, match_len ic r pv [] with
      | O, Some _ => repl
      | _, _ => []
      end
  | c :: t =>
      match skip with
      | S n => sub_go ic r repl n (Some c) t
      | O =>
          match match_len ic r pv s with
          | Some (S n) => repl ++ sub_go ic r repl n (Some c) t
          | Some O => repl ++ c :: sub_go ic r repl O (Some c) t
          | None => c :: sub_go ic r repl O (Some c) t
          end
      end
  end.

Definition sub (ic : bool) (r : regex) (repl s : str) : str :=
  sub_go ic r repl O None s.

(** [re.findall(r, s)] for a pattern whose only group is the whole
    pattern: the matched texts, from the left. *)
Fixpoint findall_go (r : regex) (skip : nat) (pv : option char) (s : str)
  : list str :=
  match s with
  | [] =>
      match skip, match_len false r pv [] with
      | O, Some _ => [[]]
      | _, _ => []
      end
  | c :: t =>
      match skip with
      | S n => findall_go r n (Some c) t
      | O =>
          match match_len false r pv s with
          | Some (S n) => firstn (S n) s :: findall_go r n (Some c) t
          | Some O => [] :: findall_go r O (Some c) t
          | None => findall_go r O (Some c) t
          end
      end
  end.

Definition findall (r : regex) (s : str) : list str := findall_go r O None s.

(** [re.search(r, s)]: the text of the leftmost match. *)
Fixpoint search_go (r : regex) (pv : option char) (s : str) : option str :=
  match match_len false r pv s with
  | Some n => Some (firstn n s)
  | None =>
      match s with
      | [] => None
      | c :: t => search_go r (Some c) t
      end
  end.

Definition search (r : regex) (s : str) : option str := search_go r None s.

(** ** Building patterns *)

Fixpoint lit (s : str) : regex :=
  match s with
  | [] => Opt (Cls (fun _ => false))
  | [c] => Lit c
  | c :: t => Cat (Lit c) (lit t)
  end.

Fixpoint cat (rs : list regex) : regex :=
  match rs with
  | [] => Opt (Cls (fun _ => false))
  | [r] => r
  | r :: t => Cat r (cat t)
  end.

Definition one_of (cs : str) : char -> bool := fun c => existsb (eqc c) cs.
(** [.] *)
Definition dot : char -> bool := fun c => negb (eqc c 10).
(** [c+], [c*], [c*?] *)
Definition plus (p : char -> bool) : regex := Many false 1%nat p.
Definition star (p : char -> bool) : regex := Many false O p.
Definition star_lazy (p : char -> bool) : regex := Many true O p.

End Re.

Import Re.

(* ================================================================== *)
(** * traitement.py: titles and locations *)
(* ================================================================== *)

(** A cell of the table read by pandas: a string, or the missing value
    (a float NaN, which is not a [str]). *)
Inductive cell : Type :=
| CStr (s : str)
| CNaN.

(** [\d+(?:[\.,]\d+)?\s?[hH]] *)
Definition re_horaire : regex :=
  cat [plus is_digit;
       Opt (Cat (Cls (one_of (u ".,"))) (plus is_digit));
       Opt (Cls is_space);
       Cls (one_of (u "hH"))].

Definition mots_a_supprimer : list regex :=
  [ cat [lit (u "temps"); Opt (Cls is_space); lit (u "plein")];
    cat [lit (u "temps"); Opt (Cls is_space); lit (u "partiel")];
    cat [Bnd; lit (u "CDI"); Bnd];
    cat [Bnd; lit (u "CDD"); Bnd];
    cat [Bnd; lit (u "Intérim"); Bnd];
    cat [Bnd; lit (u "Stage"); Bnd];
    cat [Bnd; lit (u "Alternance"); Bnd];
    cat [Bnd; lit (u "H/F"); Bnd];
    cat [Bnd; lit (u "F/H"); Bnd];
    cat [Lit 40%N; star_lazy dot; Lit 41%N];
    cat [Cls is_space; Lit 45%N; Cls is_space];
    Lit 124%N ].

(** The title after the removal of the noise, before the final layout:
    the value of [titre_clean] when the loop of the source ends. *)
Definition titre_sans_bruit (titre_brut : str) : str :=
  fold_left (fun titre_clean motif => sub true motif (u " ") titre_clean)
            mots_a_supprimer
            (sub false re_horaire [] titre_brut).

(** The argument of [capitalize] in the last line of the source. *)
Definition titre_mis_en_forme (titre_clean : str) : str :=
  strip (sub false (plus is_space) (u " ")
           (sub false (Cls (one_of (u "-_"))) (u " ") titre_clean)).

Definition simplifier_titre (titre_brut : cell) : str :=
  match titre_brut with
  | CNaN => u "Inconnu"
  | CStr t => capitalize (titre_mis_en_forme (titre_sans_bruit t))
  end.

(** [\s\d+(?:er|e|ème)?$] *)
Definition re_arrondissement : regex :=
  cat [Cls is_space; plus is_digit;
       Opt (Alt (lit (u "er")) (Alt (lit (u "e")) (lit (u "ème"))));
       Eos].

(** [re.sub(r'\s\d+(?:er|e|ème)?$', '', ville)] *)
Definition sans_arrondissement (ville : str) : str :=
  sub false re_arrondissement [] ville.

Definition separer_localisation (loc_brute : cell) : str * str :=
  match loc_brute with
  | CNaN => (u "Inconnu", u "Inconnu")
  | CStr loc =>
      let parts := rsplit1 (u " - ") loc in
      let '(ville, dept) :=
        match parts with
        | [p0; p1] => (strip p0, strip p1)
        | _ => (strip loc, u "France")
        end in
      (sans_arrondissement ville, dept)
  end.

(* ================================================================== *)
(** * Python floats *)
(* ================================================================== *)

Module Float.

(** A binary64 value: not-a-number, an infinity, or a finite value,
    carried as the rational it denotes, in lowest terms.  (The sign of
    zero is not kept; no operation of the source can tell it.) *)
Inductive float : Type :=
| FNan
| FInf (neg : bool)
| FFin (q : Q).

(** [x * 2^e] *)
Definition scale2 (x : Q) (e : Z) : Q :=
  match e with
  | Z0 => x
  | Zpos p => (Qnum x * Zpos (2 ^ p)) # Qden x
  | Zneg p => Qnum x # (Qden x * 2 ^ p)
  end.

(** [floor (log2 x)] for [0 < x]. *)
Definition ilog2 (x : Q) : Z :=
  let e0 := (Z.log2 (Qnum x) - Z.log2 (Zpos (Qden x)))%Z in
  if Qle_bool (inject_Z 1) (scale2 x (- e0)) then e0 else (e0 - 1)%Z.

(** The integer nearest to [x], the even one of the two when [x] is half
    way. *)
Definition round_half_even (x : Q) : Z :=
  let f := (Qnum x / Zpos (Qden x))%Z in
  let r := (Qnum x mod Zpos (Qden x))%Z in
  match (2 * r ?= Zpos (Qden x))%Z with
  | Lt => f
  | Gt => (f + 1)%Z
  | Eq => if Z.even f then f else (f + 1)%Z
  end.

(** Rounding to binary64 of [0 < x]: 53 bits of precision, the least
    exponent of the last bit -1074, overflow to infinity from 2^1024. *)
Definition round_pos (x : Q) : float :=
  let e := Z.max (ilog2 x - 52) (-1074) in
  let m := round_half_even (scale2 x (- e)) in
  let v := scale2 (inject_Z m) e in
  if Qle_bool (inject_Z (2 ^ 1024)) v then FInf false else FFin (Qred v).

Definition fneg (x : float) : float :=
  match x with
  | FNan => FNan
  | FInf s => FInf (negb s)
  | FFin q => FFin (Qred (- q))
  end.

(** Round to nearest, ties to even; the rational is first put in lowest
    terms, so that the result depends on its value only. *)
Definition round64 (x : Q) : float :=
  let y := Qred x in
  match Qnum y with
  | Z0 => FFin 0
  | Zpos _ => round_pos y
  | Zneg _ => fneg (round_pos (- y))
  end.

Definition fadd (a b : float) : float :=
  match a, b with
  | FNan, _ | _, FNan => FNan
  | FInf s, FInf t => if Bool.eqb s t then FInf s else FNan
  | FInf s, FFin _ | FFin _, FInf s => FInf s
  | FFin x, FFin y => round64 (x + y)
  end.

Definition is_neg (q : Q) : bool := (Qnum q <? 0)%Z.
Definition is_zero (q : Q) : bool := (Qnum q =? 0)%Z.

Definition fmul (a b : float) : float :=
  match a, b with
  | FNan, _ | _, FNan => FNan
  | FInf s, FInf t => FInf (xorb s t)
  | FInf s, FFin y | FFin y, FInf s =>
      if is_zero y then FNan else FInf (xorb s (is_neg y))
  | FFin x, FFin y => round64 (x * y)
  end.

(** [a / b]; [None] is Python's [ZeroDivisionError]. *)
Definition fdiv (a b : float) : option float :=
  match a, b with
  | _, FFin y =>
      if is_zero y then None
      else Some match a with
                | FNan => FNan
                | FInf s => FInf (xorb s (is_neg y))
                | FFin x => round64 (x / y)
                end
  | FNan, _ | _, FNan => Some FNan
  | FInf _, FInf _ => Some FNan
  | FFin _, FInf _ => Some (FFin 0)
  end.

(** [a < b] and [a <= b]; every comparison with a NaN is false. *)
Definition flt (a b : float) : bool :=
  match a, b with
  | FNan, _ | _, FNan => false
  | FInf s, FInf t => (s && negb t)%bool
  | FInf s, FFin _ => s
  | FFin _, FInf t => negb t
  | FFin x, FFin y => negb (Qle_bool y x)
  end.

Definition fle (a b : float) : bool :=
  match a, b with
  | FNan, _ | _, FNan => false
  | FInf s, FInf t => (s || negb t)%bool
  | FInf s, FFin _ => s
  | FFin _, FInf t => negb t
  | FFin x, FFin y => Qle_bool x y
  end.

(** The float of an integer, and of a decimal literal [n / 10^k]. *)
Definition of_Z (n : Z) : float := round64 (inject_Z n).
(** [float(n)] for a Python integer, which may be too large:
    [None] is Python's [OverflowError]. *)
Definition float_of_int (n : Z) : option float :=
  match of_Z n with
  | FFin q => Some (FFin q)
  | _ => None
  end.

Definition pow10 (k : nat) : positive := Z.to_pos (10 ^ Z.of_nat k).
Definition of_dec (n : Z) (k : nat) : float := round64 (n # pow10 k).

(** [round(x, ndigits)] for [0 <= ndigits]: the decimal with [ndigits]
    places nearest to the exact value of [x], ties to even, then the
    float nearest to that decimal. *)
Definition round_ndigits (x : float) (ndigits : nat) : float :=
  match x with
  | FFin q =>
      let p := pow10 ndigits in
      round64 (round_half_even (q * inject_Z (Zpos p)) # p)
  | _ => x
  end.

(** ** [float(s)] *)

Fixpoint span_digits (s : str) : str * str :=
  match s with
  | [] => ([], [])
  | c :: t =>
      if is_digit c
      then let '(d, r) := span_digits t in (c :: d, r)
      else ([], s)
  end.

Definition Z_of_digits (ds : str) : Z :=
  fold_left (fun acc c => (10 * acc + (Z.of_N c - 48))%Z) ds 0%Z.

(** The strings read here are those of the pattern of the salary
    numbers, [D+] and [D+.D+]; on any other string the result is [None],
    Python's [ValueError].  (Python reads more forms: signs, exponents,
    [inf]; the pattern produces none of them.) *)
Definition float_of_str (s : str) : option float :=
  match span_digits s with
  | ([], _) => None
  | (ip, []) => Some (of_Z (Z_of_digits ip))
  | (ip, c :: r) =>
      if eqc c 46%N then
        match span_digits r with
        | ([], _) => None
        | (fp, []) => Some (of_dec (Z_of_digits (ip ++ fp)) (List.length fp))
        | (_, _ :: _) => None
        end
      else None
  end.

(** ** [repr(x)], which is also [str(x)] *)

(** [x * 10^e] *)
Definition scale10 (x : Q) (e : Z) : Q :=
  match e with
  | Z0 => x
  | Zpos p => (Qnum x * Zpos (10 ^ p)) # Qden x
  | Zneg p => Qnum x # (Qden x * 10 ^ p)
  end.

Definition zrange (lo : Z) (n : nat) : list Z :=
  map (fun i => (lo + Z.of_nat i)%Z) (seq 0 n).

(** The decimal exponent of [0 < x]: the least [k] with [x < 10^k]; the
    positive floats lie between 10^-324 and 10^309. *)
Definition decexp (x : Q) : Z :=
  match find (fun k => negb (Qle_bool (scale10 1 k) x))
             (zrange (-330) 641) with
  | Some k => k
  | None => 310%Z
  end.

(** The decimal of [n] significant digits nearest to [x], as an integer
    of units [10^(k - n)], for [k] the decimal exponent of [x]. *)
Definition candidat (x : Q) (k n : Z) : Z :=
  round_half_even (scale10 x (n - k)).

Definition relit (q : Q) (m e : Z) : bool :=
  match round64 (scale10 (inject_Z m) e) with
  | FFin r => Qeq_bool r q
  | _ => false
  end.

(** The decimal [m * 10^e] that [repr] prints for [0 < q]: the nearest to
    [q] with the fewest digits among those that read back as [q]; 17
    digits always do. *)
Definition plus_court (q : Q) : Z * Z :=
  let k := decexp q in
  let n :=
    match find (fun n => relit q (candidat q k n) (k - n)) (zrange 1 17) with
    | Some n => n
    | None => 17%Z
    end in
  (candidat q k n, (k - n)%Z).

Definition chiffre (d : Z) : char := (48 + Z.to_N d)%N.

(** The decimal digits of [0 <= n], the first one not 0 but for 0. *)
Fixpoint digits_go (fuel : nat) (n : Z) (acc : str) : str :=
  match fuel with
  | O => acc
  | S fuel' =>
      let acc' := chiffre (n mod 10) :: acc in
      if (n <? 10)%Z then acc' else digits_go fuel' (n / 10) acc'
  end.

Definition digits_of_Z (n : Z) : str :=
  digits_go (S (Z.to_nat (Z.log2 n))) n [].

(** The last [w] decimal digits of [n]. *)
Fixpoint digits_width (w : nat) (n : Z) : str :=
  match w with
  | O => []
  | S w' => digits_width w' (n / 10) ++ [chiffre (n mod 10)]
  end.

(** Without the zeros at the end. *)
Fixpoint strip0 (l : str) : str :=
  match l with
  | [] => []
  | c :: t =>
      match strip0 t with
      | [] => if eqc c 48%N then [] else [c]
      | t' => c :: t'
      end
  end.

(** [m * 10^e] written with a point and without an exponent, with one
    digit at least on each side. *)
Definition fixe (m e : Z) : str :=
  match e with
  | Zneg p =>
      let f := Pos.to_nat p in
      let d := Zpos (10 ^ p) in
      digits_of_Z (m / d) ++ [46%N]
        ++ match strip0 (digits_width f (m mod d)) with
           | [] => [48%N]
           | fr => fr
           end
  | _ => digits_of_Z (m * 10 ^ e) ++ [46%N; 48%N]
  end.

(** [m * 10^e] written with an exponent: [d.ddde+XX]. *)
Definition scientifique (m e : Z) : str :=
  let ds := digits_of_Z m in
  let x := (e + Z.of_nat (List.length ds) - 1)%Z in
  let xs := digits_of_Z (Z.abs x) in
  match strip0 ds with
  | [] => [48%N]
  | [d] => [d]
  | d :: fr => d :: 46%N :: fr
  end
  ++ [101%N; if (x <? 0)%Z then 45%N else 43%N]
  ++ match xs with
     | [_] => 48%N :: xs
     | _ => xs
     end.

(** [repr] of [0 < q]: without an exponent from 10^-4 up to 10^16. *)
Definition repr_pos (q : Q) : str :=
  let '(m, e) := plus_court q in
  let v := scale10 (inject_Z m) e in
  if (Qle_bool (1 # 10000) v && negb (Qle_bool (inject_Z (10 ^ 16)) v))%bool
  then fixe m e
  else scientifique m e.

Definition float_repr (x : float) : str :=
  match x with
  | FNan => u "nan"
  | FInf false => u "inf"
  | FInf true => u "-inf"
  | FFin q =>
      match Qnum q with
      | Z0 => u "0.0"
      | Zpos _ => repr_pos q
      | Zneg _ => 45%N :: repr_pos (- q)
      end
  end.

End Float.

Import Float.

(* ================================================================== *)
(** * traitement.py: salaries *)
(* ================================================================== *)

(** What a call gives: a value, or a raised exception. *)
Inductive result (A : Type) : Type :=
| Ok (a : A)
| Raise.
Arguments Ok {A} a.
Arguments Raise {A}.

Definition bind {A B : Type} (r : result A) (f : A -> result B) : result B :=
  match r with
  | Ok a => f a
  | Raise => Raise
  end.

Definition of_option {A : Type} (o : option A) : result A :=
  match o with
  | Some a => Ok a
  | None => Raise
  end.

(** [[f(x) for x in l]], which stops at the first exception. *)
Fixpoint map_result {A B : Type} (f : A -> result B) (l : list A)
  : result (list B) :=
  match l with
  | [] => Ok []
  | a :: t =>
      bind (f a) (fun b => bind (map_result f t) (fun bs => Ok (b :: bs)))
  end.

(** [(\d+(?:\.\d+)?)] *)
Definition re_nombre : regex :=
  Cat (plus is_digit) (Opt (Cat (Lit 46%N) (plus is_digit))).

(** [sum(l)]: the additions from the left, starting from 0. *)
Definition fsum (l : list float) : float := fold_left fadd l (FFin 0).

(** Step 2 of the source: the text in which the numbers and the unit
    are looked for. *)
Definition clean_txt (texte_salaire : str) : str :=
  replace (u "k") (u "000")
    (replace [160%N] []
       (replace [8239%N] []
          (replace (u " ") [] (lower texte_salaire)))).

(** Step 4 of the source. *)
Definition multiplicateur (clean : str) (valeur : float) : float :=
  if contains (u "mois") clean then of_dec 120 1
  else if contains (u "heure") clean then fmul (of_dec 15167 2) (of_Z 12)
  else if contains (u "jour") clean then of_dec 2180 1
  else if (fle (of_Z 1200) valeur && fle valeur (of_Z 12000))%bool
       then of_dec 120 1
  else of_dec 10 1.

(** [None] is Python's [None]. *)
Definition nettoyer_salaire (texte_salaire : cell)
  : result (option float) :=
  match texte_salaire with
  | CNaN => Ok None
  | CStr texte =>
      if contains (u "non affiché") (lower texte) then Ok None
      else
        let clean := clean_txt texte in
        let nombres := findall re_nombre clean in
        match nombres with
        | [] => Ok None
        | _ :: _ =>
            bind (map_result (fun n => of_option (float_of_str n)) nombres)
              (fun floats =>
            bind (of_option (float_of_int (Z.of_nat (List.length nombres))))
              (fun len =>
            bind (of_option (fdiv (fsum floats) len))
              (fun valeur =>
            let salaire_annuel := fmul valeur (multiplicateur clean valeur) in
            if (flt salaire_annuel (of_Z 14000)
                || flt (of_Z 200000) salaire_annuel)%bool
            then Ok None
            else Ok (Some (round_ndigits salaire_annuel 2)))))
        end
  end.

(* ================================================================== *)
(** * traitement.py: the pipeline *)
(* ================================================================== *)

(** A row of the table read from the file of the robot. *)
Record ligne : Type := Ligne {
  Titre : cell;
  Entreprise : cell;
  Localisation : cell;
  Contrat : cell;
  Salaire : cell;
  Lien : cell
}.

(** A row of [df_clean]: the columns [cols] of the source. *)
Record ligne_propre : Type := LignePropre {
  Titre_Simplifie : str;
  Entreprise_ : cell;
  Ville : str;
  Departement : str;
  Contrat_ : cell;
  Salaire_Annuel : option float
}.

(** Steps 2 and 3 of the source on one row. *)
Definition transformer (l : ligne) : result ligne_propre :=
  bind (nettoyer_salaire (Salaire l)) (fun salaire_annuel =>
  let titre_simplifie := simplifier_titre (Titre l) in
  let '(ville, departement) := separer_localisation (Localisation l) in
  Ok (LignePropre titre_simplifie (Entreprise l) ville departement
                  (Contrat l) salaire_annuel)).

(** The key of [drop_duplicates]:
    [subset=['Titre_Simplifie', 'Entreprise', 'Ville']]. *)
Definition cle : Type := str * cell * str.

Definition cle_de (r : ligne_propre) : cle :=
  (Titre_Simplifie r, Entreprise_ r, Ville r).

Fixpoint str_eqb (a b : str) : bool :=
  match a, b with
  | [], [] => true
  | x :: a', y :: b' => (eqc x y && str_eqb a' b')%bool
  | _, _ => false
  end.

(** pandas takes two missing values as equal when it looks for
    duplicates. *)
Definition cell_eqb (a b : cell) : bool :=
  match a, b with
  | CStr x, CStr y => str_eqb x y
  | CNaN, CNaN => true
  | _, _ => false
  end.

Definition cle_eqb (a b : cle) : bool :=
  let '(t1, e1, v1) := a in
  let '(t2, e2, v2) := b in
  (str_eqb t1 t2 && cell_eqb e1 e2 && str_eqb v1 v2)%bool.

(** [DataFrame.drop_duplicates(subset=...)], which keeps the first row
    of each key ([keep='first'], the default); [vues] are the keys of the
    rows already passed. *)
Fixpoint drop_duplicates_go (vues : list cle) (rows : list ligne_propre)
  : list ligne_propre :=
  match rows with
  | [] => []
  | r :: t =>
      if existsb (cle_eqb (cle_de r)) vues
      then drop_duplicates_go vues t
      else r :: drop_duplicates_go (cle_de r :: vues) t
  end.

Definition drop_duplicates (rows : list ligne_propre) : list ligne_propre :=
  drop_duplicates_go [] rows.

(** The pipeline: [fichier] is the table of the input file, [None] when
    the file does not exist; the result is the table written to the
    output file, [None] when nothing is written.  On a table without
    rows, [apply] gives an empty column and not the two columns that the
    assignment of [Ville] and [Departement] expects: the assignment
    raises a [ValueError] and nothing is written. *)
Definition lancer_traitement_final (fichier : option (list ligne))
  : result (option (list ligne_propre)) :=
  match fichier with
  | None => Ok None
  | Some df =>
      match df with
      | [] => Raise
      | _ :: _ =>
          bind (map_result transformer df) (fun df_clean =>
          Ok (Some (drop_duplicates df_clean)))
      end
  end.

(* ================================================================== *)
(** * scraping.py: the robot *)
(* ================================================================== *)

Definition OBJECTIF : nat := 1000.

(** The class of a raised exception: the handlers [except Exception]
    catch the first one only, the bare [except:] catch both. *)
Inductive exn : Type :=
| Exception_
| BaseException_.

(** What a call to the browser gives. *)
Inductive outcome (A : Type) : Type :=
| Val (a : A)
| Throw (e : exn).
Arguments Val {A} a.
Arguments Throw {A} e.

Definition obind {A B : Type} (o : outcome A) (f : A -> outcome B)
  : outcome B :=
  match o with
  | Val a => f a
  | Throw e => Throw e
  end.

(** An attribute read from an element is a string or [None]. *)
Definition attribut : Type := outcome (option str).

(** The heading of a card: the text of its [p] children and its own. *)
Record entete : Type := Entete {
  h_ps : outcome (list attribut);
  h_text : attribut
}.

(** A card, as the queries of the robot see it: each field is what the
    query gives, the look-up of the element and the reading of its
    attribute taken together. *)
Record carte : Type := Carte {
  c_h3 : outcome entete;
  c_localisation : attribut;
  c_contrat : attribut;
  c_text : attribut;
  c_href : attribut
}.

(** An entry of [donnees]. *)
Record offre : Type := Offre {
  o_Titre : str;
  o_Entreprise : str;
  o_Localisation : str;
  o_Contrat : str;
  o_Salaire : str;
  o_Lien : option str
}.

(** [x.get_attribute("textContent").strip()]; on [None] the call of
    [strip] raises an [AttributeError]. *)
Definition texte_strip (a : attribut) : outcome str :=
  obind a (fun o =>
  match o with
  | Some s => Val (strip s)
  | None => Throw Exception_
  end).

(** A query in a [try] with a bare [except:]. *)
Definition ou_defaut {A : Type} (o : outcome A) (d : A) : A :=
  match o with
  | Val a => a
  | Throw _ => d
  end.

(** The pattern of the salary: the group of [[0-9\s]+], the euro sign
    and [.*]. *)
Definition re_salaire : regex :=
  cat [plus (fun c => (in_range 48%N 57%N c || is_space c)%bool);
       Lit 8364%N; star dot].

Definition euro : str := [8364%N].

(** The salary read in the text of the card, part D of the source. *)
Definition extraire_salaire (carte_text : str) : str :=
  if contains euro carte_text then
    match search re_salaire carte_text with
    | Some m => strip m
    | None =>
        match find (contains euro) (split_chr 10%N carte_text) with
        | Some line => strip line
        | None => u "Non affiché"
        end
    end
  else u "Non affiché".

(** The body of the [try] of a card: [Val None] is the [continue] of an
    empty title; a raised exception is left to the handler. *)
Definition extraire (c : carte) : outcome (option offre) :=
  obind (c_h3 c) (fun h3 =>
  obind (h_ps h3) (fun ps =>
  obind (match ps with
         | p0 :: p1 :: _ =>
             obind (texte_strip p0) (fun titre =>
             obind (texte_strip p1) (fun entreprise =>
             Val (titre, entreprise)))
         | _ =>
             obind (texte_strip (h_text h3)) (fun full_text =>
             let parts := split_chr 10%N full_text in
             Val (strip (hd [] parts),
                  match parts with
                  | _ :: p1 :: _ => strip p1
                  | _ => u "Inconnu"
                  end))
         end) (fun '(titre, entreprise) =>
  match titre with
  | [] => Val None
  | _ :: _ =>
      let loc := ou_defaut (texte_strip (c_localisation c)) (u "France") in
      let contrat :=
        ou_defaut (texte_strip (c_contrat c)) (u "Non spécifié") in
      obind (c_text c) (fun carte_text =>
      match carte_text with
      | None => Throw Exception_
      | Some txt =>
          let salaire := extraire_salaire txt in
          let lien := ou_defaut (c_href c) (Some (u "Non disponible")) in
          Val (Some (Offre titre entreprise loc contrat salaire lien))
      end)
  end))).

(** The calls the robot makes, in the order of the run. *)
Inductive event : Type :=
| EvChrome
| EvChromeService
| EvGet (page : nat)
| EvSleep
| EvCookies
| EvFindCartes (page : nat)
| EvCarte (page idx : nat)
| EvQuit
| EvCsv (n : nat).

(** What the browser and the site answer to each call; the pages are
    numbered from 1, [w_get 1] is the first fetch, of [url_base], and
    [w_sleep 1] the first pause.  The click on the cookie banner and
    [driver.quit()] stand in a bare [except:], which discards what they
    give: they have an event and no answer. *)
Record world : Type := World {
  w_chrome : outcome unit;
  w_chrome_service : outcome unit;
  w_get : nat -> outcome unit;
  w_sleep : nat -> outcome unit;
  w_cartes : nat -> outcome (list carte)
}.

(** How a run, or a part of it, ends. *)
Inductive fin : Type :=
| Termine (donnees : list offre)
| Leve (e : exn)
| Inacheve (donnees : list offre).

(** The [for] loop over the cards of a page. *)
Fixpoint scanner (objectif page idx : nat) (cartes : list carte)
         (donnees : list offre) : list event * outcome (list offre) :=
  match cartes with
  | [] => ([], Val donnees)
  | c :: t =>
      match extraire c with
      | Val (Some o) =>
          let donnees' := donnees ++ [o] in
          if objectif <=? List.length donnees'
          then ([EvCarte page idx], Val donnees')
          else let '(tr, r) := scanner objectif page (S idx) t donnees' in
               (EvCarte page idx :: tr, r)
      | Val None | Throw Exception_ =>
          let '(tr, r) := scanner objectif page (S idx) t donnees in
          (EvCarte page idx :: tr, r)
      | Throw BaseException_ => ([EvCarte page idx], Throw BaseException_)
      end
  end.

(** The [while] loop; [fuel] bounds the number of pages read. *)
Fixpoint boucle (objectif : nat) (w : world) (fuel page : nat)
         (donnees : list offre) : list event * fin :=
  if objectif <=? List.length donnees then ([], Termine donnees)
  else
    match fuel with
    | O => ([], Inacheve donnees)
    | S fuel' =>
        match w_cartes w page with
        | Throw e => ([EvFindCartes page], Leve e)
        | Val [] => ([EvFindCartes page], Termine donnees)
        | Val cartes =>
            let '(tr1, r) := scanner objectif page O cartes donnees in
            match r with
            | Throw e => (EvFindCartes page :: tr1, Leve e)
            | Val donnees' =>
                match w_get w (S page) with
                | Throw e =>
                    (EvFindCartes page :: tr1 ++ [EvGet (S page)], Leve e)
                | Val _ =>
                    match w_sleep w (S page) with
                    | Throw e =>
                        (EvFindCartes page :: tr1
                           ++ [EvGet (S page); EvSleep], Leve e)
                    | Val _ =>
                        let '(tr2, f) :=
                          boucle objectif w fuel' (S page) donnees' in
                        (EvFindCartes page :: tr1
                           ++ [EvGet (S page); EvSleep] ++ tr2, f)
                    end
                end
            end
        end
    end.

(** The body of the [try] of the source, then its [finally]. *)
Definition session (objectif : nat) (w : world) (fuel : nat)
  : list event * fin :=
  let '(tr, f) :=
    match w_sleep w 1 with
    | Throw e => ([EvSleep], Leve e)
    | Val _ =>
        let '(tr, f) := boucle objectif w fuel 1 [] in
        (EvSleep :: EvCookies :: tr, f)
    end in
  match f with
  | Inacheve _ => (tr, f)
  | _ => (tr ++ [EvQuit], f)
  end.

(** Part 3 of the source. *)
Definition exporter (f : fin) : list event :=
  match f with
  | Termine [] => []
  | Termine donnees => [EvCsv (List.length donnees)]
  | _ => []
  end.

Definition run (objectif : nat) (w : world) (fuel : nat)
  : list event * fin :=
  let demarrer (tr0 : list event) :=
    match w_get w 1 with
    | Throw e => (tr0 ++ [EvGet 1], Leve e)
    | Val _ =>
        let '(tr, f) := session objectif w fuel in
        (tr0 ++ [EvGet 1] ++ tr ++ exporter f, f)
    end in
  match w_chrome w with
  | Val _ => demarrer [EvChrome]
  | Throw BaseException_ => ([EvChrome], Leve BaseException_)
  | Throw Exception_ =>
      match w_chrome_service w with
      | Val _ => demarrer [EvChrome; EvChromeService]
      | Throw e => ([EvChrome; EvChromeService], Leve e)
      end
  end.

Definition lancer_scraping_france (w : world) (fuel : nat)
  : list event * fin :=
  run OBJECTIF w fuel.

(* ================================================================== *)
(** * The vocabulary of the statements *)
(* ================================================================== *)

(** [2^e] for [0 <= e], and 1 below. *)
Definition pz (e : Z) : Z := (2 ^ Z.max e 0)%Z.

(** The value of a binary64 float of the Standard Library. *)
Definition of_spec (f : spec_float) : float :=
  match f with
  | S754_zero _ => FFin 0
  | S754_infinity s => FInf s
  | S754_nan => FNan
  | S754_finite s m e =>
      FFin (Qred (scale2 (inject_Z (if s then Zneg m else Zpos m)) e))
  end.

(** The binary64 float of an integer, in the Standard Library. *)
Definition spec_of_Z (n : Z) : spec_float := binary_normalize 53 1024 n 0%Z false.

(** [2^a <= y]. *)
Definition le2 (a : Z) (y : Q) : Prop :=
  (Zpos (Qden y) * pz a <= Qnum y * pz (- a))%Z.

(** A float that is neither negative nor a NaN. *)
Definition nonneg (x : float) : Prop :=
  match x with
  | FFin q => (0 <= q)%Q
  | FInf s => s = false
  | FNan => False
  end.

(** The accumulator of a run, where it is known, is within the target. *)
Definition borne (objectif : nat) (f : fin) : Prop :=
  match f with
  | Termine d | Inacheve d => List.length d <= objectif
  | Leve _ => True
  end.

(** [l1] is [l2] with some elements left out, the order kept. *)
Inductive sous_suite {A : Type} : list A -> list A -> Prop :=
| ss_nil : sous_suite [] []
| ss_garde a l1 l2 : sous_suite l1 l2 -> sous_suite (a :: l1) (a :: l2)
| ss_saute a l1 l2 : sous_suite l1 l2 -> sous_suite l1 (a :: l2).


(** A string of digits. *)
Definition est_chiffres (ds : str) : Prop := Forall (fun c => is_digit c = true) ds.

(** The characters of a decimal: the digits and the point. *)
Definition est_decimal (s : str) : Prop :=
  Forall (fun c => is_digit c = true \/ c = 46%N) s.

(** [l ++ sep ++ r] is cut at its last occurrence of [sep]. *)
Definition derniere_occurrence (sep l r : str) : Prop :=
  forall l' r',
    l ++ sep ++ r = l' ++ sep ++ r' -> List.length l' <= List.length l.


(** The pattern of the district number after its first character. *)
Definition suite_arrondissement : regex :=
  Cat (plus is_digit)
      (Cat (Opt (Alt (lit (u "er")) (Alt (lit (u "e")) (lit (u "ème"))))) Eos).


(** ** The range of the character tables *)

(** The characters on which the classes and the case mappings of this
    file are those of Python: U+0000..U+00FF, the white space and the
    euro sign. *)
Definition courant (c : char) : bool :=
  (N.ltb c 256 || is_space c || eqc c 8364%N)%bool.

Definition texte_courant (s : str) : bool := forallb courant s.

Definition cellule_courante (c : cell) : bool :=
  match c with
  | CStr s => texte_courant s
  | CNaN => true
  end.

(** The cells of a row that the pipeline transforms. *)
Definition ligne_courante (l : ligne) : bool :=
  (cellule_courante (Titre l) && cellule_courante (Localisation l)
   && cellule_courante (Salaire l))%bool.



(** ** White space *)

(** A string of white space only. *)
Definition blancs (s : str) : Prop := Forall (fun c => is_space c = true) s.

(** A string that does not begin with white space. *)
Definition bord (s : str) : Prop :=
  match s with
  | [] => True
  | c :: _ => is_space c = false
  end.

(** A string with no white space at either end. *)
Definition sans_bords (s : str) : Prop := bord s /\ bord (rev s).

(** ** The rows of the pipeline *)

(** [r] is the row that steps 2 and 3 of the source make of [l]. *)
Definition transformee (l : ligne) (r : ligne_propre) : Prop :=
  nettoyer_salaire (Salaire l) = Ok (Salaire_Annuel r)
  /\ Titre_Simplifie r = simplifier_titre (Titre l)
  /\ (Ville r, Departement r) = separer_localisation (Localisation l)
  /\ Entreprise_ r = Entreprise l
  /\ Contrat_ r = Contrat l.



(** ** Worlds for the robot *)

(** The browser starts, and the first fetch, of [url_base], fails. *)
Definition monde_premier_get_echoue : world :=
  World (Val tt) (Val tt)
        (fun page => if page =? 1 then Throw Exception_ else Val tt)
        (fun _ => Val tt)
        (fun _ => Val []).

Definition attr (s : string) : attribut := Val (Some (u s)).

Definition carte_valide : carte :=
  Carte (Val (Entete (Val [attr "Data Analyst"; attr "ACME"]) (attr "")))
        (attr "Lyon - 69") (attr "CDI") (attr "Data Analyst ACME 35k €")
        (attr "https://www.hellowork.com/fr-fr/emplois/1.html").

(** Every page shows twenty cards, all of them readable. *)
Definition monde_vingt_cartes : world :=
  World (Val tt) (Val tt) (fun _ => Val tt) (fun _ => Val tt)
        (fun _ => Val (repeat carte_valide 20)).

(** What the robot has gathered in that world when it stops. *)
Definition donnees_vingt_cartes : list offre :=
  match snd (lancer_scraping_france monde_vingt_cartes 50) with
  | Termine d => d
  | _ => []
  end.
(* ================================================================== *)
(** * The vocabulary of the further properties *)
(* ================================================================== *)

(** ** The robot *)

(** The offers of a page: those of its cards that the robot can read. *)
Definition offres_lues (cartes : list carte) : list offre :=
  flat_map (fun c => match extraire c with
                     | Val (Some o) => [o]
                     | _ => []
                     end) cartes.

(** The cards the site shows on a page, none when the query fails. *)
Definition cartes_de (w : world) (page : nat) : list carte :=
  ou_defaut (w_cartes w page) [].

(** The pages fetched and the pages looked at in a trace, in order. *)
Definition pages_demandees (tr : list event) : list nat :=
  flat_map (fun e => match e with EvGet p => [p] | _ => [] end) tr.

Definition pages_examinees (tr : list event) : list nat :=
  flat_map (fun e => match e with EvFindCartes p => [p] | _ => [] end) tr.

(** The browser has started, at the first or at the second attempt. *)
Definition demarre (w : world) : Prop :=
  w_chrome w = Val tt
  \/ (w_chrome w = Throw Exception_ /\ w_chrome_service w = Val tt).

(** A card that gives no offer and lets the loop go on. *)
Definition carte_sautee (c : carte) : Prop :=
  extraire c = Val None \/ extraire c = Throw Exception_.

(** The runs of the [while] loop from a page and an accumulator, with the
    trace and the end of each; a run may be cut before any turn. *)
Inductive tours (objectif : nat) (w : world)
  : nat -> list offre -> list event -> fin -> Prop :=
| tours_objectif page d :
    objectif <= List.length d -> tours objectif w page d [] (Termine d)
| tours_coupe page d :
    List.length d < objectif -> tours objectif w page d [] (Inacheve d)
| tours_cartes_leve page d e :
    List.length d < objectif -> w_cartes w page = Throw e ->
    tours objectif w page d [EvFindCartes page] (Leve e)
| tours_vide page d :
    List.length d < objectif -> w_cartes w page = Val [] ->
    tours objectif w page d [EvFindCartes page] (Termine d)
| tours_carte_leve page d cartes tr1 e :
    List.length d < objectif -> w_cartes w page = Val cartes -> cartes <> [] ->
    scanner objectif page 0 cartes d = (tr1, Throw e) ->
    tours objectif w page d (EvFindCartes page :: tr1) (Leve e)
| tours_get_leve page d cartes tr1 d' e :
    List.length d < objectif -> w_cartes w page = Val cartes -> cartes <> [] ->
    scanner objectif page 0 cartes d = (tr1, Val d') ->
    w_get w (S page) = Throw e ->
    tours objectif w page d (EvFindCartes page :: tr1 ++ [EvGet (S page)]) (Leve e)
| tours_sleep_leve page d cartes tr1 d' e :
    List.length d < objectif -> w_cartes w page = Val cartes -> cartes <> [] ->
    scanner objectif page 0 cartes d = (tr1, Val d') ->
    w_get w (S page) = Val tt -> w_sleep w (S page) = Throw e ->
    tours objectif w page d
          (EvFindCartes page :: tr1 ++ [EvGet (S page); EvSleep]) (Leve e)
| tours_suite page d cartes tr1 d' tr2 f :
    List.length d < objectif -> w_cartes w page = Val cartes -> cartes <> [] ->
    scanner objectif page 0 cartes d = (tr1, Val d') ->
    w_get w (S page) = Val tt -> w_sleep w (S page) = Val tt ->
    tours objectif w (S page) d' tr2 f ->
    tours objectif w page d
          (EvFindCartes page :: tr1 ++ [EvGet (S page); EvSleep] ++ tr2) f.

(** An event of the loop over the pages. *)
Definition ev_boucle (e : event) : Prop :=
  match e with
  | EvFindCartes _ | EvCarte _ _ | EvGet _ | EvSleep => True
  | _ => False
  end.

Definition ev_carte (e : event) : Prop :=
  match e with
  | EvCarte _ _ => True
  | _ => False
  end.

(** In a trace, every fetch that succeeds is followed at once by a pause. *)
Definition pause_suit (w : world) (tr : list event) : Prop :=
  forall a p b,
    tr = a ++ EvGet p :: b -> w_get w p = Val tt -> exists b', b = EvSleep :: b'.

Definition ev_get (e : event) : Prop :=
  match e with
  | EvGet _ => True
  | _ => False
  end.

(** The call of [driver.quit()] of the [finally], which a cut run has not
    reached. *)
Definition fermeture (f : fin) : list event :=
  match f with
  | Inacheve _ => []
  | _ => [EvQuit]
  end.

Definition carte_sans_titre : carte :=
  Carte (Val (Entete (Val [attr ""; attr "ACME"]) (attr "")))
        (attr "Lyon - 69") (attr "CDI") (attr "ACME 35k €")
        (attr "https://www.hellowork.com/fr-fr/emplois/2.html").

(** A site of one page, with a card without a title and a readable one. *)
Definition monde_une_page : world :=
  World (Val tt) (Val tt) (fun _ => Val tt) (fun _ => Val tt)
        (fun page => if page =? 1 then Val [carte_sans_titre; carte_valide]
                     else Val []).

(** What the robot gathers on that site. *)
Definition donnees_une_page : list offre :=
  match snd (lancer_scraping_france monde_une_page 3) with
  | Termine d => d
  | _ => []
  end.

(** The browser does not start: the first attempt is interrupted. *)
Definition monde_sans_navigateur : world :=
  World (Throw BaseException_) (Val tt) (fun _ => Val tt) (fun _ => Val tt)
        (fun _ => Val []).

(** A site whose pages all show one card, which has no title. *)
Definition monde_sans_titre : world :=
  World (Val tt) (Val tt) (fun _ => Val tt) (fun _ => Val tt)
        (fun _ => Val [carte_sans_titre]).

(** ** The texts *)

(** The characters of [[0-9\s]]. *)
Definition chiffre_ou_espace (c : char) : bool :=
  (in_range 48%N 57%N c || is_space c)%bool.

(** ** The pipeline *)

(** Every white space of [s] is a plain space, and none is followed by a
    white space. *)
Fixpoint espaces_simples (s : str) : Prop :=
  match s with
  | [] => True
  | c :: t => (is_space c = true -> c = 32%N /\ bord t) /\ espaces_simples t
  end.

(** The separators that the layout of the title turns into spaces. *)
Definition est_separateur (c : char) : bool :=
  (eqc c 45%N || eqc c 95%N || eqc c 124%N)%bool.

(** The code points of a byte. *)
Definition octets : list char := map N.of_nat (seq 0 256).

(** The endings of a district number: none, er, e or ème. *)
Definition suffixes_arrondissement : list str := [[]; u "er"; u "e"; u "ème"].

(** [v] is [ville] followed by a district number: a white space, digits
    and an optional ending. *)
Definition avec_arrondissement (ville v : str) : Prop :=
  exists w ds suf,
    v = ville ++ w :: ds ++ suf
    /\ is_space w = true /\ est_chiffres ds /\ ds <> []
    /\ In suf suffixes_arrondissement.

(** The three spaces that [nettoyer_salaire] takes out of the text: the
    plain space, the no-break space and the narrow no-break space. *)
Definition est_espace_efface (c : char) : bool :=
  (eqc c 32%N || eqc c 160%N || eqc c 8239%N)%bool.

Definition sans_espaces (s : str) : str :=
  filter (fun c => negb (est_espace_efface c)) s.

(** A character that is neither a digit nor an ASCII letter, taken among
    the bytes, the euro sign and the narrow no-break space. *)
Definition inerte (c : char) : bool :=
  ((N.ltb c 256 || eqc c 8364%N || eqc c 8239%N)
   && negb (is_digit c || in_range 65%N 90%N c || in_range 97%N 122%N c))%bool.

(** The yearly salary of an amount without a unit: twelve times the
    amount from 1200 to 12000, the amount from 14000 to 200000, and no
    salary otherwise. *)
Definition salaire_sans_unite (n : Z) : option float :=
  if ((1200 <=? n) && (n <=? 12000))%Z then Some (of_Z (12 * n))
  else if ((14000 <=? n) && (n <=? 200000))%Z then Some (of_Z n)
  else None.

(** The salary kept when it lies within the bounds. *)
Definition salaire_borne (m : Z) : option float :=
  if ((14000 <=? m) && (m <=? 200000))%Z then Some (of_Z m) else None.

(** What one character of the text becomes in [clean_txt]. *)
Definition clean_car (c : char) : str :=
  if est_espace_efface (to_lower c) then []
  else if eqc (to_lower c) 107%N then u "000"
  else [to_lower c].


(* ================================================================== *)
(** * Facts on the floats *)
(* ================================================================== *)

Section FloatFacts.

Local Open Scope Z_scope.

Lemma pz_pos e : 0 < pz e.
Proof. unfold pz. apply Z.pow_pos_nonneg; lia. Qed.

Lemma pz_nonpos e : e <= 0 -> pz e = 1.
Proof. intros H. unfold pz. rewrite Z.max_r by lia. reflexivity. Qed.

Lemma pz_nonneg e : 0 <= e -> pz e = 2 ^ e.
Proof. intros H. unfold pz. rewrite Z.max_l by lia. reflexivity. Qed.

Lemma pz_add a b : 0 <= a -> 0 <= b -> pz (a + b) = pz a * pz b.
Proof.
  intros Ha Hb. rewrite !pz_nonneg by lia. apply Z.pow_add_r; lia.
Qed.

Lemma pz_le a b : a <= b -> pz a <= pz b.
Proof. intros H. unfold pz. apply Z.pow_le_mono_r; lia. Qed.

Lemma scale2_num x e : Qnum (scale2 x e) = Qnum x * pz e.
Proof.
  destruct e as [|p|p]; unfold scale2; cbn [Qnum Qden].
  - rewrite pz_nonpos by lia. lia.
  - rewrite pz_nonneg by lia. rewrite Pos2Z.inj_pow. reflexivity.
  - rewrite pz_nonpos by lia. lia.
Qed.

Lemma scale2_den x e : Zpos (Qden (scale2 x e)) = Zpos (Qden x) * pz (- e).
Proof.
  destruct e as [|p|p]; unfold scale2; cbn [Qnum Qden Z.opp].
  - rewrite pz_nonpos by lia. lia.
  - rewrite pz_nonpos by lia. lia.
  - rewrite pz_nonneg by lia. rewrite Pos2Z.inj_mul, Pos2Z.inj_pow. reflexivity.
Qed.

Lemma ilog2_spec x :
  0 < Qnum x ->
  Zpos (Qden x) * pz (ilog2 x) <= Qnum x * pz (- ilog2 x) /\
  Qnum x * pz (- (ilog2 x + 1)) < Zpos (Qden x) * pz (ilog2 x + 1).
Proof.
  intros Hn. unfold ilog2.
  set (a := Z.log2 (Qnum x)). set (b := Z.log2 (Zpos (Qden x))).
  assert (Ha : 2 ^ a <= Qnum x < 2 ^ (a + 1)).
  { replace (a + 1) with (Z.succ a) by lia. apply Z.log2_spec; assumption. }
  assert (Hb : 2 ^ b <= Zpos (Qden x) < 2 ^ (b + 1)).
  { replace (b + 1) with (Z.succ b) by lia. apply Z.log2_spec; lia. }
  assert (Ha0 : 0 <= a) by apply Z.log2_nonneg.
  assert (Hb0 : 0 <= b) by apply Z.log2_nonneg.
  destruct (Qle_bool (inject_Z 1) (scale2 x (- (a - b)))) eqn:T.
  - apply Qle_bool_iff in T. unfold Qle in T.
    rewrite scale2_num, scale2_den in T. cbn [inject_Z Qnum Qden] in T.
    rewrite Z.opp_involutive in T.
    split; [ lia | ].
    destruct (Z_le_gt_dec 0 (a - b + 1)) as [H|H].
    + rewrite (pz_nonpos (- (a - b + 1))) by lia.
      rewrite pz_nonneg by lia.
      assert (E : 2 ^ (a + 1) = 2 ^ b * 2 ^ (a - b + 1)).
      { rewrite <- Z.pow_add_r by lia. f_equal. lia. }
      assert (0 < 2 ^ (a - b + 1)) by (apply Z.pow_pos_nonneg; lia).
      nia.
    + rewrite (pz_nonpos (a - b + 1)) by lia.
      rewrite pz_nonneg by lia.
      assert (E : 2 ^ b = 2 ^ (a + 1) * 2 ^ (- (a - b + 1))).
      { rewrite <- Z.pow_add_r by lia. f_equal. lia. }
      assert (0 < 2 ^ (- (a - b + 1))) by (apply Z.pow_pos_nonneg; lia).
      nia.
  - assert (T' : ~ (inject_Z 1 <= scale2 x (- (a - b)))%Q).
    { intros C. apply Qle_bool_iff in C. congruence. }
    unfold Qle in T'. rewrite scale2_num, scale2_den in T'. cbn [inject_Z Qnum Qden] in T'.
    rewrite Z.opp_involutive in T'.
    replace (a - b - 1 + 1) with (a - b) by lia.
    split; [ | lia ].
    destruct (Z_le_gt_dec 0 (a - b - 1)) as [H|H].
    + rewrite (pz_nonpos (- (a - b - 1))) by lia.
      rewrite pz_nonneg by lia.
      assert (E : 2 ^ a = 2 ^ (b + 1) * 2 ^ (a - b - 1)).
      { rewrite <- Z.pow_add_r by lia. f_equal. lia. }
      assert (0 < 2 ^ (a - b - 1)) by (apply Z.pow_pos_nonneg; lia).
      nia.
    + rewrite (pz_nonpos (a - b - 1)) by lia.
      rewrite pz_nonneg by lia.
      assert (E : 2 ^ (b + 1) = 2 ^ a * 2 ^ (- (a - b - 1))).
      { rewrite <- Z.pow_add_r by lia. f_equal. lia. }
      assert (0 < 2 ^ (- (a - b - 1))) by (apply Z.pow_pos_nonneg; lia).
      nia.
Qed.

(** The rounding to an integer lies between the integers around. *)
Lemma round_half_even_ge x lo :
  lo * Zpos (Qden x) <= Qnum x -> lo <= round_half_even x.
Proof.
  intros H. unfold round_half_even.
  assert (lo <= Qnum x / Zpos (Qden x)) by (apply Z.div_le_lower_bound; lia).
  destruct (2 * (Qnum x mod Zpos (Qden x)) ?= Zpos (Qden x));
    [ destruct (Z.even _) | | ]; lia.
Qed.

Lemma round_half_even_le x hi :
  Qnum x <= hi * Zpos (Qden x) -> round_half_even x <= hi.
Proof.
  intros H. unfold round_half_even.
  pose proof (Z.div_mod (Qnum x) (Zpos (Qden x)) ltac:(lia)) as E.
  pose proof (Z.mod_pos_bound (Qnum x) (Zpos (Qden x)) ltac:(lia)) as B.
  set (f := Qnum x / Zpos (Qden x)) in *.
  set (r := Qnum x mod Zpos (Qden x)) in *.
  assert (Hd : 0 < Zpos (Qden x)) by lia.
  set (d := Zpos (Qden x)) in *. clearbody f r d.
  assert (Hf : f <= hi) by nia.
  destruct (Z.compare_spec (2 * r) d) as [C|C|C];
    [ destruct (Z.even f) | | ]; try lia.
  all: destruct (Z.eq_dec f hi) as [Heq|Hne]; [ subst f; nia | lia ].
Qed.

Lemma scale2_le_num a b e : a <= b -> (scale2 (inject_Z a) e <= scale2 (inject_Z b) e)%Q.
Proof.
  intros H. unfold Qle. rewrite !scale2_num, !scale2_den. cbn [inject_Z Qnum Qden].
  pose proof (pz_pos e). pose proof (pz_pos (- e)).
  apply Z.mul_le_mono_nonneg_r; [ lia | ].
  apply Z.mul_le_mono_nonneg_r; lia.
Qed.

(** Rounding keeps a value between two points of the grid of its binade. *)
Lemma round_pos_between x lo hi :
  0 < Qnum x ->
  (scale2 (inject_Z lo) (Z.max (ilog2 x - 52) (-1074)) <= x)%Q ->
  (x <= scale2 (inject_Z hi) (Z.max (ilog2 x - 52) (-1074)))%Q ->
  (scale2 (inject_Z hi) (Z.max (ilog2 x - 52) (-1074)) < inject_Z (2 ^ 1024))%Q ->
  exists m,
    round_pos x = FFin (Qred (scale2 (inject_Z m) (Z.max (ilog2 x - 52) (-1074))))
    /\ lo <= m <= hi.
Proof.
  intros Hn Hlo Hhi Hov. unfold round_pos.
  set (e := Z.max (ilog2 x - 52) (-1074)) in *.
  set (m := round_half_even (scale2 x (- e))).
  assert (Hm : lo <= m <= hi).
  { unfold Qle in Hlo, Hhi. rewrite !scale2_num, !scale2_den in *.
    cbn [inject_Z Qnum Qden] in *.
    split.
    - apply round_half_even_ge. rewrite scale2_num, scale2_den.
      rewrite Z.opp_involutive. lia.
    - apply round_half_even_le. rewrite scale2_num, scale2_den.
      rewrite Z.opp_involutive. lia. }
  exists m. split; [ | exact Hm ].
  destruct (Qle_bool (inject_Z (2 ^ 1024)) (scale2 (inject_Z m) e)) eqn:T.
  - exfalso. apply Qle_bool_iff in T.
    apply (Qlt_irrefl (inject_Z (2 ^ 1024))).
    eapply Qle_lt_trans; [ exact T | ].
    eapply Qle_lt_trans; [ apply scale2_le_num; apply Hm | exact Hov ].
  - reflexivity.
Qed.

Lemma Qnum_nonneg q : (0 <= q)%Q <-> 0 <= Qnum q.
Proof. unfold Qle. cbn. lia. Qed.

Lemma round_pos_nonneg x : 0 < Qnum x -> nonneg (round_pos x).
Proof.
  intros Hn. unfold round_pos.
  match goal with |- context [Qle_bool ?a ?b] => destruct (Qle_bool a b) end.
  - reflexivity.
  - cbn. rewrite Qred_correct. apply Qnum_nonneg. rewrite scale2_num.
    cbn [inject_Z Qnum].
    pose proof (pz_pos (Z.max (ilog2 x - 52) (-1074))).
    assert (0 <= round_half_even (scale2 x (- Z.max (ilog2 x - 52) (-1074)))).
    { apply round_half_even_ge. rewrite scale2_num.
      pose proof (pz_pos (- Z.max (ilog2 x - 52) (-1074))). nia. }
    nia.
Qed.

Lemma round64_nonneg x : (0 <= x)%Q -> nonneg (round64 x).
Proof.
  intros H. rewrite <- (Qred_correct x) in H. apply Qnum_nonneg in H.
  unfold round64. cbv zeta. generalize dependent (Qred x). clear x. intros x H.
  destruct (Qnum x) eqn:E.
  - cbn. apply Qle_refl.
  - apply round_pos_nonneg. rewrite E. lia.
  - lia.
Qed.

Lemma fadd_nonneg a b : nonneg a -> nonneg b -> nonneg (fadd a b).
Proof.
  destruct a as [|s|x], b as [|t|y]; cbn; intros Ha Hb; try contradiction;
    subst; try reflexivity.
  apply round64_nonneg.
  replace 0%Q with (0 + 0)%Q by reflexivity. apply Qplus_le_compat; assumption.
Qed.

Lemma sum_nonneg l : Forall nonneg l -> nonneg (fsum l).
Proof.
  unfold fsum.
  assert (G : forall acc, nonneg acc -> Forall nonneg l -> nonneg (fold_left fadd l acc)).
  { induction l as [|a l IH]; intros acc Ha Hl; cbn.
    - exact Ha.
    - inversion Hl; subst. apply IH; [ apply fadd_nonneg | ]; assumption. }
  apply G. cbn. apply Qle_refl.
Qed.

Lemma is_digit_range c : is_digit c = true -> 48 <= Z.of_N c <= 57.
Proof.
  unfold is_digit, in_range, char. intros H. apply andb_true_iff in H as [A B].
  apply N.leb_le in A, B. lia.
Qed.

Lemma span_digits_spec s d r :
  span_digits s = (d, r) -> s = d ++ r /\ Forall (fun c => is_digit c = true) d.
Proof.
  revert d r. induction s as [|c t IH]; intros d r H; cbn in H.
  - inversion H; subst. split; [ reflexivity | constructor ].
  - destruct (is_digit c) eqn:D.
    + destruct (span_digits t) as [d' r'] eqn:E. inversion H; subst.
      destruct (IH d' r eq_refl) as [-> F]. split; [ reflexivity | ].
      constructor; assumption.
    + inversion H; subst. split; [ reflexivity | constructor ].
Qed.

Lemma Z_of_digits_nonneg ds :
  Forall (fun c => is_digit c = true) ds -> 0 <= Z_of_digits ds.
Proof.
  unfold Z_of_digits.
  assert (G : forall acc, 0 <= acc -> Forall (fun c => is_digit c = true) ds ->
     0 <= fold_left (fun acc c => 10 * acc + (Z.of_N c - 48)) ds acc).
  { induction ds as [|c t IH]; intros acc Ha F; cbn [fold_left].
    - exact Ha.
    - inversion F as [|c' t' Hc Ht]; subst. apply IH; [ | assumption ].
      apply is_digit_range in Hc. lia. }
  apply G. lia.
Qed.

Lemma float_of_str_nonneg s f : float_of_str s = Some f -> nonneg f.
Proof.
  unfold float_of_str. intros H.
  destruct (span_digits s) as [ip r] eqn:E1.
  apply span_digits_spec in E1 as [_ F1].
  destruct ip as [|i0 ip]; [ discriminate | ].
  destruct r as [|c r].
  - inversion H; subst. apply round64_nonneg. apply Qnum_nonneg. cbn [inject_Z Qnum].
    apply Z_of_digits_nonneg; assumption.
  - destruct (eqc c 46%N); [ | discriminate ].
    destruct (span_digits r) as [fp r'] eqn:E2.
    apply span_digits_spec in E2 as [_ F2].
    destruct fp as [|f0 fp]; [ discriminate | ].
    destruct r'; [ | discriminate ].
    inversion H; subst. apply round64_nonneg. apply Qnum_nonneg. cbn [Qnum].
    apply Z_of_digits_nonneg.
    change (Forall (fun c => is_digit c = true) ((i0 :: ip) ++ f0 :: fp)).
    apply Forall_app. split; assumption.
Qed.

Lemma fmul_nonneg a y : nonneg a -> (0 < y)%Q -> nonneg (fmul a (FFin y)).
Proof.
  intros Ha Hy. destruct a as [|s|x]; cbn in *; try contradiction.
  - subst. unfold is_zero, is_neg.
    assert (0 < Qnum y) by (unfold Qlt in Hy; cbn in Hy; lia).
    destruct (Z.eqb_spec (Qnum y) 0); [ lia | ].
    destruct (Z.ltb_spec (Qnum y) 0); [ lia | ]. reflexivity.
  - apply round64_nonneg. apply Qmult_le_0_compat; [ assumption | ].
    apply Qlt_le_weak; assumption.
Qed.

Lemma fdiv_nonneg a y c :
  nonneg a -> (0 <= y)%Q -> fdiv a (FFin y) = Some c -> nonneg c.
Proof.
  intros Ha Hy. apply Qnum_nonneg in Hy.
  destruct a as [|s|x]; cbn in Ha; try contradiction;
    unfold fdiv, is_zero, is_neg;
    destruct (Z.eqb_spec (Qnum y) 0); try (intros E; discriminate E);
    destruct (Z.ltb_spec (Qnum y) 0); try lia;
    intros E; inversion E; subst; cbn.
  - reflexivity.
  - assert (Hy' : (0 < y)%Q) by (unfold Qlt; cbn; lia).
    apply round64_nonneg. unfold Qdiv.
    apply Qmult_le_0_compat; [ assumption | ].
    apply Qinv_le_0_compat. apply Qlt_le_weak; assumption.
Qed.

Lemma float_of_int_nonneg n f :
  0 <= n -> float_of_int n = Some f -> exists y, f = FFin y /\ (0 <= y)%Q.
Proof.
  intros Hn. unfold float_of_int, of_Z.
  assert (N : nonneg (round64 (inject_Z n))).
  { apply round64_nonneg. apply Qnum_nonneg. exact Hn. }
  destruct (round64 (inject_Z n)) as [|s|y]; try discriminate.
  intros E. inversion E; subst. exists y. split; [ reflexivity | exact N ].
Qed.

Lemma ilog2_range y (lo hi : Z) (a b : Z) :
  (inject_Z lo <= y)%Q -> (y <= inject_Z hi)%Q ->
  0 <= a -> 2 ^ a <= lo -> 0 <= b -> hi < 2 ^ (b + 1) ->
  a <= ilog2 y <= b.
Proof.
  intros Hlo Hhi Ha Hpa Hb Hpb.
  unfold Qle in Hlo, Hhi. cbn [inject_Z Qnum Qden] in Hlo, Hhi.
  assert (Hlo0 : 0 < lo) by (pose proof (Z.pow_pos_nonneg 2 a); lia).
  assert (Hn : 0 < Qnum y) by nia.
  destruct (ilog2_spec y Hn) as [S1 S2].
  set (L := ilog2 y) in *. set (n := Qnum y) in *.
  assert (Hd : 0 < Zpos (Qden y)) by lia.
  set (d := Zpos (Qden y)) in *. clearbody L n d.
  split.
  - destruct (Z_le_gt_dec a L) as [|C]; [ assumption | exfalso ].
    assert (P1 : pz (L + 1) <= 2 ^ a).
    { rewrite <- (pz_nonneg a) by lia. apply pz_le. lia. }
    pose proof (pz_pos (- (L + 1))) as P2. pose proof (pz_pos (L + 1)) as P3.
    assert (n <= n * pz (- (L + 1))) by nia.
    assert (d * pz (L + 1) <= d * 2 ^ a) by nia.
    nia.
  - destruct (Z_le_gt_dec L b) as [|C]; [ assumption | exfalso ].
    assert (P1 : 2 ^ (b + 1) <= pz L).
    { rewrite <- (pz_nonneg (b + 1)) by lia. apply pz_le. lia. }
    assert (P2 : pz (- L) = 1) by (apply pz_nonpos; lia).
    rewrite P2 in S1.
    assert (d * 2 ^ (b + 1) <= d * pz L) by nia.
    nia.
Qed.

Lemma round64_salary_range y :
  (inject_Z 14000 <= y)%Q -> (y <= inject_Z 200000)%Q ->
  exists v, round64 y = FFin v /\ (inject_Z 14000 <= v)%Q /\ (v <= inject_Z 200000)%Q.
Proof.
  intros Hlo Hhi. unfold round64. cbv zeta.
  rewrite <- (Qred_correct y) in Hlo, Hhi.
  generalize dependent (Qred y). clear y. intros y Hlo Hhi.
  assert (HL : 13 <= ilog2 y <= 17).
  { apply (ilog2_range y 14000 200000); try assumption; try lia;
      vm_compute; congruence. }
  assert (Hn : 0 < Qnum y).
  { unfold Qle in Hlo. cbn [inject_Z Qnum Qden] in Hlo. lia. }
  destruct (Qnum y) as [|p|p] eqn:En; try lia.
  assert (Hn' : 0 < Qnum y) by lia.
  pose proof (round_pos_between y (14000 * 2 ^ (52 - ilog2 y))
                (200000 * 2 ^ (52 - ilog2 y)) Hn') as R.
  assert (E : ilog2 y = 13 \/ ilog2 y = 14 \/ ilog2 y = 15 \/ ilog2 y = 16
              \/ ilog2 y = 17) by lia.
  unfold Qle in Hlo, Hhi. cbn [inject_Z Qnum Qden] in Hlo, Hhi.
  destruct E as [E|[E|[E|[E|E]]]]; rewrite E in R;
    (destruct R as (m & Rm & Hm);
     [ unfold Qle; cbn; lia | unfold Qle; cbn; lia | reflexivity | ]);
    (exists (Qred (scale2 (inject_Z m) (Z.max (ilog2 y - 52) (-1074))));
     rewrite E; split; [ exact Rm | ];
     split; rewrite Qred_correct; unfold Qle; cbn; lia).
Qed.

Lemma Qred_idem q : Qred (Qred q) = Qred q.
Proof. apply Qred_complete. apply Qred_correct. Qed.

(** The rounding depends on the value of the rational only. *)
Lemma round64_Qeq x y : (x == y)%Q -> round64 x = round64 y.
Proof. intros H. unfold round64. rewrite (Qred_complete x y H). reflexivity. Qed.

Lemma round_pos_canon x q : round_pos x = FFin q -> Qred q = q.
Proof.
  unfold round_pos.
  match goal with |- context [Qle_bool ?a ?b] => destruct (Qle_bool a b) end;
    intros H; try discriminate H.
  match type of H with FFin ?r = _ => assert (Hq : q = r) by congruence end.
  rewrite Hq. apply Qred_idem.
Qed.

(** A finite result of the rounding is in lowest terms. *)
Lemma round64_canon x q : round64 x = FFin q -> Qred q = q.
Proof.
  unfold round64. cbv zeta. destruct (Qnum (Qred x)).
  - intros H. assert (Hq : q = 0%Q) by congruence. rewrite Hq. reflexivity.
  - apply round_pos_canon.
  - destruct (round_pos (- Qred x)) as [|s|r] eqn:E; cbn [fneg]; intros H;
      try discriminate H.
    assert (Hq : q = Qred (- r)) by congruence. rewrite Hq. apply Qred_idem.
Qed.

Lemma round_pos_eq x q :
  round_pos x = FFin q ->
  q = Qred (scale2 (inject_Z (round_half_even
                                (scale2 x (- Z.max (ilog2 x - 52) (-1074)))))
                   (Z.max (ilog2 x - 52) (-1074))).
Proof.
  unfold round_pos.
  match goal with |- context [Qle_bool ?a ?b] => destruct (Qle_bool a b) end;
    intros H; try discriminate H.
  congruence.
Qed.

(** The rounding to an integer is at most one half away. *)
Lemma round_half_even_err x :
  - Zpos (Qden x) <= 2 * (Qnum x - round_half_even x * Zpos (Qden x)) <= Zpos (Qden x).
Proof.
  unfold round_half_even.
  pose proof (Z.div_mod (Qnum x) (Zpos (Qden x)) ltac:(lia)) as E.
  pose proof (Z.mod_pos_bound (Qnum x) (Zpos (Qden x)) ltac:(lia)) as B.
  set (f := Qnum x / Zpos (Qden x)) in *.
  set (r := Qnum x mod Zpos (Qden x)) in *.
  assert (Hd : 0 < Zpos (Qden x)) by lia.
  set (d := Zpos (Qden x)) in *. clearbody f r d.
  destruct (Z.compare_spec (2 * r) d) as [C|C|C];
    [ destruct (Z.even f) | | ]; nia.
Qed.

(** An integer less than one half away is the rounding. *)
Lemma round_half_even_unique x k :
  - Zpos (Qden x) < 2 * (Qnum x - k * Zpos (Qden x)) < Zpos (Qden x) ->
  round_half_even x = k.
Proof.
  intros H. pose proof (round_half_even_err x) as E.
  assert (Hd : 0 < Zpos (Qden x)) by lia.
  set (d := Zpos (Qden x)) in *. set (m := round_half_even x) in *.
  set (n := Qnum x) in *. clearbody d m n.
  destruct (Z.lt_trichotomy m k) as [C|[C|C]]; [ nia | exact C | nia ].
Qed.

Lemma pz_succ a : pz (a + 1) * pz (- a) = 2 * pz a * pz (- (a + 1)).
Proof.
  destruct (Z_le_gt_dec 0 a).
  - rewrite (pz_nonpos (- a)), (pz_nonpos (- (a + 1))) by lia.
    rewrite !pz_nonneg by lia. rewrite Z.pow_add_r by lia. lia.
  - rewrite (pz_nonpos a), (pz_nonpos (a + 1)) by lia.
    rewrite !pz_nonneg by lia.
    replace (- a) with (- (a + 1) + 1) by lia.
    rewrite Z.pow_add_r by lia. lia.
Qed.

Lemma le2_pred a y : 0 < Qnum y -> le2 (a + 1) y -> le2 a y.
Proof.
  unfold le2. intros Hn H.
  pose proof (pz_succ a) as S. pose proof (pz_pos a). pose proof (pz_pos (- a)).
  pose proof (pz_pos (a + 1)). pose proof (pz_pos (- (a + 1))).
  assert (Hd : 0 < Zpos (Qden y)) by lia.
  set (d := Zpos (Qden y)) in *. set (n := Qnum y) in *.
  set (A := pz a) in *. set (A' := pz (- a)) in *.
  set (B := pz (a + 1)) in *. set (B' := pz (- (a + 1))) in *.
  clearbody d n A A' B B'.
  (* d B <= n B'  and  B A' = 2 A B'  give  d A <= n A' *)
  assert (E : d * B * A' <= n * B' * A') by nia.
  assert (E2 : 2 * (d * A) * B' <= n * A' * B') by nia.
  assert (E3 : 2 * (d * A) <= n * A') by nia.
  nia.
Qed.

Lemma le2_mono a b y : 0 < Qnum y -> a <= b -> le2 b y -> le2 a y.
Proof.
  intros Hn Hab H.
  assert (G : forall k : nat, le2 (a + Z.of_nat k) y -> le2 a y).
  { induction k as [|k IH]; intros Hk.
    - replace (a + Z.of_nat 0) with a in Hk by lia. exact Hk.
    - apply IH. apply le2_pred; [ exact Hn | ].
      replace (a + Z.of_nat k + 1) with (a + Z.of_nat (S k)) by lia. exact Hk. }
  apply (G (Z.to_nat (b - a))). replace (a + Z.of_nat (Z.to_nat (b - a))) with b by lia.
  exact H.
Qed.

(** [ilog2 y] is the only [L] with [2^L <= y < 2^(L+1)]. *)
Lemma ilog2_unique y L :
  0 < Qnum y -> le2 L y -> ~ le2 (L + 1) y -> ilog2 y = L.
Proof.
  intros Hn H1 H2. destruct (ilog2_spec y Hn) as [S1 S2].
  fold (le2 (ilog2 y) y) in S1.
  assert (S2' : ~ le2 (ilog2 y + 1) y) by (unfold le2; lia).
  destruct (Z.lt_trichotomy (ilog2 y) L) as [C|[C|C]]; [ | exact C | ].
  - exfalso. apply S2'. apply (le2_mono _ L); [ exact Hn | lia | exact H1 ].
  - exfalso. apply H2. apply (le2_mono _ (ilog2 y)); [ exact Hn | lia | exact S1 ].
Qed.

Lemma pz_split L : 0 <= L <= 52 -> pz L * pz (52 - L) = 2 ^ 52.
Proof.
  intros H. rewrite !pz_nonneg by lia. rewrite <- Z.pow_add_r by lia.
  f_equal. lia.
Qed.

Lemma pz_double a : 0 <= a -> pz (a + 1) = 2 * pz a.
Proof.
  intros H. rewrite !pz_nonneg by lia. rewrite Z.pow_add_r by lia. lia.
Qed.

(** A float between 1 and 2^46 is its own rounding, and the rounding to
    two places finds again the decimal it was read from. *)
Lemma round_pos_idem y q :
  0 < Qnum y -> 0 <= ilog2 y <= 45 -> round_pos y = FFin q ->
  round64 q = FFin q
  /\ (forall N, (y == N # 100)%Q -> round_half_even (q * inject_Z 100) = N).
Proof.
  intros Hn HL Hq.
  destruct (ilog2_spec y Hn) as [S1 S2].
  apply round_pos_eq in Hq.
  set (L := ilog2 y) in *.
  replace (Z.max (L - 52) (-1074)) with (L - 52) in Hq by lia.
  replace (- (L - 52)) with (52 - L) in Hq by lia.
  set (m := round_half_even (scale2 y (52 - L))) in *.
  pose proof (pz_split L ltac:(lia)) as HKP.
  pose proof (pz_pos L) as HP. pose proof (pz_pos (52 - L)) as HK.
  assert (HK128 : 128 <= pz (52 - L)).
  { change 128 with (pz 7). apply pz_le. lia. }
  rewrite (pz_nonpos (- L)) in S1 by lia.
  rewrite (pz_nonpos (- (L + 1))) in S2 by lia.
  rewrite (pz_double L) in S2 by lia.
  (* the mantissa *)
  assert (Hm : 2 ^ 52 <= m <= 2 ^ 53).
  { split.
    - apply round_half_even_ge. rewrite scale2_num, scale2_den.
      rewrite (pz_nonpos (- (52 - L))) by lia. rewrite <- HKP. nia.
    - apply round_half_even_le. rewrite scale2_num, scale2_den.
      rewrite (pz_nonpos (- (52 - L))) by lia.
      replace (2 ^ 53) with (2 * 2 ^ 52) by reflexivity. rewrite <- HKP. nia. }
  pose proof (round_half_even_err (scale2 y (52 - L))) as Herr.
  fold m in Herr. rewrite scale2_num, scale2_den in Herr.
  rewrite (pz_nonpos (- (52 - L))) in Herr by lia.
  (* the value *)
  set (qq := scale2 (inject_Z m) (L - 52)) in *.
  assert (Hqq : (q == qq)%Q) by (rewrite Hq; apply Qred_correct).
  assert (Hred : Qred q = q) by (rewrite Hq; apply Qred_idem).
  unfold Qeq in Hqq. unfold qq in Hqq. rewrite scale2_num, scale2_den in Hqq.
  cbn [inject_Z Qnum Qden] in Hqq.
  rewrite (pz_nonpos (L - 52)) in Hqq by lia.
  replace (- (L - 52)) with (52 - L) in Hqq by lia.
  set (K := pz (52 - L)) in *. set (P := pz L) in *.
  set (n := Qnum y) in *. set (a := Qnum q) in *.
  assert (Hd : 0 < Zpos (Qden y)) by lia.
  assert (Hb : 0 < Zpos (Qden q)) by lia.
  set (d := Zpos (Qden y)) in *. set (b := Zpos (Qden q)) in *.
  assert (Hab : a * K = m * b) by lia.
  assert (Ha : 0 < a) by nia.
  assert (T53 : 2 ^ 53 < 2 ^ 1024) by (apply Z.pow_lt_mono_r; lia).
  assert (E53 : 2 ^ 53 = 2 * 2 ^ 52) by reflexivity.
  split.
  - (* idempotence *)
    unfold round64. cbv zeta. rewrite Hred. fold a.
    destruct a as [|pa|pa] eqn:Ea; try lia. rewrite <- Ea in *.
    destruct (Z.eq_dec m (2 ^ 53)) as [Em|Em].
    + (* the mantissa went to the next power of two *)
      assert (HL' : ilog2 q = L + 1).
      { apply ilog2_unique; [ fold a; lia | | ].
        - unfold le2. fold a b. rewrite (pz_nonpos (- (L + 1))) by lia.
          rewrite (pz_double L) by lia. fold P. nia.
        - unfold le2. fold a b. rewrite (pz_nonpos (- (L + 1 + 1))) by lia.
          rewrite (pz_double (L + 1)), (pz_double L) by lia. fold P. nia. }
      destruct (round_pos_between q (2 ^ 52) (2 ^ 52)) as (m' & Rm & Hm').
      * fold a. lia.
      * rewrite HL'. replace (Z.max (L + 1 - 52) (-1074)) with (L - 51) by lia.
        unfold Qle. rewrite scale2_num, scale2_den. cbn [inject_Z Qnum Qden].
        fold a b. rewrite (pz_nonpos (L - 51)) by lia.
        assert (2 * pz (- (L - 51)) = K).
        { unfold K. replace (52 - L) with (- (L - 51) + 1) by lia.
          rewrite pz_double by lia. reflexivity. }
        nia.
      * rewrite HL'. replace (Z.max (L + 1 - 52) (-1074)) with (L - 51) by lia.
        unfold Qle. rewrite scale2_num, scale2_den. cbn [inject_Z Qnum Qden].
        fold a b. rewrite (pz_nonpos (L - 51)) by lia.
        assert (2 * pz (- (L - 51)) = K).
        { unfold K. replace (52 - L) with (- (L - 51) + 1) by lia.
          rewrite pz_double by lia. reflexivity. }
        nia.
      * rewrite HL'. replace (Z.max (L + 1 - 52) (-1074)) with (L - 51) by lia.
        unfold Qlt. rewrite scale2_num, scale2_den. cbn [inject_Z Qnum Qden].
        rewrite (pz_nonpos (L - 51)) by lia.
        pose proof (pz_pos (- (L - 51))). nia.
      * rewrite Rm. f_equal. assert (m' = 2 ^ 52) by lia. subst m'.
        rewrite HL'. replace (Z.max (L + 1 - 52) (-1074)) with (L - 51) by lia.
        rewrite Hq. apply Qred_complete. unfold qq, Qeq.
        rewrite !scale2_num, !scale2_den. cbn [inject_Z Qnum Qden].
        rewrite (pz_nonpos (L - 51)), (pz_nonpos (L - 52)) by lia.
        replace (- (L - 52)) with (52 - L) by lia. fold K.
        assert (2 * pz (- (L - 51)) = K).
        { unfold K. replace (52 - L) with (- (L - 51) + 1) by lia.
          rewrite pz_double by lia. reflexivity. }
        lia.
    + assert (HL' : ilog2 q = L).
      { apply ilog2_unique; [ fold a; lia | | ].
        - unfold le2. fold a b. rewrite (pz_nonpos (- L)) by lia. fold P. nia.
        - unfold le2. fold a b. rewrite (pz_nonpos (- (L + 1))) by lia.
          rewrite (pz_double L) by lia. fold P. nia. }
      destruct (round_pos_between q m m) as (m' & Rm & Hm').
      * fold a. lia.
      * rewrite HL'. replace (Z.max (L - 52) (-1074)) with (L - 52) by lia.
        unfold Qle. rewrite scale2_num, scale2_den. cbn [inject_Z Qnum Qden].
        fold a b. rewrite (pz_nonpos (L - 52)) by lia.
        replace (- (L - 52)) with (52 - L) by lia. fold K. lia.
      * rewrite HL'. replace (Z.max (L - 52) (-1074)) with (L - 52) by lia.
        unfold Qle. rewrite scale2_num, scale2_den. cbn [inject_Z Qnum Qden].
        fold a b. rewrite (pz_nonpos (L - 52)) by lia.
        replace (- (L - 52)) with (52 - L) by lia. fold K. lia.
      * rewrite HL'. replace (Z.max (L - 52) (-1074)) with (L - 52) by lia.
        unfold Qlt. rewrite scale2_num, scale2_den. cbn [inject_Z Qnum Qden].
        rewrite (pz_nonpos (L - 52)) by lia.
        replace (- (L - 52)) with (52 - L) by lia. fold K. nia.
      * rewrite Rm. f_equal. assert (m' = m) by lia. subst m'.
        rewrite HL'. replace (Z.max (L - 52) (-1074)) with (L - 52) by lia.
        symmetry. exact Hq.
  - (* the decimal *)
    intros N HN. unfold Qeq in HN. cbn [Qnum Qden] in HN. fold n d in HN.
    apply round_half_even_unique.
    cbn [Qmult Qnum Qden inject_Z]. rewrite Pos.mul_1_r. fold a b.
    assert (E1 : - (100 * d) <= 2 * d * (N * K - 100 * m) <= 100 * d) by nia.
    assert (E2 : - 100 <= 2 * (N * K - 100 * m) <= 100) by nia.
    assert (E3 : 2 * (a * 100 - N * b) * K = 2 * b * (100 * m - N * K)) by nia.
    nia.
Qed.

Lemma map_result_Forall {A B : Type} (f : A -> result B) (P : B -> Prop) l bs :
  (forall a b, f a = Ok b -> P b) ->
  map_result f l = Ok bs -> Forall P bs.
Proof.
  intros Hf. revert bs. induction l as [|a t IH]; intros bs H; cbn in H.
  - inversion H; subst. constructor.
  - destruct (f a) as [b|] eqn:Ea; cbn in H; [ | discriminate ].
    destruct (map_result f t) as [bs'|]; cbn in H; [ | discriminate ].
    inversion H; subst. constructor; [ eapply Hf; eassumption | apply IH; reflexivity ].
Qed.

Lemma multiplicateur_pos clean valeur :
  exists y, multiplicateur clean valeur = FFin y /\ (0 < y)%Q.
Proof.
  unfold multiplicateur.
  repeat match goal with
         | |- context [if ?b then _ else _] => destruct b
         end;
    (eexists; split; [ vm_compute; reflexivity | reflexivity ]).
Qed.

Lemma round_ndigits_salary_range q :
  (inject_Z 14000 <= q)%Q -> (q <= inject_Z 200000)%Q ->
  exists v, round_ndigits (FFin q) 2 = FFin v
            /\ (inject_Z 14000 <= v)%Q /\ (v <= inject_Z 200000)%Q.
Proof.
  intros Hlo Hhi. unfold round_ndigits.
  change (pow10 2) with 100%positive.
  apply round64_salary_range.
  - unfold Qle. cbn [inject_Z Qnum Qden].
    assert (1400000 <= round_half_even (q * inject_Z 100)).
    { apply round_half_even_ge. unfold Qle in Hlo. cbn in Hlo |- *. lia. }
    lia.
  - unfold Qle. cbn [inject_Z Qnum Qden].
    assert (round_half_even (q * inject_Z 100) <= 20000000).
    { apply round_half_even_le. unfold Qle in Hhi. cbn in Hhi |- *. lia. }
    lia.
Qed.

(** What passes the filter of step 5. *)
Lemma filter_salary x :
  nonneg x ->
  (flt x (of_Z 14000) || flt (of_Z 200000) x)%bool = false ->
  exists q, x = FFin q /\ (inject_Z 14000 <= q)%Q /\ (q <= inject_Z 200000)%Q.
Proof.
  intros Hx H. apply orb_false_iff in H as [H1 H2].
  change (of_Z 14000) with (FFin (inject_Z 14000)) in H1.
  change (of_Z 200000) with (FFin (inject_Z 200000)) in H2.
  destruct x as [|s|q]; cbn in Hx; try contradiction.
  - subst s. cbn in H2. discriminate.
  - exists q. split; [ reflexivity | ]. cbn in H1, H2.
    apply negb_false_iff in H1, H2. apply Qle_bool_iff in H1, H2. split; assumption.
Qed.

(** What [nettoyer_salaire] returns is the rounding to two places of a
    value within the bounds. *)
Lemma nettoyer_salaire_forme texte v :
  nettoyer_salaire texte = Ok (Some v) ->
  exists x, (inject_Z 14000 <= x)%Q /\ (x <= inject_Z 200000)%Q
            /\ v = round_ndigits (FFin x) 2.
Proof.
  unfold nettoyer_salaire. intros H.
  destruct texte as [texte|]; [ | discriminate ].
  destruct (contains _ (lower texte)); [ discriminate | ].
  destruct (findall re_nombre (clean_txt texte)) as [|n0 ns] eqn:En; [ discriminate | ].
  destruct (map_result _ (n0 :: ns)) as [floats|] eqn:Ef; cbn [bind] in H; [ | discriminate ].
  destruct (float_of_int _) as [len|] eqn:El; cbn [bind of_option] in H; [ | discriminate ].
  destruct (fdiv (fsum floats) len) as [valeur|] eqn:Ev; cbn [bind of_option] in H;
    [ | discriminate ].
  match type of H with
  | (if ?b then _ else _) = _ => destruct b eqn:Eb; [ discriminate | ]
  end.
  inversion H; subst v; clear H.
  assert (Hfl : Forall nonneg floats).
  { eapply map_result_Forall; [ | exact Ef ].
    intros a b Hab. cbn in Hab. destruct (float_of_str a) eqn:Ea; inversion Hab; subst.
    eapply float_of_str_nonneg; eassumption. }
  apply float_of_int_nonneg in El as (y & -> & Hy); [ | lia ].
  assert (Hval : nonneg valeur).
  { eapply fdiv_nonneg; [ apply sum_nonneg; exact Hfl | exact Hy | exact Ev ]. }
  destruct (multiplicateur_pos (clean_txt texte) valeur) as (mu & Emu & Hmu).
  rewrite Emu in *.
  assert (Hsal : nonneg (fmul valeur (FFin mu))) by (apply fmul_nonneg; assumption).
  destruct (filter_salary _ Hsal Eb) as (q & Eq & Hlo & Hhi).
  exists q. rewrite Eq. repeat split; assumption.
Qed.

(** The rounding to two places of a value within the bounds: the float
    nearest to a decimal [N / 100]. *)
Lemma round_ndigits_forme x :
  (inject_Z 14000 <= x)%Q -> (x <= inject_Z 200000)%Q ->
  exists N, 1400000 <= N <= 20000000
            /\ round_ndigits (FFin x) 2 = round64 (N # 100).
Proof.
  intros Hlo Hhi. exists (round_half_even (x * inject_Z 100)). split.
  - split.
    + apply round_half_even_ge. unfold Qle in Hlo. cbn in Hlo |- *. lia.
    + apply round_half_even_le. unfold Qle in Hhi. cbn in Hhi |- *. lia.
  - reflexivity.
Qed.

(** The float of a salary is within the bounds and is its own rounding;
    its rounding to two places finds the decimal it comes from, and so
    gives the float again. *)
Lemma salaire_stable N q :
  1400000 <= N <= 20000000 -> round64 (N # 100) = FFin q ->
  (inject_Z 14000 <= q)%Q /\ (q <= inject_Z 200000)%Q
  /\ round64 q = FFin q
  /\ round_half_even (q * inject_Z 100) = N
  /\ round_ndigits (FFin q) 2 = FFin q.
Proof.
  intros HN Hq.
  assert (Hlo : (inject_Z 14000 <= N # 100)%Q) by (unfold Qle; cbn; lia).
  assert (Hhi : (N # 100 <= inject_Z 200000)%Q) by (unfold Qle; cbn; lia).
  destruct (round64_salary_range (N # 100) Hlo Hhi) as (v & Ev & Vlo & Vhi).
  assert (v = q) by congruence. subst v.
  split; [ exact Vlo | ]. split; [ exact Vhi | ].
  revert Hq. unfold round64 at 1. cbv zeta.
  pose proof (Qred_correct (N # 100)) as Hred.
  rewrite <- Hred in Hlo, Hhi.
  set (y := Qred (N # 100)) in *.
  assert (Hn : 0 < Qnum y).
  { unfold Qle in Hlo. cbn [inject_Z Qnum Qden] in Hlo. lia. }
  destruct (Qnum y) as [|p|p] eqn:En; try lia.
  intros Hq.
  assert (HL : 13 <= ilog2 y <= 17).
  { apply (ilog2_range y 14000 200000); try assumption; try lia;
      vm_compute; congruence. }
  destruct (round_pos_idem y q ltac:(lia) ltac:(lia) Hq) as [Hid Hdec].
  split; [ exact Hid | ]. split; [ exact (Hdec N Hred) | ].
  unfold round_ndigits. change (pow10 2) with 100%positive.
  change (Zpos 100) with 100.
  rewrite (Hdec N Hred). exact Ev.
Qed.


(** C1.  Whatever the text, a salary that [nettoyer_salaire] returns lies
    between 14000 and 200000, both bounds included: the source tests the
    annual value against these two constants and rounds it afterwards,
    and the rounding to two places keeps a value within two bounds that
    are themselves floats with at most two places. *)
Theorem nettoyer_salaire_bounds texte v :
  nettoyer_salaire texte = Ok (Some v) ->
  fle (of_Z 14000) v = true /\ fle v (of_Z 200000) = true.
Proof.
  intros H.
  destruct (nettoyer_salaire_forme texte v H) as (x & Hlo & Hhi & ->).
  destruct (round_ndigits_salary_range x Hlo Hhi) as (r & Er & Rlo & Rhi).
  rewrite Er.
  change (of_Z 14000) with (FFin (inject_Z 14000)).
  change (of_Z 200000) with (FFin (inject_Z 200000)).
  cbn. split; apply Qle_bool_iff; assumption.
Qed.

End FloatFacts.

(* ================================================================== *)
(** * The rounding against the floats of the Standard Library *)
(* ================================================================== *)

(** [SpecFloat] of the Standard Library specifies the binary64
    operations on mantissas and exponents.  The operations of this
    development, on the values, give the same floats: on the numbers of
    the source, at a tie, at the overflow and below the least normal
    float. *)

Section FloatCheck.

Local Open Scope Z_scope.

Example round64_div :
  fdiv (of_Z 15167) (of_Z 100)
  = Some (of_spec (SFdiv 53 1024 (spec_of_Z 15167) (spec_of_Z 100)))
  /\ fdiv (of_Z 1) (of_Z 3)
     = Some (of_spec (SFdiv 53 1024 (spec_of_Z 1) (spec_of_Z 3)))
  /\ fdiv (of_Z 2184048) (of_Z 100)
     = Some (of_spec (SFdiv 53 1024 (spec_of_Z 2184048) (spec_of_Z 100)))
  /\ fdiv (of_Z 7) (of_Z (2 ^ 80))
     = Some (of_spec (SFdiv 53 1024 (spec_of_Z 7) (spec_of_Z (2 ^ 80)))).
Proof. repeat split; vm_compute; reflexivity. Qed.

Example round64_mul :
  fmul (of_dec 15167 2) (of_Z 12)
  = of_spec (SFmul 53 1024 (SFdiv 53 1024 (spec_of_Z 15167) (spec_of_Z 100))
               (spec_of_Z 12))
  /\ fmul (of_dec 1 1) (of_dec 1 1)
     = of_spec (SFmul 53 1024 (SFdiv 53 1024 (spec_of_Z 1) (spec_of_Z 10))
                  (SFdiv 53 1024 (spec_of_Z 1) (spec_of_Z 10)))
  /\ fmul (of_Z (2 ^ 1000)) (of_Z (2 ^ 24))
     = of_spec (SFmul 53 1024 (spec_of_Z (2 ^ 1000)) (spec_of_Z (2 ^ 24)))
  /\ fmul (of_Z (2 ^ 1000)) (of_Z (2 ^ 24)) = FInf false.
Proof. repeat split; vm_compute; reflexivity. Qed.

(** Below 2^-1022 the floats are the multiples of 2^-1074: 5 * 2^-1076
    goes to 2^-1074 and the tie 6 * 2^-1076 to the even 2 * 2^-1074. *)
Example round64_subnormal :
  round64 (5 # 2 ^ 1076) = FFin (1 # 2 ^ 1074)
  /\ round64 (6 # 2 ^ 1076) = FFin (1 # 2 ^ 1073)
  /\ round64 (5 # 2 ^ 1076)
     = of_spec (SFmul 53 1024
                  (SFdiv 53 1024 (spec_of_Z 1) (spec_of_Z (2 ^ 1000)))
                  (SFdiv 53 1024 (spec_of_Z 5) (spec_of_Z (2 ^ 76))))
  /\ round64 (6 # 2 ^ 1076)
     = of_spec (SFmul 53 1024
                  (SFdiv 53 1024 (spec_of_Z 1) (spec_of_Z (2 ^ 1000)))
                  (SFdiv 53 1024 (spec_of_Z 6) (spec_of_Z (2 ^ 76)))).
Proof. repeat split; vm_compute; reflexivity. Qed.

Example round64_add :
  fadd (of_Z (2 ^ 53)) (of_Z 1)
  = of_spec (SFadd 53 1024 (spec_of_Z (2 ^ 53)) (spec_of_Z 1))
  /\ fadd (of_Z (2 ^ 53 + 2)) (of_Z 1)
     = of_spec (SFadd 53 1024 (spec_of_Z (2 ^ 53 + 2)) (spec_of_Z 1))
  /\ fadd (of_dec 1 1) (of_dec 2 1)
     = of_spec (SFadd 53 1024 (SFdiv 53 1024 (spec_of_Z 1) (spec_of_Z 10))
                  (SFdiv 53 1024 (spec_of_Z 2) (spec_of_Z 10)))
  /\ of_Z (2 ^ 70 + 1) = of_spec (spec_of_Z (2 ^ 70 + 1)).
Proof. repeat split; vm_compute; reflexivity. Qed.

End FloatCheck.

(* ================================================================== *)
(** * Facts on the decimal writing *)
(* ================================================================== *)

Section DecimalFacts.

Local Open Scope Z_scope.

Lemma chiffre_spec d :
  0 <= d < 10 -> is_digit (chiffre d) = true /\ Z.of_N (chiffre d) - 48 = d.
Proof.
  intros H. unfold chiffre, is_digit, in_range, char. split.
  - apply andb_true_iff. split; apply N.leb_le; lia.
  - lia.
Qed.

Lemma Z_of_digits_snoc ds c :
  Z_of_digits (ds ++ [c]) = 10 * Z_of_digits ds + (Z.of_N c - 48).
Proof. unfold Z_of_digits. rewrite fold_left_app. reflexivity. Qed.

Lemma Z_of_digits_app a b :
  Z_of_digits (a ++ b) = Z_of_digits a * 10 ^ Z.of_nat (List.length b) + Z_of_digits b.
Proof.
  induction b as [|c b IH] using rev_ind.
  - rewrite app_nil_r. cbn. change (Z_of_digits []) with 0. lia.
  - rewrite app_assoc, !Z_of_digits_snoc, IH, length_app. cbn [List.length].
    replace (Z.of_nat (List.length b + 1)) with (Z.of_nat (List.length b) + 1) by lia.
    rewrite Z.pow_add_r by lia. lia.
Qed.

Lemma digits_go_spec fuel : forall n acc,
  0 <= n < 2 ^ Z.of_nat fuel ->
  exists D, digits_go fuel n acc = D ++ acc /\ est_chiffres D
            /\ Z_of_digits D = n /\ (fuel <> O -> D <> []).
Proof.
  induction fuel as [|fuel IH]; intros n acc Hn.
  - exists []. cbn in *. repeat split; [ constructor | | congruence ].
    change (Z_of_digits []) with 0. lia.
  - cbn [digits_go].
    pose proof (Z.mod_pos_bound n 10 ltac:(lia)) as Hm.
    destruct (chiffre_spec (n mod 10) Hm) as [Hd Hv].
    destruct (Z.ltb_spec n 10) as [Hlt|Hge].
    + exists [chiffre (n mod 10)]. repeat split.
      * constructor; [ exact Hd | constructor ].
      * unfold Z_of_digits. cbn [fold_left]. rewrite Hv.
        rewrite Z.mod_small by lia. lia.
      * discriminate.
    + assert (Hq : 0 <= n / 10 < 2 ^ Z.of_nat fuel).
      { split; [ apply Z.div_pos; lia | ].
        apply Z.div_lt_upper_bound; [ lia | ].
        replace (Z.of_nat (S fuel)) with (Z.of_nat fuel + 1) in Hn by lia.
        rewrite Z.pow_add_r in Hn by lia. lia. }
      destruct (IH (n / 10) (chiffre (n mod 10) :: acc) Hq) as (D & E & F & V & _).
      exists (D ++ [chiffre (n mod 10)]). repeat split.
      * rewrite E, <- app_assoc. reflexivity.
      * apply Forall_app. split; [ exact F | constructor; [ exact Hd | constructor ] ].
      * rewrite Z_of_digits_snoc, V, Hv.
        pose proof (Z.div_mod n 10 ltac:(lia)). lia.
      * intros _ C. apply app_eq_nil in C as [_ C]. discriminate.
Qed.

Lemma digits_of_Z_spec n :
  0 <= n ->
  est_chiffres (digits_of_Z n) /\ Z_of_digits (digits_of_Z n) = n /\ digits_of_Z n <> [].
Proof.
  intros Hn. unfold digits_of_Z.
  destruct (digits_go_spec (S (Z.to_nat (Z.log2 n))) n []) as (D & E & F & V & N).
  - split; [ exact Hn | ].
    destruct (Z.eq_dec n 0) as [->|Hne]; [ reflexivity | ].
    replace (Z.of_nat (S (Z.to_nat (Z.log2 n)))) with (Z.succ (Z.log2 n))
      by (pose proof (Z.log2_nonneg n); lia).
    apply Z.log2_spec. lia.
  - rewrite E, app_nil_r. repeat split; [ exact F | exact V | apply N; discriminate ].
Qed.

Lemma digits_width_spec w : forall n,
  0 <= n ->
  est_chiffres (digits_width w n)
  /\ Z_of_digits (digits_width w n) = n mod 10 ^ Z.of_nat w
  /\ List.length (digits_width w n) = w.
Proof.
  induction w as [|w IH]; intros n Hn.
  - cbn. repeat split; [ constructor | ]. change (Z_of_digits []) with 0.
    rewrite Z.mod_1_r. reflexivity.
  - cbn [digits_width].
    pose proof (Z.mod_pos_bound n 10 ltac:(lia)) as Hm.
    destruct (chiffre_spec (n mod 10) Hm) as [Hd Hv].
    destruct (IH (n / 10) ltac:(apply Z.div_pos; lia)) as (F & V & Len).
    repeat split.
    + apply Forall_app. split; [ exact F | constructor; [ exact Hd | constructor ] ].
    + rewrite Z_of_digits_snoc, V, Hv.
      replace (Z.of_nat (S w)) with (1 + Z.of_nat w) by lia.
      rewrite Z.pow_add_r by lia. change (10 ^ 1) with 10.
      rewrite (Z.rem_mul_r n 10 (10 ^ Z.of_nat w)); [ lia | lia | ].
      apply Z.pow_pos_nonneg; lia.
    + rewrite length_app, Len. cbn. lia.
Qed.

Lemma strip0_spec l :
  exists z, l = strip0 l ++ repeat 48%N z.
Proof.
  induction l as [|c t [z IH]]; cbn [strip0].
  - exists O. reflexivity.
  - destruct (strip0 t) as [|x t'] eqn:E.
    + cbn in IH. unfold eqc. destruct (N.eqb_spec c 48) as [->|Hc].
      * exists (S z). cbn. f_equal. exact IH.
      * exists z. cbn. f_equal. exact IH.
    + exists z. cbn. f_equal. exact IH.
Qed.

Lemma strip0_chiffres l : est_chiffres l -> est_chiffres (strip0 l).
Proof.
  intros H. destruct (strip0_spec l) as [z E]. rewrite E in H.
  apply Forall_app in H as [H _]. exact H.
Qed.

Lemma Z_of_digits_zeros z : Z_of_digits (repeat 48%N z) = 0.
Proof.
  induction z as [|z IH].
  - reflexivity.
  - replace (repeat 48%N (S z)) with (repeat 48%N z ++ [48%N]).
    + rewrite Z_of_digits_snoc, IH. reflexivity.
    + clear IH. induction z as [|z IH]; [ reflexivity | ].
      cbn [repeat app] in *. f_equal. exact IH.
Qed.

Lemma span_digits_app ds r :
  est_chiffres ds ->
  match r with [] => True | c :: _ => is_digit c = false end ->
  span_digits (ds ++ r) = (ds, r).
Proof.
  intros F Hr. induction F as [|c ds Hc F IH]; cbn.
  - destruct r as [|c r]; [ reflexivity | ]. cbn. rewrite Hr. reflexivity.
  - rewrite Hc, IH. reflexivity.
Qed.

Lemma pow10_pos k : Zpos (pow10 k) = 10 ^ Z.of_nat k.
Proof.
  unfold pow10. apply Z2Pos.id. apply Z.pow_pos_nonneg; lia.
Qed.

(** A decimal written with a point reads as the float nearest to it. *)
Lemma float_of_str_point ip fp :
  est_chiffres ip -> ip <> [] -> est_chiffres fp -> fp <> [] ->
  float_of_str (ip ++ 46%N :: fp)
  = Some (round64 (Z_of_digits (ip ++ fp) # pow10 (List.length fp))).
Proof.
  intros Fi Ni Ff Nf. unfold float_of_str.
  rewrite (span_digits_app ip (46%N :: fp) Fi eq_refl).
  destruct ip as [|i0 ip]; [ contradiction | ].
  change (eqc 46%N 46%N) with true. cbv iota.
  replace (span_digits fp) with (fp, @nil char)
    by (symmetry; rewrite <- (app_nil_r fp) at 1; apply span_digits_app; [ exact Ff | exact I ]).
  destruct fp as [|f0 fp]; [ contradiction | ]. reflexivity.
Qed.

(** [fixe m e] is a decimal with a point, of value [m * 10^e]. *)
Lemma fixe_spec m e :
  0 <= m ->
  exists ip fp,
    fixe m e = ip ++ 46%N :: fp
    /\ est_chiffres ip /\ ip <> [] /\ est_chiffres fp /\ fp <> []
    /\ (Z_of_digits (ip ++ fp) # pow10 (List.length fp)
        == scale10 (inject_Z m) e)%Q.
Proof.
  intros Hm.
  assert (Entier : forall M, 0 <= M ->
            exists ip fp,
              digits_of_Z M ++ [46%N; 48%N] = ip ++ 46%N :: fp
              /\ est_chiffres ip /\ ip <> [] /\ est_chiffres fp /\ fp <> []
              /\ Z_of_digits (ip ++ fp) = 10 * M
              /\ List.length fp = 1%nat).
  { intros M HM. destruct (digits_of_Z_spec M HM) as (F & V & N).
    exists (digits_of_Z M), [48%N]. repeat split; try assumption.
    - constructor; [ reflexivity | constructor ].
    - discriminate.
    - rewrite Z_of_digits_snoc, V. cbn. lia. }
  destruct e as [|p|p].
  - destruct (Entier (m * 10 ^ 0) ltac:(lia)) as (ip & fp & E & Fi & Ni & Ff & Nf & V & Len).
    exists ip, fp. repeat split; try assumption.
    rewrite V, Len. unfold Qeq, scale10. cbn [inject_Z Qnum Qden].
    rewrite pow10_pos, Z.pow_0_r. change (10 ^ Z.of_nat 1) with 10. lia.
  - assert (H10 : 0 < 10 ^ Zpos p) by (apply Z.pow_pos_nonneg; lia).
    destruct (Entier (m * 10 ^ Zpos p) ltac:(nia))
      as (ip & fp & E & Fi & Ni & Ff & Nf & V & Len).
    exists ip, fp. repeat split; try assumption.
    rewrite V, Len. unfold Qeq, scale10. cbn [inject_Z Qnum Qden].
    rewrite pow10_pos, Pos2Z.inj_pow. change (10 ^ Z.of_nat 1) with 10. lia.
  - cbn [fixe].
    assert (Hd : Zpos (10 ^ p) = 10 ^ Z.of_nat (Pos.to_nat p)).
    { rewrite Pos2Z.inj_pow. f_equal. lia. }
    assert (Hd0 : 0 < Zpos (10 ^ p)) by lia.
    set (d := Zpos (10 ^ p)) in *. set (f := Pos.to_nat p) in *.
    pose proof (Z.div_mod m d ltac:(lia)) as Edm.
    pose proof (Z.mod_pos_bound m d Hd0) as Bm.
    assert (Hip : 0 <= m / d) by (apply Z.div_pos; lia).
    destruct (digits_of_Z_spec (m / d) Hip) as (Fi & Vi & Ni).
    destruct (digits_width_spec f (m mod d) ltac:(lia)) as (Fw & Vw & Lw).
    rewrite <- Hd in Vw. rewrite (Z.mod_small (m mod d) d) in Vw by lia.
    destruct (strip0_spec (digits_width f (m mod d))) as [z Ez].
    pose proof (strip0_chiffres _ Fw) as Fs.
    assert (Vs : Z_of_digits (strip0 (digits_width f (m mod d))) * 10 ^ Z.of_nat z
                 = m mod d).
    { assert (G : Z_of_digits (digits_width f (m mod d))
                  = Z_of_digits (strip0 (digits_width f (m mod d))
                                   ++ repeat 48%N z))
        by (rewrite <- Ez; reflexivity).
      rewrite Z_of_digits_app, Z_of_digits_zeros, repeat_length in G. lia. }
    assert (Ls : (List.length (strip0 (digits_width f (m mod d))) + z)%nat = f).
    { assert (G : List.length (digits_width f (m mod d))
                  = List.length (strip0 (digits_width f (m mod d))
                                   ++ repeat 48%N z))
        by (rewrite <- Ez; reflexivity).
      rewrite length_app, repeat_length in G. lia. }
    set (F0 := strip0 (digits_width f (m mod d))) in *.
    assert (P10 : forall k : nat, 0 < 10 ^ Z.of_nat k)
      by (intros k; apply Z.pow_pos_nonneg; lia).
    assert (Hsplit : d = 10 ^ Z.of_nat (List.length F0) * 10 ^ Z.of_nat z).
    { rewrite Hd, <- Ls, Nat2Z.inj_add, Z.pow_add_r by lia. reflexivity. }
    destruct F0 as [|x F0'] eqn:EF.
    + exists (digits_of_Z (m / d)), [48%N]. repeat split; try assumption.
      * constructor; [ reflexivity | constructor ].
      * discriminate.
      * rewrite Z_of_digits_snoc, Vi.
        change (Z_of_digits []) with 0 in Vs.
        unfold Qeq, scale10. cbn [inject_Z Qnum Qden List.length].
        rewrite pow10_pos. fold d.
        change (10 ^ Z.of_nat 1) with 10. rewrite Pos2Z.inj_mul. fold d.
        change (Z.of_N 48 - 48) with 0.
        assert (R0 : m mod d = 0) by lia.
        rewrite R0 in Edm. rewrite Edm at 2.
        generalize (m / d). clear. intros q. ring.
    + exists (digits_of_Z (m / d)), (x :: F0'). repeat split; try assumption.
      * discriminate.
      * rewrite Z_of_digits_app, Vi.
        unfold Qeq, scale10. cbn [inject_Z Qnum Qden].
        rewrite pow10_pos. rewrite Pos2Z.inj_mul. fold d.
        pose proof (P10 (List.length (x :: F0'))) as Pa. pose proof (P10 z) as Pz.
        unfold char in *.
        set (A := 10 ^ Z.of_nat (List.length (x :: F0'))) in *.
        set (B := 10 ^ Z.of_nat z) in *.
        set (V0 := Z_of_digits (x :: F0')) in *.
        set (I := m / d) in *. set (R := m mod d) in *.
        assert (VR : V0 * B = R) by exact Vs.
        assert (Ed : d = A * B) by exact Hsplit.
        clearbody A B V0 I R d. rewrite Edm, <- VR, Ed. ring.
Qed.

Lemma float_of_str_fixe m e :
  0 <= m -> float_of_str (fixe m e) = Some (round64 (scale10 (inject_Z m) e)).
Proof.
  intros Hm. destruct (fixe_spec m e Hm) as (ip & fp & E & Fi & Ni & Ff & Nf & V).
  rewrite E.
  etransitivity; [ apply float_of_str_point; assumption | ].
  f_equal. apply round64_Qeq. exact V.
Qed.

End DecimalFacts.

(* ================================================================== *)
(** * Facts on the robot *)
(* ================================================================== *)

Section Robot.

Variable objectif : nat.

(** A page never takes the accumulator beyond the target. *)
Lemma scanner_borne page cartes : forall idx donnees tr d,
  List.length donnees < objectif ->
  scanner objectif page idx cartes donnees = (tr, Val d) ->
  List.length d <= objectif.
Proof.
  induction cartes as [|c t IH]; intros idx donnees tr d Hlt H; cbn in H.
  - inversion H; subst. lia.
  - destruct (extraire c) as [[o|]|[|]].
    + destruct (objectif <=? List.length (donnees ++ [o])) eqn:E.
      * inversion H; subst. rewrite length_app in *. cbn in *. lia.
      * apply Nat.leb_gt in E.
        destruct (scanner objectif page (S idx) t (donnees ++ [o])) as [tr' r] eqn:Es.
        inversion H; subst. eapply IH; eassumption.
    + destruct (scanner objectif page (S idx) t donnees) as [tr' r] eqn:Es.
      inversion H; subst. eapply IH; eassumption.
    + destruct (scanner objectif page (S idx) t donnees) as [tr' r] eqn:Es.
      inversion H; subst. eapply IH; eassumption.
    + inversion H.
Qed.

Lemma boucle_borne w fuel : forall page donnees,
  List.length donnees <= objectif ->
  borne objectif (snd (boucle objectif w fuel page donnees)).
Proof.
  induction fuel as [|fuel IH]; intros page donnees Hle; cbn -[scanner Nat.leb].
  - destruct (objectif <=? List.length donnees); cbn; assumption.
  - destruct (objectif <=? List.length donnees) eqn:E; cbn -[scanner];
      [ assumption | ].
    apply Nat.leb_gt in E.
    destruct (w_cartes w page) as [[|c cs]|e]; cbn -[scanner];
      [ assumption | | exact I ].
    destruct (scanner objectif page 0 (c :: cs) donnees) as [tr1 [d|e]] eqn:Es;
      cbn -[scanner]; [ | exact I ].
    destruct (w_get w (S page)); cbn -[scanner]; [ | exact I ].
    destruct (w_sleep w (S page)); cbn -[scanner]; [ | exact I ].
    assert (Hd : List.length d <= objectif)
      by (eapply scanner_borne; eassumption).
    specialize (IH (S page) d Hd).
    destruct (boucle objectif w fuel (S page) d). exact IH.
Qed.

Lemma session_borne w fuel : borne objectif (snd (session objectif w fuel)).
Proof.
  unfold session. destruct (w_sleep w 1); cbn; [ | exact I ].
  pose proof (boucle_borne w fuel 1 [] (Nat.le_0_l _)) as B.
  destruct (boucle objectif w fuel 1 []) as [tr f]. cbn in B.
  destruct f; exact B.
Qed.

Lemma run_borne w fuel : borne objectif (snd (run objectif w fuel)).
Proof.
  assert (D : forall tr0,
             borne objectif (snd (match w_get w 1 with
                         | Throw e => (tr0 ++ [EvGet 1], Leve e)
                         | Val _ =>
                             let '(tr, f) := session objectif w fuel in
                             (tr0 ++ [EvGet 1] ++ tr ++ exporter f, f)
                         end))).
  { intros tr0. destruct (w_get w 1); cbn; [ | exact I ].
    pose proof (session_borne w fuel) as B.
    destruct (session objectif w fuel). exact B. }
  unfold run. destruct (w_chrome w) as [[]|[|]]; [ apply D | | exact I ].
  destruct (w_chrome_service w) as [[]|e]; [ apply D | exact I ].
Qed.

(** The cards that follow the one that reaches the target are not read. *)
Lemma scanner_app page avant apres : forall idx donnees tr d,
  scanner objectif page idx avant donnees = (tr, Val d) ->
  List.length d < objectif ->
  scanner objectif page idx (avant ++ apres) donnees =
  (let '(tr', r) := scanner objectif page (idx + List.length avant) apres d in
   (tr ++ tr', r)).
Proof.
  induction avant as [|c t IH]; intros idx donnees tr d H Hlt; cbn in H.
  - inversion H; subst. cbn. rewrite Nat.add_0_r.
    destruct (scanner objectif page idx apres d). reflexivity.
  - cbn [app scanner List.length].
    replace (idx + S (List.length t)) with (S idx + List.length t) by lia.
    destruct (extraire c) as [[o|]|[|]].
    + destruct (objectif <=? List.length (donnees ++ [o])) eqn:E.
      * inversion H; subst. apply Nat.leb_le in E. lia.
      * destruct (scanner objectif page (S idx) t (donnees ++ [o])) as [tr' r] eqn:Es.
        inversion H; subst. rewrite (IH _ _ _ _ Es Hlt).
        destruct (scanner objectif page (S idx + List.length t) apres d).
        reflexivity.
    + destruct (scanner objectif page (S idx) t donnees) as [tr' r] eqn:Es.
      inversion H; subst. rewrite (IH _ _ _ _ Es Hlt).
      destruct (scanner objectif page (S idx + List.length t) apres d).
      reflexivity.
    + destruct (scanner objectif page (S idx) t donnees) as [tr' r] eqn:Es.
      inversion H; subst. rewrite (IH _ _ _ _ Es Hlt).
      destruct (scanner objectif page (S idx + List.length t) apres d).
      reflexivity.
    + inversion H.
Qed.

Lemma scanner_arret page avant c apres idx donnees tr d o :
  scanner objectif page idx avant donnees = (tr, Val d) ->
  extraire c = Val (Some o) ->
  S (List.length d) = objectif ->
  scanner objectif page idx (avant ++ c :: apres) donnees =
  (tr ++ [EvCarte page (idx + List.length avant)], Val (d ++ [o])).
Proof.
  intros H Hc Hd.
  rewrite (scanner_app page avant (c :: apres) idx donnees tr d H) by lia.
  cbn. rewrite Hc.
  replace (objectif <=? List.length (d ++ [o])) with true.
  - reflexivity.
  - symmetry. apply Nat.leb_le. rewrite length_app. cbn. lia.
Qed.

End Robot.

(* ================================================================== *)
(** * Facts on the removal of duplicates *)
(* ================================================================== *)

Lemma str_eqb_eq a b : str_eqb a b = true <-> a = b.
Proof.
  revert b. induction a as [|x a IH]; intros [|y b]; cbn; split; intros H;
    try reflexivity; try discriminate.
  - apply andb_true_iff in H as [H1 H2]. apply N.eqb_eq in H1.
    apply IH in H2. subst. reflexivity.
  - inversion H; subst. apply andb_true_iff. split.
    + apply N.eqb_refl.
    + apply IH. reflexivity.
Qed.

Lemma cell_eqb_eq a b : cell_eqb a b = true <-> a = b.
Proof.
  destruct a as [x|], b as [y|]; cbn; split; intros H;
    try reflexivity; try discriminate.
  - apply str_eqb_eq in H. subst. reflexivity.
  - inversion H; subst. apply str_eqb_eq. reflexivity.
Qed.

Lemma cle_eqb_eq a b : cle_eqb a b = true <-> a = b.
Proof.
  destruct a as [[t1 e1] v1], b as [[t2 e2] v2]. cbn. split; intros H.
  - apply andb_true_iff in H as [H H3]. apply andb_true_iff in H as [H1 H2].
    apply str_eqb_eq in H1, H3. apply cell_eqb_eq in H2. subst. reflexivity.
  - inversion H; subst. rewrite !andb_true_iff. repeat split.
    + apply str_eqb_eq. reflexivity.
    + apply cell_eqb_eq. reflexivity.
    + apply str_eqb_eq. reflexivity.
Qed.

Lemma cle_eqb_refl a : cle_eqb a a = true.
Proof. apply cle_eqb_eq. reflexivity. Qed.


Lemma vue_iff k vues : existsb (cle_eqb k) vues = true <-> In k vues.
Proof.
  rewrite existsb_exists. split.
  - intros (x & Hx & E). apply cle_eqb_eq in E. subst. exact Hx.
  - intros H. exists k. split; [ exact H | apply cle_eqb_refl ].
Qed.

Lemma drop_duplicates_go_sous_suite rows : forall vues,
  sous_suite (drop_duplicates_go vues rows) rows.
Proof.
  induction rows as [|r t IH]; intros vues; cbn.
  - constructor.
  - destruct (existsb (cle_eqb (cle_de r)) vues); constructor; apply IH.
Qed.

Lemma drop_duplicates_go_nouveau rows : forall vues r,
  In r (drop_duplicates_go vues rows) -> ~ In (cle_de r) vues.
Proof.
  induction rows as [|r0 t IH]; intros vues r H; cbn in H.
  - contradiction.
  - destruct (existsb (cle_eqb (cle_de r0)) vues) eqn:E.
    + apply IH. exact H.
    + destruct H as [<-|H].
      * intros C. apply vue_iff in C. congruence.
      * intros C. apply (IH _ _ H). right. exact C.
Qed.

Lemma drop_duplicates_go_cles_distinctes rows : forall vues,
  NoDup (map cle_de (drop_duplicates_go vues rows)).
Proof.
  induction rows as [|r0 t IH]; intros vues; cbn.
  - constructor.
  - destruct (existsb (cle_eqb (cle_de r0)) vues) eqn:E.
    + apply IH.
    + cbn. constructor; [ | apply IH ].
      intros C. apply in_map_iff in C as (r & Hk & Hr).
      apply drop_duplicates_go_nouveau in Hr. apply Hr. left. symmetry. exact Hk.
Qed.




(** ** The table of the transformed rows *)

Lemma transformer_transformee l r : transformer l = Ok r <-> transformee l r.
Proof.
  unfold transformer, transformee. split.
  - intros H.
    destruct (nettoyer_salaire (Salaire l)) as [sa|]; cbn [bind] in H;
      [ | discriminate ].
    destruct (separer_localisation (Localisation l)) as [v d].
    inversion H; subst r. cbn. repeat split; reflexivity.
  - intros (Hs & Ht & Hl & He & Hc).
    rewrite Hs. cbn [bind]. rewrite <- Hl.
    destruct r; cbn in *. subst. reflexivity.
Qed.

Lemma map_result_Forall2 {A B : Type} (f : A -> result B) l : forall bs,
  map_result f l = Ok bs <-> Forall2 (fun a b => f a = Ok b) l bs.
Proof.
  induction l as [|a t IH]; intros bs; cbn [map_result].
  - split; intros H.
    + inversion H. constructor.
    + inversion H. reflexivity.
  - split; intros H.
    + destruct (f a) as [b|] eqn:Ea; cbn [bind] in H; [ | discriminate ].
      destruct (map_result f t) as [bs'|]; cbn [bind] in H; [ | discriminate ].
      inversion H; subst bs. constructor; [ exact Ea | ].
      apply IH. reflexivity.
    + inversion H as [|? b ? bs' Ea Ht]; subst.
      rewrite Ea. cbn [bind].
      apply IH in Ht. rewrite Ht. reflexivity.
Qed.

Lemma map_result_transformee df rows :
  map_result transformer df = Ok rows <-> Forall2 transformee df rows.
Proof.
  rewrite map_result_Forall2. split; intros H.
  - eapply Forall2_impl; [ | exact H ].
    intros l r. apply transformer_transformee.
  - eapply Forall2_impl; [ | exact H ].
    intros l r. apply transformer_transformee.
Qed.

(** What the pipeline writes is the table of the transformed rows
    without its duplicates, and the input table has a row. *)
Lemma lancer_traitement_final_sortie df out :
  lancer_traitement_final (Some df) = Ok (Some out) <->
  df <> [] /\ exists rows, Forall2 transformee df rows /\ out = drop_duplicates rows.
Proof.
  split.
  - destruct df as [|l t]; [ discriminate | ].
    intros H. split; [ discriminate | ].
    unfold lancer_traitement_final in H.
    destruct (map_result transformer (l :: t)) as [rows|] eqn:E;
      cbn [bind] in H; [ | discriminate ].
    inversion H. exists rows. split; [ | reflexivity ].
    apply map_result_transformee. exact E.
  - intros (Hne & rows & E & ->).
    destruct df as [|l t]; [ congruence | ].
    apply map_result_transformee in E.
    unfold lancer_traitement_final. rewrite E. reflexivity.
Qed.


(* ================================================================== *)
(** * Facts on the strings *)
(* ================================================================== *)

Lemma eqc_eq a b : eqc a b = true <-> a = b.
Proof. apply N.eqb_eq. Qed.

Lemma prefixb_iff p s : prefixb p s = true <-> exists r, s = p ++ r.
Proof.
  revert s. induction p as [|a p IH]; intros s; cbn.
  - split; [ intros _; exists s; reflexivity | reflexivity ].
  - destruct s as [|b s].
    + split; [ discriminate | intros [r H]; discriminate ].
    + rewrite andb_true_iff, eqc_eq, IH. split.
      * intros [-> [r ->]]. exists r. reflexivity.
      * intros [r H]. inversion H; subst. split; [ reflexivity | exists r; reflexivity ].
Qed.

(** [rfind] gives the last occurrence, and [None] when there is none. *)
Lemma rfind_spec sep s :
  match rfind sep s with
  | Some i =>
      i <= List.length s
      /\ (exists r, s = firstn i s ++ sep ++ r)
      /\ (forall l' r', s = l' ++ sep ++ r' -> List.length l' <= i)
  | None => forall l r, s <> l ++ sep ++ r
  end.
Proof.
  induction s as [|c t IH]; cbn [rfind].
  - destruct (prefixb sep []) eqn:P.
    + apply prefixb_iff in P as [r P]. split; [ cbn; lia | ]. split.
      * exists r. exact P.
      * intros l' r' H. destruct l'; [ cbn; lia | discriminate ].
    + intros l r H. destruct l as [|x l]; [ | discriminate ].
      cbn in H. assert (prefixb sep [] = true) by (apply prefixb_iff; exists r; exact H).
      congruence.
  - destruct (rfind sep t) as [i|].
    + destruct IH as (Hi & [r Hr] & Hmax). split; [ cbn; lia | ]. split.
      * exists r. cbn [firstn app]. f_equal. exact Hr.
      * intros l' r' H. destruct l' as [|x l']; [ cbn; lia | ].
        inversion H; subst. cbn. apply le_n_S. eapply Hmax. reflexivity.
    + destruct (prefixb sep (c :: t)) eqn:P.
      * apply prefixb_iff in P as [r P]. split; [ cbn; lia | ]. split.
        -- exists r. exact P.
        -- intros l' r' H. destruct l' as [|x l']; [ cbn; lia | ].
           inversion H; subst. exfalso. eapply IH. reflexivity.
      * intros l r H. destruct l as [|x l].
        -- cbn in H.
           assert (prefixb sep (c :: t) = true) by (apply prefixb_iff; exists r; exact H).
           congruence.
        -- inversion H; subst. eapply IH. reflexivity.
Qed.

Lemma rsplit1_derniere sep l r :
  derniere_occurrence sep l r -> rsplit1 sep (l ++ sep ++ r) = [l; r].
Proof.
  intros Hd. unfold rsplit1.
  pose proof (rfind_spec sep (l ++ sep ++ r)) as S.
  destruct (rfind sep (l ++ sep ++ r)) as [i|].
  - destruct S as (Hi & [r0 Hr0] & Hmax).
    assert (L1 : List.length l <= i) by (eapply Hmax; reflexivity).
    assert (L2 : i <= List.length l).
    { specialize (Hd _ _ Hr0). rewrite length_firstn in Hd. lia. }
    assert (i = List.length l) by lia. subst i.
    rewrite firstn_app, Nat.sub_diag, firstn_all. cbn [firstn]. rewrite app_nil_r.
    rewrite skipn_app.
    rewrite skipn_all2 by lia.
    replace (List.length l + List.length sep - List.length l) with (List.length sep) by lia.
    rewrite skipn_app, skipn_all, Nat.sub_diag. reflexivity.
  - exfalso. eapply S. reflexivity.
Qed.

Lemma rsplit1_absent sep s :
  (forall l r, s <> l ++ sep ++ r) -> rsplit1 sep s = [s].
Proof.
  intros H. unfold rsplit1.
  pose proof (rfind_spec sep s) as S.
  destruct (rfind sep s) as [i|]; [ | reflexivity ].
  destruct S as (_ & [r Hr] & _). exfalso. eapply H. exact Hr.
Qed.

(* ================================================================== *)
(** * Facts on the matcher *)
(* ================================================================== *)

Lemma in_ends_cat ic r1 r2 k e :
  In e (ends ic (Cat r1 r2) k) <->
  exists m, In m (ends ic r1 k) /\ In e (ends ic r2 m).
Proof. cbn. apply in_flat_map. Qed.

Lemma in_skipn {A : Type} (x : A) n l : In x (skipn n l) -> In x l.
Proof.
  revert l. induction n as [|n IH]; intros l H; cbn in H.
  - exact H.
  - destruct l as [|a l]; [ contradiction | ]. right. apply IH. exact H.
Qed.

Lemma in_ends_many ic lazy min p k e :
  In e (ends ic (Many lazy min p) k) <->
  In e (skipn min (runs p (prev k) (rest k))).
Proof.
  cbn. destruct lazy; [ reflexivity | ]. symmetry. apply in_rev.
Qed.









Lemma re_arrondissement_eq :
  re_arrondissement = Cat (Cls is_space) suite_arrondissement.
Proof. reflexivity. Qed.


Lemma suite_fin pv s e :
  In e (ends false suite_arrondissement (Cursor pv s)) ->
  rest e = [] \/ rest e = [10%N].
Proof.
  intros H. unfold suite_arrondissement in H.
  apply in_ends_cat in H as (m1 & _ & H).
  apply in_ends_cat in H as (m2 & _ & H).
  cbn in H. destruct (rest m2) as [|a [|b l]] eqn:E; cbn in H.
  - destruct H as [<-|[]]. left. exact E.
  - unfold eqc in H. destruct (N.eqb_spec a 10); [ | contradiction ].
    destruct H as [<-|[]]. right. subst. exact E.
  - contradiction.
Qed.

Section Arrondissement.

Variables (w : char) (ds suf : str).
Hypothesis Hw : is_space w = true.
Hypothesis Hds : Forall (fun c => is_digit c = true) ds.
Hypothesis Hne : ds <> [].
Hypothesis Hsuf : In suf [[]; u "er"; u "e"; u "ème"].




End Arrondissement.

Lemma sub_go_passe ic r t : forall pv, sub_go ic r [] (List.length t) pv t = [].
Proof.
  induction t as [|c t IH]; intros pv; cbn.
  - destruct (match_len ic r pv []); reflexivity.
  - apply IH.
Qed.



(* ================================================================== *)
(** * The salary printed and read again *)
(* ================================================================== *)

Lemma decimal_petit c : is_digit c = true \/ c = 46%N -> (c < 65)%N.
Proof.
  intros [H| ->]; [ | reflexivity ].
  unfold is_digit, in_range, char in *. apply andb_true_iff in H as [_ H].
  apply N.leb_le in H. lia.
Qed.

Lemma to_lower_petit c : (c < 65)%N -> to_lower c = c.
Proof.
  intros H. unfold to_lower, in_range, char in *.
  repeat match goal with
         | |- context [N.leb ?a ?b] => destruct (N.leb_spec a b)
         end; cbn; try reflexivity; lia.
Qed.

Lemma lower_decimal s : est_decimal s -> lower s = s.
Proof.
  intros H. unfold lower. induction H as [|c s Hc Hs IH]; cbn.
  - reflexivity.
  - rewrite IH, (to_lower_petit c (decimal_petit c Hc)). reflexivity.
Qed.

Lemma pas_dans x s :
  (65 <= x)%N \/ x = 32%N -> est_decimal s -> ~ In x s.
Proof.
  intros Hx H C. unfold est_decimal in H. rewrite Forall_forall in H.
  specialize (H x C). pose proof (decimal_petit x H) as P.
  destruct Hx as [Hx| ->]; [ lia | ].
  destruct H as [H|H]; discriminate H.
Qed.

Lemma prefixb_tete c p s : prefixb (c :: p) s = true -> In c s.
Proof.
  destruct s as [|x s]; cbn; [ discriminate | ].
  intros H. apply andb_true_iff in H as [H _]. apply N.eqb_eq in H. left.
  symmetry. exact H.
Qed.

Lemma contains_tete c p s : contains (c :: p) s = true -> In c s.
Proof.
  induction s as [|x s IH]; intros H.
  - cbn in H. discriminate.
  - cbn [contains] in H. apply orb_true_iff in H as [H|H].
    + apply prefixb_tete in H. exact H.
    + right. apply IH. exact H.
Qed.

Lemma contains_decimal c p s :
  (65 <= c)%N -> est_decimal s -> contains (c :: p) s = false.
Proof.
  intros Hc Hs. destruct (contains (c :: p) s) eqn:E; [ | reflexivity ].
  exfalso. apply contains_tete in E. eapply pas_dans; [ left | | ]; eassumption.
Qed.

Lemma replace_absent x new s : ~ In x s -> replace [x] new s = s.
Proof.
  unfold replace. induction s as [|c s IH]; intros H; cbn [replace_go].
  - reflexivity.
  - cbn [prefixb]. destruct (eqc x c) eqn:E.
    + exfalso. apply H. left. apply N.eqb_eq in E. symmetry. exact E.
    + cbn. f_equal. apply IH. intros C. apply H. right. exact C.
Qed.

Lemma clean_txt_decimal s : est_decimal s -> clean_txt s = s.
Proof.
  intros H. unfold clean_txt. rewrite (lower_decimal s H).
  change (u " ") with [32%N]. change (u "k") with [107%N].
  rewrite (replace_absent 32%N) by (apply pas_dans; [ right; reflexivity | exact H ]).
  rewrite (replace_absent 8239%N) by (apply pas_dans; [ left; discriminate | exact H ]).
  rewrite (replace_absent 160%N) by (apply pas_dans; [ left; discriminate | exact H ]).
  apply replace_absent. apply pas_dans; [ left; discriminate | exact H ].
Qed.

(** The greedy reading of a run of digits. *)
Lemma runs_chiffres ds r :
  est_chiffres ds ->
  match r with [] => True | c :: _ => is_digit c = false end ->
  forall pv, exists L pv',
    runs is_digit pv (ds ++ r) = L ++ [Cursor pv' r]
    /\ List.length L = List.length ds.
Proof.
  intros F Hr. induction F as [|c ds Hc F IH]; intros pv.
  - exists [], pv. split; [ | reflexivity ]. cbn.
    destruct r as [|x r]; [ reflexivity | ]. cbn. rewrite Hr. reflexivity.
  - destruct (IH (Some c)) as (L & pv' & E & Len).
    exists (Cursor pv ((c :: ds) ++ r) :: L), pv'. split.
    + cbn. rewrite Hc. cbn in E. rewrite E. reflexivity.
    + cbn. rewrite Len. reflexivity.
Qed.

Lemma ends_plus_chiffres ds r pv :
  est_chiffres ds -> ds <> [] ->
  match r with [] => True | c :: _ => is_digit c = false end ->
  exists pv' l, ends false (plus is_digit) (Cursor pv (ds ++ r)) = Cursor pv' r :: l.
Proof.
  intros F N Hr. destruct (runs_chiffres ds r F Hr pv) as (L & pv' & E & Len).
  exists pv'. cbn [ends plus prev rest]. rewrite E.
  destruct L as [|l0 L]; [ destruct ds; [ contradiction | discriminate ] | ].
  cbn [skipn app]. rewrite rev_app_distr. cbn. eexists. reflexivity.
Qed.

Lemma match_len_nombre ip fp pv :
  est_chiffres ip -> ip <> [] -> est_chiffres fp -> fp <> [] ->
  match_len false re_nombre pv (ip ++ 46%N :: fp)
  = Some (List.length (ip ++ 46%N :: fp)).
Proof.
  intros Fi Ni Ff Nf. unfold match_len, re_nombre.
  destruct (ends_plus_chiffres ip (46%N :: fp) pv Fi Ni eq_refl) as (pv1 & l1 & E1).
  destruct (ends_plus_chiffres fp [] (Some 46%N) Ff Nf I) as (pv2 & l2 & E2).
  rewrite app_nil_r in E2.
  cbn [ends]. rewrite E1. cbn [flat_map ends rest lit_ok].
  change (eqc 46%N 46%N) with true. cbv iota. cbn [flat_map].
  unfold char in *. rewrite E2.
  cbn [app rest List.length]. f_equal. lia.
Qed.

Lemma findall_go_passe t : forall pv,
  findall_go re_nombre (List.length t) pv t = [].
Proof.
  induction t as [|c t IH]; intros pv.
  - reflexivity.
  - cbn [List.length findall_go]. apply IH.
Qed.

Lemma findall_nombre ip fp :
  est_chiffres ip -> ip <> [] -> est_chiffres fp -> fp <> [] ->
  findall re_nombre (ip ++ 46%N :: fp) = [ip ++ 46%N :: fp].
Proof.
  intros Fi Ni Ff Nf. unfold findall.
  pose proof (match_len_nombre ip fp None Fi Ni Ff Nf) as M.
  destruct ip as [|i0 ip]; [ contradiction | ].
  cbn [app] in *. cbn [findall_go]. rewrite M. cbn [List.length].
  rewrite firstn_all2 by (cbn; lia). rewrite findall_go_passe. reflexivity.
Qed.

Section Decimal.

Local Open Scope Z_scope.

(** A decimal that reads as a float within the bounds, its own rounding
    and its own rounding to two places, gives this float. *)
Lemma nettoyer_salaire_decimal ip fp q :
  est_chiffres ip -> ip <> [] -> est_chiffres fp -> fp <> [] ->
  float_of_str (ip ++ 46%N :: fp) = Some (FFin q) ->
  (inject_Z 14000 <= q)%Q -> (q <= inject_Z 200000)%Q ->
  round64 q = FFin q ->
  round_ndigits (FFin q) 2 = FFin q ->
  nettoyer_salaire (CStr (ip ++ 46%N :: fp)) = Ok (Some (FFin q)).
Proof.
  intros Fi Ni Ff Nf Hparse Hlo Hhi Hid Hrd.
  assert (Hdec : est_decimal (ip ++ 46%N :: fp)).
  { apply Forall_app. split.
    - eapply Forall_impl; [ | exact Fi ]. intros c Hc. left. exact Hc.
    - constructor; [ right; reflexivity | ].
      eapply Forall_impl; [ | exact Ff ]. intros c Hc. left. exact Hc. }
  unfold nettoyer_salaire.
  rewrite (lower_decimal _ Hdec).
  change (u "non affiché") with (110%N :: List.tl (u "non affiché")).
  rewrite (contains_decimal 110%N _ _ ltac:(discriminate) Hdec).
  rewrite (clean_txt_decimal _ Hdec).
  rewrite (findall_nombre ip fp Fi Ni Ff Nf).
  cbn [map_result]. rewrite Hparse. cbn [of_option bind List.length].
  change (float_of_int (Z.of_nat 1)) with (Some (FFin 1)).
  cbn [of_option bind].
  assert (Hsum : fsum [FFin q] = FFin q).
  { unfold fsum. cbn [fold_left fadd].
    etransitivity; [ | exact Hid ]. apply round64_Qeq. apply Qplus_0_l. }
  rewrite Hsum.
  assert (Hdiv : fdiv (FFin q) (FFin 1) = Some (FFin q)).
  { unfold fdiv. change (is_zero 1) with false. cbv iota. f_equal.
    etransitivity; [ | exact Hid ]. apply round64_Qeq.
    unfold Qdiv. change (/ 1)%Q with 1%Q. apply Qmult_1_r. }
  rewrite Hdiv. cbn [of_option bind].
  assert (Hmul : multiplicateur (ip ++ 46%N :: fp) (FFin q) = FFin 1).
  { unfold multiplicateur.
    change (u "mois") with (109%N :: List.tl (u "mois")).
    change (u "heure") with (104%N :: List.tl (u "heure")).
    change (u "jour") with (106%N :: List.tl (u "jour")).
    rewrite (contains_decimal 109%N _ _ ltac:(discriminate) Hdec).
    rewrite (contains_decimal 104%N _ _ ltac:(discriminate) Hdec).
    rewrite (contains_decimal 106%N _ _ ltac:(discriminate) Hdec).
    replace (fle (FFin q) (of_Z 12000)) with false.
    - rewrite andb_false_r. reflexivity.
    - symmetry. change (of_Z 12000) with (FFin (inject_Z 12000)). cbn [fle].
      destruct (Qle_bool q (inject_Z 12000)) eqn:E; [ | reflexivity ].
      apply Qle_bool_iff in E. exfalso.
      apply (Qle_not_lt _ _ (Qle_trans _ _ _ Hlo E)). reflexivity. }
  rewrite Hmul.
  assert (Hprod : fmul (FFin q) (FFin 1) = FFin q).
  { cbn [fmul].
    etransitivity; [ | exact Hid ]. apply round64_Qeq. apply Qmult_1_r. }
  rewrite Hprod.
  change (of_Z 14000) with (FFin (inject_Z 14000)).
  change (of_Z 200000) with (FFin (inject_Z 200000)).
  cbn [flt].
  replace (Qle_bool (inject_Z 14000) q) with true
    by (symmetry; apply Qle_bool_iff; exact Hlo).
  replace (Qle_bool q (inject_Z 200000)) with true
    by (symmetry; apply Qle_bool_iff; exact Hhi).
  cbn [negb orb]. rewrite Hrd. reflexivity.
Qed.

End Decimal.

Section Relecture.

Local Open Scope Z_scope.

Lemma find_premier {A : Type} (P : A -> bool) l1 x l2 :
  (forall y, In y l1 -> P y = false) -> P x = true ->
  find P (l1 ++ x :: l2) = Some x.
Proof.
  intros H Hx. induction l1 as [|a l1 IH]; cbn.
  - rewrite Hx. reflexivity.
  - rewrite (H a (or_introl eq_refl)). apply IH. intros y Hy. apply H. right. exact Hy.
Qed.

(** The decimal exponent of a salary. *)
Lemma decexp_salaire q :
  (inject_Z 14000 <= q)%Q -> (q <= inject_Z 200000)%Q ->
  (decexp q = 5 /\ (q < inject_Z 100000)%Q)
  \/ (decexp q = 6 /\ (inject_Z 100000 <= q)%Q).
Proof.
  intros Hlo Hhi. unfold decexp.
  assert (Hpetit : forall j, In j (zrange (-330) 335) ->
             negb (Qle_bool (scale10 1 j) q) = false).
  { intros j Hj. apply negb_false_iff. apply Qle_bool_iff.
    apply Qle_trans with (inject_Z 10000).
    - assert (A : forallb (fun j => Qle_bool (scale10 1 j) (inject_Z 10000))
                    (zrange (-330) 335) = true) by (vm_compute; reflexivity).
      rewrite forallb_forall in A. apply Qle_bool_iff. apply A. exact Hj.
    - eapply Qle_trans; [ | exact Hlo ]. unfold Qle. cbn. lia. }
  destruct (Qlt_le_dec q (inject_Z 100000)) as [C|C].
  - left. split; [ | exact C ].
    change (zrange (-330) 641) with (zrange (-330) 335 ++ 5 :: zrange 6 305).
    rewrite (find_premier _ _ 5 _ Hpetit); [ reflexivity | ].
    apply negb_true_iff. destruct (Qle_bool (scale10 1 5) q) eqn:E; [ | reflexivity ].
    apply Qle_bool_iff in E. exfalso. apply (Qlt_not_le _ _ C). exact E.
  - right. split; [ | exact C ].
    change (zrange (-330) 641) with ((zrange (-330) 335 ++ [5]) ++ 6 :: zrange 7 304).
    rewrite (find_premier _ _ 6); [ reflexivity | | ].
    + intros j Hj. apply in_app_or in Hj as [Hj|[<-|[]]]; [ apply Hpetit; exact Hj | ].
      apply negb_false_iff. apply Qle_bool_iff. exact C.
    + apply negb_true_iff. destruct (Qle_bool (scale10 1 6) q) eqn:E; [ | reflexivity ].
      apply Qle_bool_iff in E. exfalso.
      apply (Qle_not_lt _ _ (Qle_trans _ _ _ E Hhi)). reflexivity.
Qed.

(** The candidates of a salary are decimals between 10^4 and 10^6. *)
Lemma candidat_bornes q k n :
  (k = 5 /\ (inject_Z 10000 <= q)%Q /\ (q <= inject_Z 100000)%Q)
  \/ (k = 6 /\ (inject_Z 100000 <= q)%Q /\ (q <= inject_Z 1000000)%Q) ->
  In n (zrange 1 17) ->
  0 <= candidat q k n
  /\ Qle_bool (1 # 10000) (scale10 (inject_Z (candidat q k n)) (k - n)) = true
  /\ Qle_bool (inject_Z (10 ^ 16)) (scale10 (inject_Z (candidat q k n)) (k - n))
     = false.
Proof.
  intros Hk Hn.
  assert (G : 10 ^ (n - 1) <= candidat q k n <= 10 ^ n).
  { change (zrange 1 17) with [1;2;3;4;5;6;7;8;9;10;11;12;13;14;15;16;17] in Hn.
    unfold candidat.
    destruct Hk as [(-> & Hlo & Hhi)|(-> & Hlo & Hhi)];
      unfold Qle in Hlo, Hhi; cbn [inject_Z Qnum Qden] in Hlo, Hhi;
      repeat (destruct Hn as [<-|Hn]; [ | ]); try contradiction;
      (split; [ apply round_half_even_ge | apply round_half_even_le ];
       cbn [scale10 Z.sub Z.add Z.opp Z.pos_sub Z.succ_double Z.pred_double
            Z.double Pos.pred_double Qnum Qden]; lia). }
  change (zrange 1 17) with [1;2;3;4;5;6;7;8;9;10;11;12;13;14;15;16;17] in Hn.
  generalize dependent (candidat q k n). intros m G.
  assert (Hm : 0 <= m) by (pose proof (Z.pow_nonneg 10 (n - 1) ltac:(lia)); lia).
  split; [ exact Hm | ].
  assert (B : (1 # 10000 <= scale10 (inject_Z m) (k - n))%Q
              /\ (scale10 (inject_Z m) (k - n) < inject_Z (10 ^ 16))%Q).
  { destruct Hk as [(-> & _)|(-> & _)];
      repeat (destruct Hn as [<-|Hn]; [ | ]); try contradiction;
      match type of G with
      | ?lo <= _ <= ?hi =>
          let lo' := eval vm_compute in lo in
          let hi' := eval vm_compute in hi in
          change lo with lo' in G; change hi with hi' in G
      end;
      unfold Qle, Qlt;
      cbn [scale10 Z.sub Z.add Z.opp Z.pos_sub Z.succ_double Z.pred_double
           Z.double Pos.pred_double Qnum Qden inject_Z];
      lia. }
  destruct B as [B1 B2]. split.
  - apply Qle_bool_iff. exact B1.
  - destruct (Qle_bool _ _) eqn:E; [ | reflexivity ]. exfalso.
    apply Qle_bool_iff in E. apply (Qlt_not_le _ _ B2). exact E.
Qed.

(** [repr] of the float of a salary is a decimal with a point that reads
    as this float. *)
Lemma repr_salaire N q :
  1400000 <= N <= 20000000 -> round64 (N # 100) = FFin q ->
  exists ip fp,
    float_repr (FFin q) = ip ++ 46%N :: fp
    /\ est_chiffres ip /\ ip <> [] /\ est_chiffres fp /\ fp <> []
    /\ float_of_str (ip ++ 46%N :: fp) = Some (FFin q).
Proof.
  intros HN Hq.
  destruct (salaire_stable N q HN Hq) as (Hlo & Hhi & Hid & Hdec & Hrd).
  pose proof (round64_canon _ _ Hq) as Hcan.
  assert (Hn : 0 < Qnum q).
  { unfold Qle in Hlo. cbn [inject_Z Qnum Qden] in Hlo. lia. }
  cbn [float_repr]. destruct (Qnum q) as [|pq|pq] eqn:Enq; try lia.
  unfold repr_pos, plus_court.
  (* the decimal exponent *)
  assert (Hk : (decexp q = 5 /\ (inject_Z 10000 <= q)%Q /\ (q <= inject_Z 100000)%Q)
               \/ (decexp q = 6 /\ (inject_Z 100000 <= q)%Q
                   /\ (q <= inject_Z 1000000)%Q)).
  { destruct (decexp_salaire q Hlo Hhi) as [[E C]|[E C]]; [ left | right ];
      (split; [ exact E | ]); split.
    - eapply Qle_trans; [ | exact Hlo ]. unfold Qle. cbn. lia.
    - apply Qlt_le_weak. exact C.
    - exact C.
    - eapply Qle_trans; [ exact Hhi | ]. unfold Qle. cbn. lia. }
  set (k := decexp q) in *.
  (* the search finds a number of digits *)
  set (P := fun n => relit q (candidat q k n) (k - n)).
  assert (Hfind : exists n, find P (zrange 1 17) = Some n).
  { destruct (find P (zrange 1 17)) as [n|] eqn:E; [ exists n; reflexivity | ].
    exfalso.
    assert (In (k + 2) (zrange 1 17)).
    { destruct Hk as [(-> & _)|(-> & _)]; vm_compute; tauto. }
    pose proof (find_none _ _ E (k + 2) H) as C. unfold P, relit in C.
    replace (k - (k + 2)) with (-2) in C by lia.
    assert (Ec : candidat q k (k + 2) = N).
    { unfold candidat. replace (k + 2 - k) with 2 by lia.
      rewrite <- Hdec. unfold round_half_even.
      cbn [scale10 Qmult Qnum Qden inject_Z]. rewrite Pos.mul_1_r.
      reflexivity. }
    rewrite Ec in C.
    change (scale10 (inject_Z N) (-2)) with (N # 100)%Q in C.
    rewrite Hq in C. rewrite Qeq_bool_refl in C. discriminate. }
  destruct Hfind as [n Efind]. fold P. rewrite Efind.
  pose proof (find_some _ _ Efind) as [Hin HP].
  unfold P, relit in HP.
  destruct (round64 (scale10 (inject_Z (candidat q k n)) (k - n)))
    as [| |r] eqn:Er; try discriminate.
  apply Qeq_bool_iff in HP.
  assert (r = q).
  { rewrite <- (round64_canon _ _ Er), <- Hcan. apply Qred_complete. exact HP. }
  subst r.
  destruct (candidat_bornes q k n) as (Hm & B1 & B2).
  { destruct Hk as [(E & A & B)|(E & A & B)]; [ left | right ]; auto. }
  { exact Hin. }
  rewrite B1, B2. cbn [andb negb].
  destruct (fixe_spec (candidat q k n) (k - n) Hm)
    as (ip & fp & E & Fi & Ni & Ff & Nf & V).
  exists ip, fp. repeat split; try assumption.
  rewrite <- E, (float_of_str_fixe _ _ Hm). f_equal. exact Er.
Qed.

(** C8.  [nettoyer_salaire] is a function, and the salary it returns is
    kept when it is printed and read again: [repr] of the float, its
    shortest decimal, has no unit and lies above the monthly band, so
    that it is multiplied by 1, it is within the bounds, and it is its
    own rounding to two places. *)
Theorem nettoyer_salaire_idempotent :
  (forall texte r1 r2,
      nettoyer_salaire texte = r1 -> nettoyer_salaire texte = r2 -> r1 = r2)
  /\ (forall texte v,
      nettoyer_salaire texte = Ok (Some v) ->
      nettoyer_salaire (CStr (float_repr v)) = Ok (Some v)).
Proof.
  split.
  - intros texte r1 r2 H1 H2. congruence.
  - intros texte v H.
    destruct (nettoyer_salaire_forme texte v H) as (x & Hlo & Hhi & ->).
    destruct (round_ndigits_forme x Hlo Hhi) as (N & HN & ->).
    assert (Hlo' : (inject_Z 14000 <= N # 100)%Q) by (unfold Qle; cbn; lia).
    assert (Hhi' : (N # 100 <= inject_Z 200000)%Q) by (unfold Qle; cbn; lia).
    destruct (round64_salary_range (N # 100) Hlo' Hhi') as (q & Eq & _).
    rewrite Eq.
    destruct (salaire_stable N q HN Eq) as (Qlo & Qhi & Hid & _ & Hrd).
    destruct (repr_salaire N q HN Eq) as (ip & fp & E & Fi & Ni & Ff & Nf & Hp).
    rewrite E. apply nettoyer_salaire_decimal; assumption.
Qed.

Lemma nettoyer_salaire_idempotent_witness :
  nettoyer_salaire (CStr (float_repr (of_dec 2184048 2)))
  = Ok (Some (of_dec 2184048 2)).
Proof.
  apply (proj2 nettoyer_salaire_idempotent (CStr (u "12 € / heure"))).
  vm_compute. reflexivity.
Defined.

End Relecture.

(* ================================================================== *)
(** * The claims *)
(* ================================================================== *)

(** ** The salaries of the documentation *)

(** C2.  "2000 € / mois" gives 24000.0, "12 € / heure" gives 21840.48 and
    "35k €" gives 35000.0, with the number read, the unit found and the
    multiplier applied as the claim tells them: 2000 and 12 for the
    month; 12 and 151.67 * 12, which is the float 1820.04, for the hour;
    "35000€" after the expansion of [k], the number 35000 outside the
    band from 1200 to 12000, and 1. *)
Theorem nettoyer_salaire_exemples :
  nettoyer_salaire (CStr (u "2000 € / mois")) = Ok (Some (of_dec 240000 1))
  /\ nettoyer_salaire (CStr (u "12 € / heure")) = Ok (Some (of_dec 2184048 2))
  /\ nettoyer_salaire (CStr (u "35k €")) = Ok (Some (of_dec 350000 1))
  /\ (findall re_nombre (clean_txt (u "2000 € / mois")) = [u "2000"]
      /\ multiplicateur (clean_txt (u "2000 € / mois")) (of_Z 2000) = of_Z 12)
  /\ (findall re_nombre (clean_txt (u "12 € / heure")) = [u "12"]
      /\ multiplicateur (clean_txt (u "12 € / heure")) (of_Z 12)
         = fmul (of_dec 15167 2) (of_Z 12)
      /\ fmul (of_dec 15167 2) (of_Z 12) = of_dec 182004 2)
  /\ (clean_txt (u "35k €") = u "35000€"
      /\ findall re_nombre (clean_txt (u "35k €")) = [u "35000"]
      /\ (fle (of_Z 1200) (of_Z 35000) && fle (of_Z 35000) (of_Z 12000))%bool = false
      /\ multiplicateur (clean_txt (u "35k €")) (of_Z 35000) = of_Z 1).
Proof.
  repeat split; vm_compute; reflexivity.
Qed.

(** ** Titles made of noise only *)

Lemma extraire_titre c o : extraire c = Val (Some o) -> o_Titre o <> [].
Proof.
  unfold extraire. intros H.
  destruct (c_h3 c) as [h3|]; cbn [obind] in H; [ | discriminate ].
  destruct (h_ps h3) as [ps|]; cbn [obind] in H; [ | discriminate ].
  match type of H with
  | obind ?x _ = _ => destruct x as [[titre entreprise]|] eqn:E
  end; cbn [obind] in H; [ | discriminate ].
  destruct titre as [|t0 titre]; [ discriminate | ].
  destruct (c_text c) as [[txt|]|]; cbn [obind] in H; try discriminate.
  inversion H; subst. cbn. discriminate.
Qed.

(** C10.  The title "CDI H/F" is not empty and [simplifier_titre] makes
    it empty; the pipeline keeps the row of such a title, with an empty
    [Titre_Simplifie]; and the robot only records offers whose title is
    not empty. *)
Theorem titre_simplifie_vide :
  u "CDI H/F" <> []
  /\ simplifier_titre (CStr (u "CDI H/F")) = []
  /\ (forall l r,
        Titre l = CStr (u "CDI H/F") -> transformer l = Ok r ->
        lancer_traitement_final (Some [l]) = Ok (Some [r])
        /\ Titre_Simplifie r = [])
  /\ lancer_traitement_final
       (Some [Ligne (CStr (u "CDI H/F")) (CStr (u "ACME")) (CStr (u "Lyon - 69"))
                    (CStr (u "CDI")) (CStr (u "Non affiché")) (CStr (u "x"))])
     = Ok (Some [LignePropre [] (CStr (u "ACME")) (u "Lyon") (u "69")
                             (CStr (u "CDI")) None])
  /\ (forall c o, extraire c = Val (Some o) -> o_Titre o <> []).
Proof.
  split; [ vm_compute; discriminate | ].
  split; [ vm_compute; reflexivity | ].
  split; [ | split; [ vm_compute; reflexivity | exact extraire_titre ] ].
  intros l r Ht Hr. unfold lancer_traitement_final. cbn [map_result].
  rewrite Hr. cbn [bind]. split; [ reflexivity | ].
  unfold transformer in Hr. rewrite Ht in Hr.
  destruct (nettoyer_salaire (Salaire l)) as [sa|]; cbn [bind] in Hr; [ | discriminate ].
  destruct (separer_localisation (Localisation l)) as [v d].
  inversion Hr; subst. cbn. vm_compute. reflexivity.
Qed.

Lemma titre_simplifie_vide_witness :
  Titre_Simplifie (LignePropre [] (CStr (u "ACME")) (u "Lyon") (u "69")
                               (CStr (u "CDI")) None) = [].
Proof.
  exact (proj2 (proj1 (proj2 (proj2 titre_simplifie_vide))
                  (Ligne (CStr (u "CDI H/F")) (CStr (u "ACME"))
                         (CStr (u "Lyon - 69")) (CStr (u "CDI"))
                         (CStr (u "Non affiché")) (CStr (u "x")))
                  _ eq_refl ltac:(vm_compute; reflexivity))).
Defined.

(** ** The release of the browser *)

(** C4, on a run that breaks it.  The browser starts and the first
    fetch, of [url_base], raises: the call stands before the [try] of
    the source, the exception leaves the function and [driver.quit()] is
    not called. *)
Theorem session_non_liberee fuel :
  lancer_scraping_france monde_premier_get_echoue fuel
  = ([EvChrome; EvGet 1], Leve Exception_)
  /\ ~ In EvQuit (fst (lancer_scraping_france monde_premier_get_echoue fuel)).
Proof.
  assert (E : lancer_scraping_france monde_premier_get_echoue fuel
              = ([EvChrome; EvGet 1], Leve Exception_)) by reflexivity.
  split; [ exact E | ]. rewrite E. cbn. intros [H|[H|[]]]; discriminate.
Qed.

(** Once in the [try], a run that ends has closed the browser. *)
Lemma session_ferme objectif w fuel :
  (forall d, snd (session objectif w fuel) <> Inacheve d) ->
  In EvQuit (fst (session objectif w fuel)).
Proof.
  unfold session. intros H.
  destruct (w_sleep w 1).
  - destruct (boucle objectif w fuel 1 []) as [tr f].
    destruct f; cbn in *;
      try (do 2 right; apply in_or_app; right; left; reflexivity).
    exfalso. eapply H. reflexivity.
  - cbn. right. left. reflexivity.
Qed.

(** ** The request of the next page *)

(** C5, on a run that breaks it.  With twenty readable cards a page, the
    twentieth card of page 50 brings the accumulator to [OBJECTIF]; the
    [break] leaves the loop over the cards only, and the robot still
    requests page 51 and pauses before the [while] ends. *)
Theorem page_suivante_apres_objectif :
  (exists d, snd (lancer_scraping_france monde_vingt_cartes 50) = Termine d
             /\ List.length d = OBJECTIF)
  /\ (let tr := fst (lancer_scraping_france monde_vingt_cartes 50) in
      skipn (List.length tr - 5) tr
      = [EvCarte 50 19; EvGet 51; EvSleep; EvQuit; EvCsv 1000]).
Proof.
  split.
  - exists donnees_vingt_cartes. split; vm_compute; reflexivity.
  - vm_compute. reflexivity.
Qed.

(** ** The bound on the accumulator *)

(** C6.  In every run, finished or cut at any page, the accumulator
    holds at most [OBJECTIF] offers; a run that ends with the target
    reached holds exactly [OBJECTIF]; and on a page the card that brings
    the count to the target is the last one read, whatever follows it. *)
Theorem accumulateur_borne :
  (forall w fuel, borne OBJECTIF (snd (lancer_scraping_france w fuel)))
  /\ (forall w fuel tr d,
        lancer_scraping_france w fuel = (tr, Termine d) ->
        OBJECTIF <= List.length d -> List.length d = OBJECTIF)
  /\ (forall page avant c apres idx donnees tr d o,
        scanner OBJECTIF page idx avant donnees = (tr, Val d) ->
        extraire c = Val (Some o) ->
        S (List.length d) = OBJECTIF ->
        scanner OBJECTIF page idx (avant ++ c :: apres) donnees
        = (tr ++ [EvCarte page (idx + List.length avant)], Val (d ++ [o]))).
Proof.
  split; [ | split ].
  - intros w fuel. apply run_borne.
  - intros w fuel tr d H Hge.
    pose proof (run_borne OBJECTIF w fuel) as B.
    unfold lancer_scraping_france in H. rewrite H in B. cbn in B. lia.
  - intros. apply scanner_arret; assumption.
Qed.

Lemma accumulateur_borne_witness :
  List.length donnees_vingt_cartes = OBJECTIF.
Proof.
  apply (proj1 (proj2 accumulateur_borne) monde_vingt_cartes 50
           (fst (lancer_scraping_france monde_vingt_cartes 50))
           donnees_vingt_cartes).
  - vm_compute. reflexivity.
  - apply Nat.leb_le. vm_compute. reflexivity.
Defined.

Lemma nettoyer_salaire_bounds_witness :
  fle (of_Z 14000) (of_dec 240000 1) = true
  /\ fle (of_dec 240000 1) (of_Z 200000) = true.
Proof.
  apply (nettoyer_salaire_bounds (CStr (u "2000 € / mois"))).
  vm_compute. reflexivity.
Defined.

(* ================================================================== *)
(** * Further properties of the robot *)
(* ================================================================== *)

Section RobotTours.

Variable objectif : nat.
Variable w : world.

Lemma boucle_tours fuel : forall page d,
  tours objectif w page d (fst (boucle objectif w fuel page d))
        (snd (boucle objectif w fuel page d)).
Proof.
  induction fuel as [|fuel IH]; intros page d; cbn -[scanner Nat.leb].
  - destruct (objectif <=? List.length d) eqn:E; cbn.
    + apply tours_objectif. apply Nat.leb_le. exact E.
    + apply tours_coupe. apply Nat.leb_gt. exact E.
  - destruct (objectif <=? List.length d) eqn:E; cbn -[scanner].
    { apply tours_objectif. apply Nat.leb_le. exact E. }
    apply Nat.leb_gt in E.
    destruct (w_cartes w page) as [[|c cs]|e] eqn:Ec; cbn -[scanner].
    { apply tours_vide; assumption. }
    2:{ apply tours_cartes_leve; assumption. }
    destruct (scanner objectif page 0 (c :: cs) d) as [tr1 [d'|e]] eqn:Es;
      cbn -[scanner].
    2:{ eapply tours_carte_leve; try eassumption. discriminate. }
    destruct (w_get w (S page)) as [[]|e] eqn:Eg; cbn -[scanner].
    2:{ eapply tours_get_leve; try eassumption. discriminate. }
    destruct (w_sleep w (S page)) as [[]|e] eqn:Esl; cbn -[scanner].
    2:{ eapply tours_sleep_leve; try eassumption. discriminate. }
    specialize (IH (S page) d').
    destruct (boucle objectif w fuel (S page) d') as [tr2 f]. cbn in IH.
    cbn -[scanner].
    eapply tours_suite; try eassumption. discriminate.
Qed.

End RobotTours.

Lemma firstn_firstn_app {A : Type} n : forall (l c : list A),
  firstn n (firstn n l ++ c) = firstn n (l ++ c).
Proof.
  induction n as [|n IH]; intros l c; [ reflexivity | ].
  destruct l as [|a l]; [ reflexivity | ].
  cbn. f_equal. apply IH.
Qed.

Lemma firstn_exact {A : Type} (l c : list A) : firstn (List.length l) (l ++ c) = l.
Proof.
  induction l as [|a l IH]; cbn; [ destruct c; reflexivity | f_equal; exact IH ].
Qed.

Lemma firstn_court {A : Type} n (l : list A) : List.length l <= n -> firstn n l = l.
Proof. apply firstn_all2. Qed.

Section RobotFaits.

Variable objectif : nat.

Lemma scanner_evenements page cartes : forall idx donnees tr r,
  scanner objectif page idx cartes donnees = (tr, r) -> Forall ev_carte tr.
Proof.
  induction cartes as [|c t IH]; intros idx donnees tr r H; cbn in H.
  - inversion H; subst. constructor.
  - destruct (extraire c) as [[o|]|[|]].
    + destruct (objectif <=? List.length (donnees ++ [o])).
      * inversion H; subst. repeat constructor.
      * destruct (scanner objectif page (S idx) t (donnees ++ [o])) as [tr' r'] eqn:Es.
        inversion H; subst. constructor; [ exact I | eapply IH; eassumption ].
    + destruct (scanner objectif page (S idx) t donnees) as [tr' r'] eqn:Es.
      inversion H; subst. constructor; [ exact I | eapply IH; eassumption ].
    + destruct (scanner objectif page (S idx) t donnees) as [tr' r'] eqn:Es.
      inversion H; subst. constructor; [ exact I | eapply IH; eassumption ].
    + inversion H; subst. repeat constructor.
Qed.

(** A page adds its readable offers, in the order of the cards, up to the
    target. *)
Lemma scanner_donnees page cartes : forall idx donnees tr d,
  List.length donnees < objectif ->
  scanner objectif page idx cartes donnees = (tr, Val d) ->
  d = firstn objectif (donnees ++ offres_lues cartes).
Proof.
  induction cartes as [|c t IH]; intros idx donnees tr d Hlt H; cbn in H.
  - inversion H; subst. cbn. rewrite app_nil_r.
    symmetry. apply firstn_court. lia.
  - unfold offres_lues. cbn [flat_map]. fold (offres_lues t).
    destruct (extraire c) as [[o|]|[|]].
    + destruct (objectif <=? List.length (donnees ++ [o])) eqn:E.
      * inversion H; subst. apply Nat.leb_le in E.
        rewrite length_app in E. cbn in E.
        assert (L : objectif = List.length (donnees ++ [o]))
          by (rewrite length_app; cbn; lia).
        change ([o] ++ offres_lues t) with ([o] ++ offres_lues t).
        rewrite app_assoc. rewrite L at 1. symmetry. apply firstn_exact.
      * apply Nat.leb_gt in E.
        destruct (scanner objectif page (S idx) t (donnees ++ [o])) as [tr' r] eqn:Es.
        inversion H; subst. rewrite app_assoc. eapply IH; eassumption.
    + destruct (scanner objectif page (S idx) t donnees) as [tr' r] eqn:Es.
      inversion H; subst. cbn [app]. eapply IH; eassumption.
    + destruct (scanner objectif page (S idx) t donnees) as [tr' r] eqn:Es.
      inversion H; subst. cbn [app]. eapply IH; eassumption.
    + inversion H.
Qed.

Variable w : world.

Lemma pages_examinees_app a b :
  pages_examinees (a ++ b) = pages_examinees a ++ pages_examinees b.
Proof. unfold pages_examinees. apply flat_map_app. Qed.

Lemma pages_demandees_app a b :
  pages_demandees (a ++ b) = pages_demandees a ++ pages_demandees b.
Proof. unfold pages_demandees. apply flat_map_app. Qed.

Lemma pages_cartes tr :
  Forall ev_carte tr -> pages_examinees tr = [] /\ pages_demandees tr = [].
Proof.
  induction 1 as [|e t He _ [IH1 IH2]]; [ split; reflexivity | ].
  destruct e; try contradiction. cbn. split; assumption.
Qed.

Lemma tours_borne page d tr f :
  tours objectif w page d tr f -> List.length d <= objectif -> borne objectif f.
Proof.
  induction 1; intros Hle; cbn; try exact I; try assumption; try lia.
  apply IHtours. eapply scanner_borne; eassumption.
Qed.

(** The accumulator at the end is made of the readable offers of the pages
    looked at, in the order of the pages and of the cards, cut at the
    target. *)
Lemma tours_donnees page d tr f :
  tours objectif w page d tr f -> List.length d <= objectif ->
  forall d', f = Termine d' \/ f = Inacheve d' ->
  d' = firstn objectif
         (d ++ flat_map (fun p => offres_lues (cartes_de w p)) (pages_examinees tr)).
Proof.
  induction 1; intros Hle d0 [E|E]; try discriminate E;
    try (inversion E; subst d0; cbn; rewrite ?app_nil_r;
         symmetry; apply firstn_court; lia).
  - inversion E; subst d0. cbn. unfold cartes_de. rewrite H0. cbn.
    rewrite app_nil_r. symmetry. apply firstn_court. lia.
  - pose proof (scanner_evenements _ _ _ _ _ _ H2) as Hev.
    apply pages_cartes in Hev as [Hev _].
    cbn [pages_examinees flat_map]. fold (pages_examinees (tr1 ++ [EvGet (S page); EvSleep] ++ tr2)).
    rewrite pages_examinees_app, Hev. cbn [app pages_examinees flat_map].
    fold (pages_examinees tr2).
    unfold cartes_de at 1. rewrite H0. cbn [ou_defaut].
    rewrite app_assoc, <- firstn_firstn_app.
    rewrite <- (scanner_donnees _ _ _ _ _ _ H H2).
    apply IHtours; [ eapply scanner_borne; eassumption | left; exact E ].
  - pose proof (scanner_evenements _ _ _ _ _ _ H2) as Hev.
    apply pages_cartes in Hev as [Hev _].
    cbn [pages_examinees flat_map]. fold (pages_examinees (tr1 ++ [EvGet (S page); EvSleep] ++ tr2)).
    rewrite pages_examinees_app, Hev. cbn [app pages_examinees flat_map].
    fold (pages_examinees tr2).
    unfold cartes_de at 1. rewrite H0. cbn [ou_defaut].
    rewrite app_assoc, <- firstn_firstn_app.
    rewrite <- (scanner_donnees _ _ _ _ _ _ H H2).
    apply IHtours; [ eapply scanner_borne; eassumption | right; exact E ].
Qed.

(** The pages are looked at and fetched one after the other. *)
Lemma tours_pages page d tr f :
  tours objectif w page d tr f ->
  exists k k',
    pages_examinees tr = seq page k /\ pages_demandees tr = seq (S page) k'
    /\ k' <= k <= S k'.
Proof.
  induction 1.
  - exists 0, 0. cbn. repeat split; lia.
  - exists 0, 0. cbn. repeat split; lia.
  - exists 1, 0. cbn. repeat split; lia.
  - exists 1, 0. cbn. repeat split; lia.
  - exists 1, 0.
    apply scanner_evenements, pages_cartes in H2 as [E1 E2].
    cbn. fold (pages_examinees tr1) (pages_demandees tr1). rewrite E1, E2.
    repeat split; lia.
  - exists 1, 1.
    apply scanner_evenements, pages_cartes in H2 as [E1 E2].
    cbn. fold (pages_examinees (tr1 ++ [EvGet (S page)]))
              (pages_demandees (tr1 ++ [EvGet (S page)])).
    rewrite pages_examinees_app, pages_demandees_app, E1, E2.
    repeat split; lia.
  - exists 1, 1.
    apply scanner_evenements, pages_cartes in H2 as [E1 E2].
    cbn. fold (pages_examinees (tr1 ++ [EvGet (S page); EvSleep]))
              (pages_demandees (tr1 ++ [EvGet (S page); EvSleep])).
    rewrite pages_examinees_app, pages_demandees_app, E1, E2.
    repeat split; lia.
  - destruct IHtours as (k & k' & Ek & Ek' & Hk).
    exists (S k), (S k').
    apply scanner_evenements, pages_cartes in H2 as [E1 E2].
    cbn [pages_examinees pages_demandees flat_map].
    fold (pages_examinees (tr1 ++ [EvGet (S page); EvSleep] ++ tr2))
         (pages_demandees (tr1 ++ [EvGet (S page); EvSleep] ++ tr2)).
    rewrite !pages_examinees_app, !pages_demandees_app, E1, E2.
    cbn [app pages_examinees pages_demandees flat_map].
    fold (pages_examinees tr2) (pages_demandees tr2).
    rewrite Ek, Ek'. repeat split; try reflexivity; lia.
Qed.

Lemma tours_evenements page d tr f :
  tours objectif w page d tr f -> Forall ev_boucle tr.
Proof.
  assert (C : forall tr, Forall ev_carte tr -> Forall ev_boucle tr).
  { intros t. apply Forall_impl. intros [] Ha; try contradiction; exact I. }
  induction 1; repeat constructor;
    try (apply Forall_app; split;
         [ apply C; eapply scanner_evenements; eassumption | ]);
    repeat constructor; try assumption.
  apply C. eapply scanner_evenements; eassumption.
Qed.

End RobotFaits.

Section RobotCourse.

Variable objectif : nat.
Variable w : world.

Lemma session_forme fuel :
  session objectif w fuel =
  match w_sleep w 1 with
  | Throw e => ([EvSleep; EvQuit], Leve e)
  | Val _ =>
      (EvSleep :: EvCookies :: fst (boucle objectif w fuel 1 [])
         ++ fermeture (snd (boucle objectif w fuel 1 [])),
       snd (boucle objectif w fuel 1 []))
  end.
Proof.
  unfold session. destruct (w_sleep w 1); [ | reflexivity ].
  destruct (boucle objectif w fuel 1 []) as [tr f]. cbn [fst snd].
  destruct f; cbn [fermeture]; rewrite ?app_nil_r; reflexivity.
Qed.

(** The shapes of a run. *)
Lemma run_formes fuel :
  (~ demarre w
   /\ exists e, snd (run objectif w fuel) = Leve e
      /\ ((fst (run objectif w fuel) = [EvChrome] /\ w_chrome w = Throw BaseException_)
          \/ (fst (run objectif w fuel) = [EvChrome; EvChromeService]
              /\ w_chrome w = Throw Exception_)))
  \/ (demarre w
      /\ exists tr0,
          ((tr0 = [EvChrome] /\ w_chrome w = Val tt)
           \/ (tr0 = [EvChrome; EvChromeService] /\ w_chrome w = Throw Exception_))
          /\ ((exists e, w_get w 1 = Throw e
                 /\ run objectif w fuel = (tr0 ++ [EvGet 1], Leve e))
              \/ (w_get w 1 = Val tt
                  /\ ((exists e, w_sleep w 1 = Throw e
                         /\ run objectif w fuel
                            = (tr0 ++ [EvGet 1; EvSleep; EvQuit], Leve e))
                      \/ (w_sleep w 1 = Val tt
                          /\ exists trb f,
                              boucle objectif w fuel 1 [] = (trb, f)
                              /\ run objectif w fuel
                                 = (tr0 ++ [EvGet 1; EvSleep; EvCookies] ++ trb
                                      ++ fermeture f ++ exporter f, f)))))).
Proof.
  assert (D : forall tr0,
    (exists e, w_get w 1 = Throw e
       /\ (match w_get w 1 with
           | Throw e => (tr0 ++ [EvGet 1], Leve e)
           | Val _ =>
               let '(tr, f) := session objectif w fuel in
               (tr0 ++ [EvGet 1] ++ tr ++ exporter f, f)
           end) = (tr0 ++ [EvGet 1], Leve e))
    \/ (w_get w 1 = Val tt
        /\ ((exists e, w_sleep w 1 = Throw e
               /\ (match w_get w 1 with
                   | Throw e => (tr0 ++ [EvGet 1], Leve e)
                   | Val _ =>
                       let '(tr, f) := session objectif w fuel in
                       (tr0 ++ [EvGet 1] ++ tr ++ exporter f, f)
                   end) = (tr0 ++ [EvGet 1; EvSleep; EvQuit], Leve e))
            \/ (w_sleep w 1 = Val tt
                /\ exists trb f,
                    boucle objectif w fuel 1 [] = (trb, f)
                    /\ (match w_get w 1 with
                        | Throw e => (tr0 ++ [EvGet 1], Leve e)
                        | Val _ =>
                            let '(tr, f) := session objectif w fuel in
                            (tr0 ++ [EvGet 1] ++ tr ++ exporter f, f)
                        end)
                       = (tr0 ++ [EvGet 1; EvSleep; EvCookies] ++ trb
                            ++ fermeture f ++ exporter f, f))))).
  { intros tr0. destruct (w_get w 1) as [[]|e] eqn:Eg.
    2:{ left. exists e. split; reflexivity. }
    right. split; [ reflexivity | ].
    rewrite session_forme.
    destruct (w_sleep w 1) as [[]|e] eqn:Es.
    - right. split; [ reflexivity | ].
      destruct (boucle objectif w fuel 1 []) as [trb f] eqn:Eb.
      exists trb, f. split; [ reflexivity | ]. cbn [fst snd].
      cbn [app]. rewrite <- !app_assoc. reflexivity.
    - left. exists e. split; [ reflexivity | ]. cbn [exporter app].
      reflexivity. }
  unfold run, demarre.
  destruct (w_chrome w) as [[]|[|]] eqn:Ec.
  - right. split; [ left; reflexivity | ].
    exists [EvChrome]. split; [ left; split; reflexivity | ]. apply D.
  - destruct (w_chrome_service w) as [[]|e] eqn:Ecs.
    + right. split; [ right; split; reflexivity | ].
      exists [EvChrome; EvChromeService].
      split; [ right; split; reflexivity | ]. apply D.
    + left. split.
      * intros [H|[_ H]]; discriminate.
      * exists e. split; [ reflexivity | ]. right. split; reflexivity.
  - left. split.
    + intros [H|[H _]]; discriminate.
    + exists BaseException_. split; [ reflexivity | ]. left. split; reflexivity.
Qed.

(** ** The pauses *)

Lemma pause_nil : pause_suit w [].
Proof. intros [|x a] p b H; discriminate. Qed.

Lemma pause_cons e t : ~ ev_get e -> pause_suit w t -> pause_suit w (e :: t).
Proof.
  intros He Ht [|x a] p b H Hg.
  - inversion H; subst. exfalso. apply He. exact I.
  - inversion H; subst. eapply Ht; [ reflexivity | exact Hg ].
Qed.

Lemma pause_app a t :
  Forall (fun e => ~ ev_get e) a -> pause_suit w t -> pause_suit w (a ++ t).
Proof.
  induction 1 as [|e a He _ IH]; intros Ht; [ exact Ht | ].
  cbn. apply pause_cons; [ exact He | apply IH; exact Ht ].
Qed.

Lemma pause_get_sleep p t : pause_suit w t -> pause_suit w (EvGet p :: EvSleep :: t).
Proof.
  intros Ht [|x a] q b H Hg.
  - inversion H; subst. eexists. reflexivity.
  - inversion H as [[E1 E2]]. clear H.
    destruct a as [|y a]; [ discriminate E2 | ].
    inversion E2; subst. eapply Ht; [ reflexivity | exact Hg ].
Qed.

Lemma pause_get_echec p e t :
  w_get w p = Throw e -> pause_suit w t -> pause_suit w (EvGet p :: t).
Proof.
  intros Hp Ht [|x a] q b H Hg.
  - inversion H; subst. rewrite Hp in Hg. discriminate.
  - inversion H; subst. eapply Ht; [ reflexivity | exact Hg ].
Qed.

Lemma cartes_sans_get tr : Forall ev_carte tr -> Forall (fun e => ~ ev_get e) tr.
Proof. apply Forall_impl. intros [] H; try contradiction; intros []. Qed.

Lemma tours_pause page d tr f :
  tours objectif w page d tr f -> forall t, pause_suit w t ->
  pause_suit w (tr ++ t).
Proof.
  induction 1; intros t Ht; cbn [app].
  - exact Ht.
  - exact Ht.
  - apply pause_cons; [ intros [] | exact Ht ].
  - apply pause_cons; [ intros [] | exact Ht ].
  - apply pause_cons; [ intros [] | ].
    apply pause_app; [ | exact Ht ].
    apply cartes_sans_get. eapply scanner_evenements; eassumption.
  - apply pause_cons; [ intros [] | ]. rewrite <- app_assoc.
    apply pause_app;
      [ apply cartes_sans_get; eapply scanner_evenements; eassumption | ].
    cbn [app]. eapply pause_get_echec; eassumption.
  - apply pause_cons; [ intros [] | ]. rewrite <- app_assoc.
    apply pause_app;
      [ apply cartes_sans_get; eapply scanner_evenements; eassumption | ].
    cbn [app]. apply pause_get_sleep. exact Ht.
  - apply pause_cons; [ intros [] | ]. rewrite <- app_assoc.
    apply pause_app;
      [ apply cartes_sans_get; eapply scanner_evenements; eassumption | ].
    cbn [app]. apply pause_get_sleep. apply IHtours. exact Ht.
Qed.

(** ** The first page without a card *)

Lemma tours_page_vide page d tr f p :
  tours objectif w page d tr f -> page <= p -> w_cartes w p = Val [] ->
  forall q, In q (pages_examinees tr) \/ In q (pages_demandees tr) -> q <= p.
Proof.
  induction 1; intros Hp Hv q Hq; cbn in Hq;
    try (destruct Hq as [[]|[]]; fail);
    try (destruct Hq as [[<-|[]]|[]]; exact Hp).
  - fold (pages_examinees tr1) (pages_demandees tr1) in Hq.
    apply scanner_evenements, pages_cartes in H2 as [E1 E2].
    rewrite E1, E2 in Hq. destruct Hq as [[<-|[]]|[]]. exact Hp.
  - assert (Hne : page <> p) by (intros ->; rewrite Hv in H0; inversion H0; subst; congruence).
    fold (pages_examinees (tr1 ++ [EvGet (S page)]))
         (pages_demandees (tr1 ++ [EvGet (S page)])) in Hq.
    rewrite pages_examinees_app, pages_demandees_app in Hq.
    apply scanner_evenements, pages_cartes in H2 as [E1 E2].
    rewrite E1, E2 in Hq. cbn in Hq.
    destruct Hq as [[<-|[]]|[<-|[]]]; lia.
  - assert (Hne : page <> p) by (intros ->; rewrite Hv in H0; inversion H0; subst; congruence).
    fold (pages_examinees (tr1 ++ [EvGet (S page); EvSleep]))
         (pages_demandees (tr1 ++ [EvGet (S page); EvSleep])) in Hq.
    rewrite pages_examinees_app, pages_demandees_app in Hq.
    apply scanner_evenements, pages_cartes in H2 as [E1 E2].
    rewrite E1, E2 in Hq. cbn in Hq.
    destruct Hq as [[<-|[]]|[<-|[]]]; lia.
  - assert (Hne : page <> p) by (intros ->; rewrite Hv in H0; inversion H0; subst; congruence).
    fold (pages_examinees (tr1 ++ [EvGet (S page); EvSleep] ++ tr2))
         (pages_demandees (tr1 ++ [EvGet (S page); EvSleep] ++ tr2)) in Hq.
    rewrite !pages_examinees_app, !pages_demandees_app in Hq.
    apply scanner_evenements, pages_cartes in H2 as [E1 E2].
    rewrite E1, E2 in Hq. cbn in Hq.
    fold (pages_examinees tr2) (pages_demandees tr2) in Hq.
    destruct Hq as [[<-|Hq]|[<-|Hq]]; try lia.
    + apply IHtours; [ lia | exact Hv | left; exact Hq ].
    + apply IHtours; [ lia | exact Hv | right; exact Hq ].
Qed.

Lemma boucle_finit p fuel : forall page d,
  w_cartes w p = Val [] -> page <= p -> p - page < fuel ->
  forall d', snd (boucle objectif w fuel page d) <> Inacheve d'.
Proof.
  induction fuel as [|fuel IH]; intros page d Hv Hp Hf d'; [ lia | ].
  cbn -[scanner Nat.leb].
  destruct (objectif <=? List.length d); [ discriminate | ].
  destruct (w_cartes w page) as [[|c cs]|e] eqn:Ec; cbn -[scanner];
    try discriminate.
  assert (Hne : page <> p) by (intros ->; rewrite Hv in Ec; discriminate).
  destruct (scanner objectif page 0 (c :: cs) d) as [tr1 [d1|e]];
    cbn -[scanner]; [ | discriminate ].
  destruct (w_get w (S page)); cbn -[scanner]; [ | discriminate ].
  destruct (w_sleep w (S page)); cbn -[scanner]; [ | discriminate ].
  specialize (IH (S page) d1 Hv ltac:(lia) ltac:(lia) d').
  destruct (boucle objectif w fuel (S page) d1). exact IH.
Qed.

(** ** The reasons of a normal end *)

Lemma tours_fin page d tr f :
  tours objectif w page d tr f -> List.length d <= objectif ->
  forall d', f = Termine d' ->
  List.length d' = objectif
  \/ exists k, pages_examinees tr = seq page (S k)
               /\ w_cartes w (page + k) = Val [].
Proof.
  induction 1; intros Hle d0 E; try discriminate E.
  - inversion E; subst. left. lia.
  - inversion E; subst. right. exists 0. rewrite Nat.add_0_r.
    split; [ reflexivity | assumption ].
  - destruct (IHtours ltac:(eapply scanner_borne; eassumption) d0 E)
      as [L|(k & Ek & Ev)]; [ left; exact L | ].
    right. exists (S k).
    apply scanner_evenements, pages_cartes in H2 as [E1 E2].
    cbn [pages_examinees flat_map].
    fold (pages_examinees (tr1 ++ [EvGet (S page); EvSleep] ++ tr2)).
    rewrite !pages_examinees_app, E1. cbn [app pages_examinees flat_map].
    fold (pages_examinees tr2). rewrite Ek.
    split; [ reflexivity | ].
    replace (page + S k) with (S page + k) by lia. exact Ev.
Qed.

(** ** The pages without a readable card *)

Lemma scanner_sautees page cartes : forall idx d,
  Forall carte_sautee cartes ->
  exists tr, scanner objectif page idx cartes d = (tr, Val d).
Proof.
  induction cartes as [|c t IH]; intros idx d H.
  - eexists. reflexivity.
  - inversion H as [|? ? Hc Ht]; subst.
    destruct (IH (S idx) d Ht) as [tr E].
    exists (EvCarte page idx :: tr). cbn. destruct Hc as [-> | ->]; rewrite E; reflexivity.
Qed.

Lemma boucle_sans_offre :
  0 < objectif ->
  (forall p, w_get w p = Val tt) -> (forall p, w_sleep w p = Val tt) ->
  (forall p, exists c cs,
      w_cartes w p = Val (c :: cs) /\ Forall carte_sautee (c :: cs)) ->
  forall fuel page,
    snd (boucle objectif w fuel page []) = Inacheve []
    /\ pages_demandees (fst (boucle objectif w fuel page [])) = seq (S page) fuel.
Proof.
  intros Ho Hg Hs Hc. induction fuel as [|fuel IH]; intros page.
  - cbn -[Nat.leb]. destruct (Nat.leb_spec objectif 0); [ lia | ].
    split; reflexivity.
  - cbn -[scanner Nat.leb]. destruct (Nat.leb_spec objectif 0); [ lia | ].
    destruct (Hc page) as (c & cs & -> & Hk).
    destruct (scanner_sautees page (c :: cs) 0 [] Hk) as [tr1 E1].
    rewrite E1, Hg, Hs.
    destruct (IH (S page)) as [I1 I2].
    destruct (boucle objectif w fuel (S page) []) as [tr2 f].
    cbn [fst snd] in *. split; [ exact I1 | ].
    cbn [pages_demandees flat_map].
    fold (pages_demandees (tr1 ++ [EvGet (S page); EvSleep] ++ tr2)).
    rewrite !pages_demandees_app.
    apply scanner_evenements, pages_cartes in E1 as [_ E1]. rewrite E1.
    cbn [app pages_demandees flat_map]. fold (pages_demandees tr2).
    rewrite I2. reflexivity.
Qed.

End RobotCourse.

Lemma pages_fin f :
  pages_examinees (fermeture f ++ exporter f) = []
  /\ pages_demandees (fermeture f ++ exporter f) = [].
Proof. destruct f as [[|o d]| |]; split; reflexivity. Qed.

Lemma pause_fin w f : pause_suit w (fermeture f ++ exporter f).
Proof.
  destruct f as [[|o d]| |]; cbn;
    repeat (apply pause_cons; [ intros [] | ]); apply pause_nil.
Qed.

Ltac formes w fuel :=
  unfold lancer_scraping_france;
  destruct (run_formes OBJECTIF w fuel)
    as [(Hnd & e & Ef & [[Et Ec]|[Et Ec]])
       |(Hd & tr0 & Htr0 &
         [(e & Eg & Er)
         |(Eg & [(e & Es & Er)|(Es & trb & f & Eb & Er)])])].

(** X1.  When the browser has started and the first fetch has succeeded,
    a run that ends, by a return or by an exception, calls
    [driver.quit()] once, after every other call to the browser, and
    only the export of the file may follow; in any other run
    [driver.quit()] is not called. *)
Theorem navigateur_ferme_une_fois w fuel :
  (demarre w -> w_get w 1 = Val tt ->
   (forall d, snd (lancer_scraping_france w fuel) <> Inacheve d) ->
   exists avant,
     fst (lancer_scraping_france w fuel)
     = avant ++ EvQuit :: exporter (snd (lancer_scraping_france w fuel))
     /\ ~ In EvQuit avant)
  /\ (~ (demarre w /\ w_get w 1 = Val tt) ->
      ~ In EvQuit (fst (lancer_scraping_france w fuel))).
Proof.
  split.
  - intros Hdem Hget Hfin. revert Hfin. formes w fuel.
    + contradiction.
    + contradiction.
    + rewrite Hget in Eg. discriminate.
    + intros _. rewrite Er. cbn [fst snd exporter].
      exists (tr0 ++ [EvGet 1; EvSleep]). split.
      * rewrite <- app_assoc. reflexivity.
      * intros H. apply in_app_or in H as [H|H].
        -- destruct Htr0 as [[-> _]|[-> _]]; cbn in H;
             repeat (destruct H as [H|H]; [ discriminate H | ]); exact H.
        -- cbn in H.
           repeat (destruct H as [H|H]; [ discriminate H | ]); exact H.
    + rewrite Er. cbn [fst snd]. intros Hfin.
      exists (tr0 ++ [EvGet 1; EvSleep; EvCookies] ++ trb). split.
      * rewrite <- !app_assoc. cbn [app]. repeat f_equal.
        destruct f; cbn [fermeture app]; try reflexivity.
        exfalso. eapply Hfin. reflexivity.
      * pose proof (boucle_tours OBJECTIF w fuel 1 []) as T.
        rewrite Eb in T. cbn [fst snd] in T.
        apply tours_evenements in T.
        intros H. apply in_app_or in H as [H|H].
        -- destruct Htr0 as [[-> _]|[-> _]]; cbn in H;
             repeat (destruct H as [H|H]; [ discriminate H | ]); exact H.
        -- cbn in H.
           repeat (destruct H as [H|H]; [ discriminate H | ]).
           rewrite Forall_forall in T. apply (T _ H).
  - intros Hn. formes w fuel.
    + rewrite Et. cbn. intros [H|[]]; discriminate.
    + rewrite Et. cbn. intros [H|[H|[]]]; discriminate.
    + rewrite Er. cbn [fst].
      intros H. apply in_app_or in H as [H|H].
      * destruct Htr0 as [[-> _]|[-> _]]; cbn in H;
          repeat (destruct H as [H|H]; [ discriminate H | ]); exact H.
      * cbn in H. destruct H as [H|[]]. discriminate.
    + exfalso. apply Hn. split; assumption.
    + exfalso. apply Hn. split; assumption.
Qed.

Lemma navigateur_ferme_une_fois_witness :
  exists avant,
    fst (lancer_scraping_france monde_une_page 3)
    = avant ++ EvQuit :: exporter (snd (lancer_scraping_france monde_une_page 3))
    /\ ~ In EvQuit avant.
Proof.
  apply (proj1 (navigateur_ferme_une_fois monde_une_page 3)).
  - left. reflexivity.
  - reflexivity.
  - intros d H. vm_compute in H. discriminate.
Defined.

(** X2.  The file is written in the runs that end by a return with one
    offer at least, and in no other; it holds as many rows as offers
    gathered.  A run that ends by an exception writes nothing, whatever
    it had gathered. *)
Theorem export_des_donnees w fuel n :
  In (EvCsv n) (fst (lancer_scraping_france w fuel))
  <-> exists d, snd (lancer_scraping_france w fuel) = Termine d
                /\ d <> [] /\ n = List.length d.
Proof.
  formes w fuel.
  - rewrite Et, Ef. cbn. split.
    + intros [H|[]]; discriminate.
    + intros (d & H & _); discriminate.
  - rewrite Et, Ef. cbn. split.
    + intros [H|[H|[]]]; discriminate.
    + intros (d & H & _); discriminate.
  - rewrite Er. cbn [fst snd]. split.
    + intros H. exfalso. apply in_app_or in H as [H|H].
      * destruct Htr0 as [[-> _]|[-> _]]; cbn in H;
          repeat (destruct H as [H|H]; [ discriminate H | ]); exact H.
      * cbn in H. destruct H as [H|[]]. discriminate.
    + intros (d & H & _); discriminate.
  - rewrite Er. cbn [fst snd]. split.
    + intros H. exfalso. apply in_app_or in H as [H|H].
      * destruct Htr0 as [[-> _]|[-> _]]; cbn in H;
          repeat (destruct H as [H|H]; [ discriminate H | ]); exact H.
      * cbn in H. repeat (destruct H as [H|H]; [ discriminate H | ]). exact H.
    + intros (d & H & _); discriminate.
  - rewrite Er. cbn [fst snd].
    pose proof (boucle_tours OBJECTIF w fuel 1 []) as T.
    rewrite Eb in T. cbn [fst snd] in T.
    apply tours_evenements in T. rewrite Forall_forall in T.
    split.
    + intros H. apply in_app_or in H as [H|H].
      { exfalso. destruct Htr0 as [[-> _]|[-> _]]; cbn in H;
          repeat (destruct H as [H|H]; [ discriminate H | ]); exact H. }
      cbn [app] in H.
      repeat (destruct H as [H|H]; [ discriminate H | ]).
      apply in_app_or in H as [H|H]; [ exfalso; apply (T _ H) | ].
      apply in_app_or in H as [H|H].
      { exfalso. destruct f; cbn in H;
          repeat (destruct H as [H|H]; [ discriminate H | ]); exact H. }
      destruct f as [[|o d]| |]; cbn in H; try contradiction.
      destruct H as [H|[]]. inversion H; subst.
      exists (o :: d). split; [ reflexivity | ]. split; [ discriminate | reflexivity ].
    + intros (d & -> & Hne & ->).
      apply in_or_app. right. cbn [app]. do 3 right.
      apply in_or_app. right. apply in_or_app. right.
      destruct d as [|o d]; [ congruence | ]. left. reflexivity.
Qed.

(** X3.  What a run has gathered when it stops, by a return or by the
    cut of the model, is the list of the readable offers of the pages it
    has looked at, in the order of the pages and of the cards of each
    page, cut at [OBJECTIF] offers: a card that raises an exception or
    has no title is passed over, and no offer is moved, repeated or
    left out before the cut. *)
Theorem donnees_dans_l_ordre w fuel d :
  snd (lancer_scraping_france w fuel) = Termine d
  \/ snd (lancer_scraping_france w fuel) = Inacheve d ->
  d = firstn OBJECTIF
        (flat_map (fun p => offres_lues (cartes_de w p))
                  (pages_examinees (fst (lancer_scraping_france w fuel)))).
Proof.
  formes w fuel.
  - rewrite Ef. intros [H|H]; discriminate.
  - rewrite Ef. intros [H|H]; discriminate.
  - rewrite Er. intros [H|H]; discriminate.
  - rewrite Er. intros [H|H]; discriminate.
  - rewrite Er. cbn [fst snd]. intros H.
    pose proof (boucle_tours OBJECTIF w fuel 1 []) as T.
    rewrite Eb in T. cbn [fst snd] in T.
    pose proof (tours_donnees _ _ _ _ _ _ T (Nat.le_0_l _) d H) as D.
    cbn [app] in D.
    rewrite !pages_examinees_app.
    rewrite <- pages_examinees_app with (a := fermeture f).
    rewrite (proj1 (pages_fin f)), app_nil_r.
    replace (pages_examinees tr0) with (@nil nat)
      by (destruct Htr0 as [[-> _]|[-> _]]; reflexivity).
    exact D.
Qed.

Lemma donnees_dans_l_ordre_witness :
  snd (lancer_scraping_france monde_une_page 3)
  = Termine (firstn OBJECTIF
               (flat_map (fun p => offres_lues (cartes_de monde_une_page p))
                         (pages_examinees
                            (fst (lancer_scraping_france monde_une_page 3))))).
Proof.
  assert (E : exists d, snd (lancer_scraping_france monde_une_page 3) = Termine d).
  { eexists. vm_compute. reflexivity. }
  destruct E as [d E]. rewrite E at 1. f_equal.
  apply (donnees_dans_l_ordre monde_une_page 3 d). left. exact E.
Defined.

(** X4.  The robot fetches the pages 1, 2, 3, ... in that order, each
    once, and looks at the cards of the pages 1, 2, 3, ... in that
    order, each once; it looks at a page only after it has fetched it,
    and it fetches at most one page beyond the last it has looked at. *)
Theorem pages_dans_l_ordre w fuel :
  exists k k',
    pages_demandees (fst (lancer_scraping_france w fuel)) = seq 1 k
    /\ pages_examinees (fst (lancer_scraping_france w fuel)) = seq 1 k'
    /\ k' <= k <= S k'.
Proof.
  formes w fuel.
  - rewrite Et. exists 0, 0. repeat split; lia.
  - rewrite Et. exists 0, 0. repeat split; lia.
  - rewrite Er. cbn [fst]. exists 1, 0.
    rewrite pages_demandees_app, pages_examinees_app.
    destruct Htr0 as [[-> _]|[-> _]]; repeat split; lia.
  - rewrite Er. cbn [fst]. exists 1, 0.
    rewrite pages_demandees_app, pages_examinees_app.
    destruct Htr0 as [[-> _]|[-> _]]; repeat split; lia.
  - rewrite Er. cbn [fst].
    pose proof (boucle_tours OBJECTIF w fuel 1 []) as T.
    rewrite Eb in T. cbn [fst snd] in T.
    destruct (tours_pages _ _ _ _ _ _ T) as (k' & k & E1 & E2 & Hk).
    exists (S k), k'.
    rewrite !pages_demandees_app, !pages_examinees_app.
    rewrite <- pages_demandees_app with (a := fermeture f).
    rewrite <- pages_examinees_app with (a := fermeture f).
    rewrite (proj1 (pages_fin f)), (proj2 (pages_fin f)), !app_nil_r.
    rewrite E1, E2.
    destruct Htr0 as [[-> _]|[-> _]]; repeat split; lia.
Qed.

(** X5.  Every fetch of a page that succeeds is followed at once by a
    pause: the robot never sends two requests to the site without a
    call of [time.sleep] between them. *)
Theorem pause_apres_chaque_page w fuel a p b :
  fst (lancer_scraping_france w fuel) = a ++ EvGet p :: b ->
  w_get w p = Val tt ->
  exists b', b = EvSleep :: b'.
Proof.
  revert a p b. change (pause_suit w (fst (lancer_scraping_france w fuel))).
  formes w fuel.
  - rewrite Et. apply pause_cons; [ intros [] | apply pause_nil ].
  - rewrite Et. repeat (apply pause_cons; [ intros [] | ]). apply pause_nil.
  - rewrite Er. cbn [fst]. apply pause_app.
    + destruct Htr0 as [[-> _]|[-> _]]; repeat constructor; intros [].
    + eapply pause_get_echec; [ exact Eg | apply pause_nil ].
  - rewrite Er. cbn [fst]. apply pause_app.
    + destruct Htr0 as [[-> _]|[-> _]]; repeat constructor; intros [].
    + apply pause_get_sleep. apply pause_cons; [ intros [] | apply pause_nil ].
  - rewrite Er. cbn [fst]. apply pause_app.
    + destruct Htr0 as [[-> _]|[-> _]]; repeat constructor; intros [].
    + cbn [app]. apply pause_get_sleep. apply pause_cons; [ intros [] | ].
      pose proof (boucle_tours OBJECTIF w fuel 1 []) as T.
      rewrite Eb in T. cbn [fst snd] in T.
      apply (tours_pause _ _ _ _ _ _ T). apply pause_fin.
Qed.

Lemma pause_apres_chaque_page_witness :
  exists b',
    [EvFindCartes 2; EvQuit; EvCsv 1] = EvSleep :: b'
    \/ [EvSleep; EvFindCartes 2; EvQuit; EvCsv 1] = EvSleep :: b'.
Proof.
  destruct (pause_apres_chaque_page monde_une_page 3
              [EvChrome; EvGet 1; EvSleep; EvCookies; EvFindCartes 1;
               EvCarte 1 0; EvCarte 1 1]
              2 [EvSleep; EvFindCartes 2; EvQuit; EvCsv 1]) as [b' E].
  - vm_compute. reflexivity.
  - reflexivity.
  - exists b'. right. exact E.
Defined.

(** X6.  A run ends by a return for one of two reasons only: it holds
    exactly [OBJECTIF] offers, or the last page it has looked at shows
    no card. *)
Theorem fin_normale w fuel d :
  snd (lancer_scraping_france w fuel) = Termine d ->
  List.length d = OBJECTIF
  \/ exists k,
       pages_examinees (fst (lancer_scraping_france w fuel)) = seq 1 (S k)
       /\ w_cartes w (S k) = Val [].
Proof.
  formes w fuel.
  - rewrite Ef. discriminate.
  - rewrite Ef. discriminate.
  - rewrite Er. discriminate.
  - rewrite Er. discriminate.
  - rewrite Er. cbn [fst snd]. intros H.
    pose proof (boucle_tours OBJECTIF w fuel 1 []) as T.
    rewrite Eb in T. cbn [fst snd] in T.
    destruct (tours_fin _ _ _ _ _ _ T (Nat.le_0_l _) d H) as [L|(k & Ek & Ev)];
      [ left; exact L | right ].
    exists k. split; [ | exact Ev ].
    rewrite !pages_examinees_app.
    rewrite <- pages_examinees_app with (a := fermeture f).
    rewrite (proj1 (pages_fin f)), app_nil_r.
    replace (pages_examinees tr0) with (@nil nat)
      by (destruct Htr0 as [[-> _]|[-> _]]; reflexivity).
    exact Ek.
Qed.

Lemma fin_normale_witness :
  List.length donnees_une_page = OBJECTIF
  \/ exists k,
       pages_examinees (fst (lancer_scraping_france monde_une_page 3))
       = seq 1 (S k)
       /\ w_cartes monde_une_page (S k) = Val [].
Proof.
  apply (fin_normale monde_une_page 3). vm_compute. reflexivity.
Defined.

(** X7.  The robot goes no further than the first page without a card:
    it neither fetches nor looks at a page beyond it, and it has ended
    once that page is within reach. *)
Theorem arret_a_la_page_vide w fuel p :
  1 <= p -> w_cartes w p = Val [] ->
  (forall q, In q (pages_examinees (fst (lancer_scraping_france w fuel)))
             \/ In q (pages_demandees (fst (lancer_scraping_france w fuel))) ->
             q <= p)
  /\ (p <= fuel ->
      forall d, snd (lancer_scraping_france w fuel) <> Inacheve d).
Proof.
  intros Hp Hv. formes w fuel.
  - rewrite Et, Ef. split; [ | discriminate ]. cbn. intros q [[]|[]].
  - rewrite Et, Ef. split; [ | discriminate ]. cbn. intros q [[]|[]].
  - rewrite Er. cbn [fst snd]. split; [ | discriminate ].
    intros q. rewrite pages_examinees_app, pages_demandees_app.
    destruct Htr0 as [[-> _]|[-> _]]; cbn; intros [[]|[<-|[]]]; exact Hp.
  - rewrite Er. cbn [fst snd]. split; [ | discriminate ].
    intros q. rewrite pages_examinees_app, pages_demandees_app.
    destruct Htr0 as [[-> _]|[-> _]]; cbn; intros [[]|[<-|[]]]; exact Hp.
  - rewrite Er. cbn [fst snd].
    pose proof (boucle_tours OBJECTIF w fuel 1 []) as T.
    rewrite Eb in T. cbn [fst snd] in T.
    split.
    + intros q.
      rewrite !pages_examinees_app, !pages_demandees_app.
      rewrite <- pages_examinees_app with (a := fermeture f).
      rewrite <- pages_demandees_app with (a := fermeture f).
      rewrite (proj1 (pages_fin f)), (proj2 (pages_fin f)), !app_nil_r.
      replace (pages_examinees tr0) with (@nil nat)
        by (destruct Htr0 as [[-> _]|[-> _]]; reflexivity).
      replace (pages_demandees tr0) with (@nil nat)
        by (destruct Htr0 as [[-> _]|[-> _]]; reflexivity).
      cbn [app pages_examinees pages_demandees flat_map].
      fold (pages_demandees trb).
      intros [H|[<-|H]]; try exact Hp.
      * apply (tours_page_vide _ _ _ _ _ _ p T Hp Hv). left. exact H.
      * apply (tours_page_vide _ _ _ _ _ _ p T Hp Hv). right. exact H.
    + intros Hf d.
      pose proof (boucle_finit OBJECTIF w p fuel 1 [] Hv Hp ltac:(lia) d) as B.
      rewrite Eb in B. exact B.
Qed.

Lemma arret_a_la_page_vide_witness :
  (forall q, In q (pages_examinees (fst (lancer_scraping_france monde_une_page 3)))
             \/ In q (pages_demandees (fst (lancer_scraping_france monde_une_page 3))) ->
             q <= 2)
  /\ (2 <= 3 ->
      forall d, snd (lancer_scraping_france monde_une_page 3) <> Inacheve d).
Proof.
  apply (arret_a_la_page_vide monde_une_page 3 2).
  - lia.
  - reflexivity.
Defined.

(** X8.  Nothing bounds the number of pages: on a site whose pages all
    show cards and none that the robot can read, the robot gathers
    nothing and goes on for ever; cut after any number of pages, it has
    fetched them all and is about to go on. *)
Theorem sans_offre_sans_fin w fuel :
  demarre w ->
  (forall p, w_get w p = Val tt) -> (forall p, w_sleep w p = Val tt) ->
  (forall p, exists c cs,
      w_cartes w p = Val (c :: cs) /\ Forall carte_sautee (c :: cs)) ->
  snd (lancer_scraping_france w fuel) = Inacheve []
  /\ pages_demandees (fst (lancer_scraping_france w fuel)) = seq 1 (S fuel).
Proof.
  intros Hdem Hg Hs Hc.
  assert (Ho : 0 < OBJECTIF) by (unfold OBJECTIF; lia).
  destruct (boucle_sans_offre OBJECTIF w Ho Hg Hs Hc fuel 1) as [B1 B2].
  formes w fuel.
  - contradiction.
  - contradiction.
  - rewrite Hg in Eg. discriminate.
  - rewrite Hs in Es. discriminate.
  - rewrite Er. cbn [fst snd]. rewrite Eb in B1, B2. cbn [fst snd] in B1, B2.
    split; [ exact B1 | ].
    rewrite !pages_demandees_app.
    rewrite <- pages_demandees_app with (a := fermeture f).
    rewrite (proj2 (pages_fin f)), app_nil_r.
    replace (pages_demandees tr0) with (@nil nat)
      by (destruct Htr0 as [[-> _]|[-> _]]; reflexivity).
    cbn [app pages_demandees flat_map]. fold (pages_demandees trb).
    rewrite B2. reflexivity.
Qed.

Lemma sans_offre_sans_fin_witness :
  snd (lancer_scraping_france monde_sans_titre 7) = Inacheve []
  /\ pages_demandees (fst (lancer_scraping_france monde_sans_titre 7))
     = seq 1 8.
Proof.
  apply (sans_offre_sans_fin monde_sans_titre 7).
  - left. reflexivity.
  - reflexivity.
  - reflexivity.
  - intros p. exists carte_sans_titre, []. split; [ reflexivity | ].
    constructor; [ left; vm_compute; reflexivity | constructor ].
Defined.

(** X9.  The second attempt to start the browser, with a [Service], is
    made when the first raises an [Exception] and only then; the first
    page is fetched when the browser has started and only then; and a
    run whose browser has not started ends by an exception. *)
Theorem demarrage_du_navigateur w fuel :
  (In EvChromeService (fst (lancer_scraping_france w fuel))
   <-> w_chrome w = Throw Exception_)
  /\ (In (EvGet 1) (fst (lancer_scraping_france w fuel)) <-> demarre w)
  /\ (~ demarre w ->
      exists e, snd (lancer_scraping_france w fuel) = Leve e).
Proof.
  assert (P : forall tr0 t,
             (tr0 = [EvChrome] /\ w_chrome w = Val tt)
             \/ (tr0 = [EvChrome; EvChromeService]
                 /\ w_chrome w = Throw Exception_) ->
             ~ In EvChromeService t ->
             (In EvChromeService (tr0 ++ EvGet 1 :: t)
              <-> w_chrome w = Throw Exception_)
             /\ In (EvGet 1) (tr0 ++ EvGet 1 :: t)).
  { intros tr0 t Htr0 Ht. split; [ split | ].
    - intros H. destruct Htr0 as [[-> Ec]|[-> Ec]]; [ exfalso | exact Ec ].
      cbn in H. repeat (destruct H as [H|H]; [ discriminate H | ]).
      exact (Ht H).
    - intros Ec. destruct Htr0 as [[-> Ec']|[-> Ec']]; [ congruence | ].
      right. left. reflexivity.
    - apply in_or_app. right. left. reflexivity. }
  formes w fuel.
  - rewrite Et, Ef, Ec. split; [ split | split; [ split | ] ].
    + intros [H|[]]; discriminate.
    + discriminate.
    + intros [H|[]]; discriminate.
    + intros H. contradiction.
    + intros _. eexists. reflexivity.
  - rewrite Et, Ef, Ec. split; [ split | split; [ split | ] ].
    + intros _. reflexivity.
    + intros _. right. left. reflexivity.
    + intros [H|[H|[]]]; discriminate.
    + intros H. contradiction.
    + intros _. eexists. reflexivity.
  - rewrite Er. cbn [fst snd].
    destruct (P tr0 [] Htr0 ltac:(intros [])) as [P1 P2].
    split; [ exact P1 | split; [ split | ] ].
    + intros _. exact Hd.
    + intros _. exact P2.
    + intros H. contradiction.
  - rewrite Er. cbn [fst snd].
    destruct (P tr0 [EvSleep; EvQuit] Htr0) as [P1 P2].
    { cbn. intros H.
      repeat (destruct H as [H|H]; [ discriminate H | ]). exact H. }
    split; [ exact P1 | split; [ split | ] ].
    + intros _. exact Hd.
    + intros _. exact P2.
    + intros H. contradiction.
  - rewrite Er. cbn [fst snd].
    pose proof (boucle_tours OBJECTIF w fuel 1 []) as T.
    rewrite Eb in T. cbn [fst snd] in T.
    apply tours_evenements in T. rewrite Forall_forall in T.
    destruct (P tr0 ([EvSleep; EvCookies] ++ trb ++ fermeture f ++ exporter f)
                Htr0) as [P1 P2].
    { cbn. intros H.
      repeat (destruct H as [H|H]; [ discriminate H | ]).
      apply in_app_or in H as [H|H]; [ apply (T _ H) | ].
      apply in_app_or in H as [H|H].
      * destruct f; cbn in H;
          repeat (destruct H as [H|H]; [ discriminate H | ]); exact H.
      * destruct f as [[|o d]| |]; cbn in H;
          repeat (destruct H as [H|H]; [ discriminate H | ]); exact H. }
    split; [ exact P1 | split; [ split | ] ].
    + intros _. exact Hd.
    + intros _. exact P2.
    + intros H. contradiction.
Qed.

Lemma demarrage_du_navigateur_witness :
  exists e, snd (lancer_scraping_france monde_sans_navigateur 3) = Leve e.
Proof.
  apply (proj2 (proj2 (demarrage_du_navigateur monde_sans_navigateur 3))).
  intros [H|[H _]]; discriminate H.
Defined.

(* ================================================================== *)
(** * Further properties of the cards *)
(* ================================================================== *)

Section Strip.

Lemma drop_space_suffixe s :
  exists pre, s = pre ++ drop_space s /\ Forall (fun c => is_space c = true) pre.
Proof.
  induction s as [|c t (pre & E & F)]; cbn.
  - exists []. split; [ reflexivity | constructor ].
  - destruct (is_space c) eqn:Ec.
    + exists (c :: pre). split; [ cbn; f_equal; exact E | constructor; assumption ].
    + exists []. split; [ reflexivity | constructor ].
Qed.

Lemma drop_space_bord s : bord (drop_space s).
Proof.
  induction s as [|c t IH]; cbn; [ exact I | ].
  destruct (is_space c) eqn:Ec; [ exact IH | exact Ec ].
Qed.

Lemma drop_space_fixe s : bord s -> drop_space s = s.
Proof. destruct s as [|c t]; cbn; [ reflexivity | intros ->; reflexivity ]. Qed.

Lemma bord_rev_drop a : bord a -> bord (rev (drop_space (rev a))).
Proof.
  intros Ha. destruct (drop_space_suffixe (rev a)) as (pre & E & _).
  apply (f_equal (@rev char)) in E. rewrite rev_involutive, rev_app_distr in E.
  destruct (rev (drop_space (rev a))) as [|c t]; [ exact I | ].
  rewrite E in Ha. exact Ha.
Qed.

Lemma strip_bords s : bord (strip s) /\ bord (rev (strip s)).
Proof.
  unfold strip. split.
  - apply bord_rev_drop. apply drop_space_bord.
  - rewrite rev_involutive. apply drop_space_bord.
Qed.

Lemma strip_fixe s : bord s -> bord (rev s) -> strip s = s.
Proof.
  intros H1 H2. unfold strip.
  rewrite (drop_space_fixe s H1), (drop_space_fixe _ H2).
  apply rev_involutive.
Qed.

Lemma strip_idem s : strip (strip s) = strip s.
Proof. apply strip_fixe; apply strip_bords. Qed.

Lemma strip_forme s :
  exists pre post,
    s = pre ++ strip s ++ post
    /\ Forall (fun c => is_space c = true) pre
    /\ Forall (fun c => is_space c = true) post.
Proof.
  unfold strip.
  destruct (drop_space_suffixe s) as (pre & E1 & F1).
  destruct (drop_space_suffixe (rev (drop_space s))) as (post & E2 & F2).
  exists pre, (rev post). split; [ | split ].
  - rewrite <- rev_app_distr, <- E2, rev_involutive. exact E1.
  - exact F1.
  - apply Forall_rev. exact F2.
Qed.

Lemma in_strip c s : In c (strip s) -> In c s.
Proof.
  destruct (strip_forme s) as (pre & post & E & _).
  intros H. rewrite E. apply in_or_app. right. apply in_or_app. left. exact H.
Qed.

Lemma strip_garde c s : In c s -> is_space c = false -> In c (strip s).
Proof.
  destruct (strip_forme s) as (pre & post & E & F1 & F2).
  intros H Hc. rewrite E in H.
  rewrite Forall_forall in F1, F2.
  apply in_app_or in H as [H|H]; [ rewrite (F1 _ H) in Hc; discriminate | ].
  apply in_app_or in H as [H|H]; [ exact H | ].
  rewrite (F2 _ H) in Hc; discriminate.
Qed.

End Strip.

Section Cartes.

Lemma contains_in c s : contains [c] s = true <-> In c s.
Proof.
  induction s as [|x t IH]; cbn.
  - split; [ discriminate | intros [] ].
  - rewrite orb_true_iff, andb_true_iff, IH, eqc_eq.
    split.
    + intros [[E _]|H]; [ left; symmetry; exact E | right; exact H ].
    + intros [E|H]; [ left; split; [ symmetry; exact E | destruct t; reflexivity ]
                    | right; exact H ].
Qed.

Lemma contains_pas c s : contains [c] s = false <-> ~ In c s.
Proof.
  rewrite <- contains_in. destruct (contains [c] s); split; congruence.
Qed.

Lemma runs_classe p e : forall pv s,
  In e (runs p pv s) ->
  exists pre, s = pre ++ rest e /\ Forall (fun c => p c = true) pre.
Proof.
  intros pv s. revert pv. induction s as [|c t IH]; intros pv H; cbn in H.
  - destruct H as [<-|[]]. exists []. split; [ reflexivity | constructor ].
  - destruct H as [<-|H].
    + exists []. split; [ reflexivity | constructor ].
    + destruct (p c) eqn:Ec; [ | destruct H ].
      destruct (IH _ H) as (pre & E & F).
      exists (c :: pre). split; [ cbn; f_equal; exact E | constructor; assumption ].
Qed.

Lemma runs_non_vide p pv s : runs p pv s <> [].
Proof. destruct s; discriminate. Qed.

Lemma app_sans_gauche {A : Type} (c : A) l1 : forall l2 x y,
  l1 ++ l2 = x ++ c :: y -> ~ In c l1 ->
  exists t, x = l1 ++ t /\ l2 = t ++ c :: y.
Proof.
  induction l1 as [|a l1 IH]; intros l2 x y E Hn.
  - exists x. split; [ reflexivity | exact E ].
  - destruct x as [|b x]; cbn in E; inversion E; subst.
    + exfalso. apply Hn. left. reflexivity.
    + destruct (IH _ _ _ H1) as (t & -> & ->).
      * intros H. apply Hn. right. exact H.
      * exists t. split; reflexivity.
Qed.

Lemma app_sans_droite {A : Type} (c : A) l1 l2 x y :
  l1 ++ l2 = x ++ c :: y -> ~ In c l2 ->
  exists t, y = t ++ l2 /\ l1 = x ++ c :: t.
Proof.
  intros E Hn.
  apply (f_equal (@rev A)) in E.
  rewrite !rev_app_distr in E. cbn in E. rewrite <- app_assoc in E. cbn in E.
  destruct (app_sans_gauche c (rev l2) (rev l1) (rev y) (rev x) E) as (t & E1 & E2).
  { intros H. apply in_rev in H. exact (Hn H). }
  exists (rev t). split.
  - apply (f_equal (@rev A)) in E1. rewrite rev_involutive, rev_app_distr, rev_involutive in E1.
    exact E1.
  - apply (f_equal (@rev A)) in E2. rewrite rev_involutive, rev_app_distr in E2.
    cbn in E2. rewrite rev_involutive, <- app_assoc in E2. exact E2.
Qed.

Lemma euro_pas_espace : chiffre_ou_espace 8364%N = false.
Proof. reflexivity. Qed.

(** The shape of a match of the pattern of the salary. *)
Lemma ends_re_salaire pv s e :
  In e (ends false re_salaire (Cursor pv s)) ->
  exists x y,
    s = x ++ 8364%N :: y ++ rest e
    /\ Forall (fun c => chiffre_ou_espace c = true) x
    /\ Forall (fun c => dot c = true) y.
Proof.
  unfold re_salaire. cbn [cat].
  intros H. apply in_ends_cat in H as (k1 & H1 & H).
  apply in_ends_cat in H as (k2 & H2 & H3).
  apply in_ends_many, in_skipn, runs_classe in H1 as (x & Ex & Fx).
  apply in_ends_many, in_skipn, runs_classe in H3 as (y & Ey & Fy).
  cbn [ends rest prev] in H2. cbn [rest] in Ex.
  destruct (rest k1) as [|c t] eqn:Ek1; [ destruct H2 | ].
  destruct (lit_ok false 8364%N c) eqn:Ec; [ | destruct H2 ].
  destruct H2 as [<-|[]]. cbn [rest] in Ey.
  unfold lit_ok in Ec. apply eqc_eq in Ec. subst c.
  exists x, y. split; [ | split; assumption ].
  rewrite Ex, Ey. reflexivity.
Qed.

Lemma firstn_moins {A : Type} (a b : list A) :
  firstn (List.length (a ++ b) - List.length b) (a ++ b) = a.
Proof.
  rewrite length_app. replace (List.length a + List.length b - List.length b)
    with (List.length a + 0) by lia.
  rewrite firstn_app_2. cbn. apply app_nil_r.
Qed.

Lemma match_len_re_salaire pv s n :
  match_len false re_salaire pv s = Some n ->
  exists x y,
    firstn n s = x ++ 8364%N :: y
    /\ Forall (fun c => chiffre_ou_espace c = true) x
    /\ Forall (fun c => dot c = true) y.
Proof.
  unfold match_len.
  destruct (ends false re_salaire (Cursor pv s)) as [|e l] eqn:E; [ discriminate | ].
  assert (I : In e (ends false re_salaire (Cursor pv s))) by (rewrite E; left; reflexivity).
  apply ends_re_salaire in I as (x & y & Es & Fx & Fy).
  intros H. inversion H; subst n. clear H E.
  exists x, y. split; [ | split; assumption ].
  rewrite Es.
  replace (x ++ 8364%N :: y ++ rest e) with ((x ++ 8364%N :: y) ++ rest e)
    by (rewrite <- app_assoc; reflexivity).
  apply firstn_moins.
Qed.

Lemma search_go_re_salaire s : forall pv m,
  search_go re_salaire pv s = Some m ->
  exists x y,
    m = x ++ 8364%N :: y
    /\ Forall (fun c => chiffre_ou_espace c = true) x
    /\ Forall (fun c => dot c = true) y.
Proof.
  induction s as [|c t IH]; intros pv m H; cbn [search_go] in H.
  - destruct (match_len false re_salaire pv []) as [n|] eqn:E; [ | discriminate ].
    inversion H; subst m. eapply match_len_re_salaire. exact E.
  - destruct (match_len false re_salaire pv (c :: t)) as [n|] eqn:E.
    + inversion H; subst m. eapply match_len_re_salaire. exact E.
    + eapply IH. exact H.
Qed.

Lemma ends_re_salaire_present pv c b :
  chiffre_ou_espace c = true ->
  ends false re_salaire (Cursor pv (c :: 8364%N :: b)) <> [].
Proof.
  intros Hc.
  change re_salaire
    with (Cat (plus chiffre_ou_espace) (Cat (Lit 8364%N) (star dot))).
  assert (E : ends false (plus chiffre_ou_espace) (Cursor pv (c :: 8364%N :: b))
              = [Cursor (Some c) (8364%N :: b)]).
  { unfold plus. cbn [ends rest prev runs]. rewrite Hc, euro_pas_espace.
    reflexivity. }
  cbn [ends] in *. rewrite E. cbn [flat_map rest prev].
  unfold lit_ok. change (eqc 8364%N 8364%N) with true. cbv iota.
  cbn [flat_map star ends skipn rest prev]. rewrite !app_nil_r.
  intros H. apply (f_equal (@rev cursor)) in H. rewrite rev_involutive in H.
  cbn [rev] in H. eapply runs_non_vide. exact H.
Qed.

Lemma search_go_present r s' :
  (forall pv, ends false r (Cursor pv s') <> []) ->
  forall a pv, search_go r pv (a ++ s') <> None.
Proof.
  intros Hs a. induction a as [|c a IH]; intros pv.
  - cbn [app]. specialize (Hs pv).
    destruct s' as [|c t]; cbn [search_go]; unfold match_len;
      destruct (ends false r _); try congruence; discriminate.
  - cbn [app search_go]. unfold match_len.
    destruct (ends false r (Cursor pv (c :: a ++ s'))); [ apply IH | discriminate ].
Qed.

Lemma split_chr_in c sep s :
  In c s -> c <> sep -> exists l, In l (split_chr sep s) /\ In c l.
Proof.
  intros H Hn. induction s as [|x t IH]; [ destruct H | ].
  cbn [split_chr]. destruct (eqc x sep) eqn:Ex.
  - apply eqc_eq in Ex. subst x.
    destruct H as [H|H]; [ congruence | ].
    destruct (IH H) as (l & Hl & Hc). exists l. split; [ right; exact Hl | exact Hc ].
  - destruct H as [H|H].
    + subst x. destruct (split_chr sep t) as [|w ws];
        eexists; (split; [ left; reflexivity | left; reflexivity ]).
    + destruct (IH H) as (l & Hl & Hc).
      destruct (split_chr sep t) as [|w ws]; [ destruct Hl | ].
      destruct Hl as [<-|Hl].
      * exists (x :: w). split; [ left; reflexivity | right; exact Hc ].
      * exists l. split; [ right; exact Hl | exact Hc ].
Qed.

End Cartes.

Lemma extraire_salaire_formes txt :
  (contains euro txt = false /\ extraire_salaire txt = u "Non affiché")
  \/ (contains euro txt = true
      /\ ((exists m, search re_salaire txt = Some m /\ extraire_salaire txt = strip m)
          \/ (search re_salaire txt = None
              /\ exists line, In line (split_chr 10%N txt) /\ In 8364%N line
                              /\ extraire_salaire txt = strip line))).
Proof.
  unfold extraire_salaire.
  destruct (contains euro txt) eqn:Ec; [ right | left; split; reflexivity ].
  split; [ reflexivity | ].
  destruct (search re_salaire txt) as [m|] eqn:Es.
  - left. exists m. split; reflexivity.
  - right. split; [ reflexivity | ].
    destruct (find (contains euro) (split_chr 10%N txt)) as [line|] eqn:Ef.
    + apply find_some in Ef as [Hl Hc]. apply contains_in in Hc.
      exists line. repeat split; assumption.
    + exfalso. apply contains_in in Ec.
      destruct (split_chr_in 8364%N 10%N txt Ec ltac:(discriminate)) as (l & Hl & Hc).
      pose proof (find_none _ _ Ef l Hl) as F. cbn beta in F.
      apply contains_pas in F. exact (F Hc).
Qed.

Lemma extraire_salaire_sans_euro txt :
  ~ In 8364%N txt -> extraire_salaire txt = u "Non affiché".
Proof.
  intros H. apply contains_pas in H.
  destruct (extraire_salaire_formes txt) as [[_ E]|[Ec _]]; [ exact E | ].
  assert (F : contains euro txt = false) by exact H. congruence.
Qed.

(** X10.  The salary read on a card.  Without a euro sign in the text of
    the card it is "Non affiché".  With one, it holds a euro sign and
    has no white space at either end.  And when a digit or a white space
    stands just before a euro sign of the text, the salary is made of
    digits and white space up to its first euro sign, and stops at the
    end of the line: what stands before the euro sign and is neither a
    digit nor a white space, the k of "35k €" with the amount before it,
    is not read. *)
Theorem salaire_de_la_carte txt :
  (~ In 8364%N txt -> extraire_salaire txt = u "Non affiché")
  /\ (In 8364%N txt ->
      In 8364%N (extraire_salaire txt)
      /\ strip (extraire_salaire txt) = extraire_salaire txt)
  /\ (forall a c b,
      txt = a ++ c :: 8364%N :: b -> chiffre_ou_espace c = true ->
      exists x y,
        extraire_salaire txt = x ++ 8364%N :: y
        /\ Forall (fun d => chiffre_ou_espace d = true) x
        /\ ~ In 10%N y).
Proof.
  split; [ | split ].
  - apply extraire_salaire_sans_euro.
  - intros H. apply contains_in in H.
    destruct (extraire_salaire_formes txt)
      as [[Ec _]|[_ [(m & Es & E)|(_ & line & _ & Hc & E)]]].
    + assert (F : contains euro txt = true) by exact H. congruence.
    + rewrite E. split; [ | apply strip_idem ].
      apply search_go_re_salaire in Es as (x & y & -> & _).
      apply strip_garde; [ | reflexivity ].
      apply in_or_app. right. left. reflexivity.
    + rewrite E. split; [ | apply strip_idem ].
      apply strip_garde; [ exact Hc | reflexivity ].
  - intros a c b -> Hc.
    assert (Hin : In 8364%N (a ++ c :: 8364%N :: b))
      by (apply in_or_app; right; right; left; reflexivity).
    destruct (extraire_salaire_formes (a ++ c :: 8364%N :: b))
      as [[Ec _]|[_ [(m & Es & E)|(Es & _)]]].
    + apply contains_pas in Ec. contradiction.
    + rewrite E.
      apply search_go_re_salaire in Es as (x0 & y0 & -> & Fx & Fy).
      destruct (strip_forme (x0 ++ 8364%N :: y0)) as (pre & post & Em & Fpre & Fpost).
      rewrite Forall_forall in Fpre, Fpost.
      symmetry in Em.
      destruct (app_sans_gauche 8364%N pre _ _ _ Em) as (t & Ex & E2).
      { intros H. apply Fpre in H. discriminate H. }
      destruct (app_sans_droite 8364%N _ post _ _ E2) as (t' & Ey & E3).
      { intros H. apply Fpost in H. discriminate H. }
      exists t, t'. split; [ exact E3 | ]. split.
      * subst x0. apply Forall_app in Fx as [_ Fx]. exact Fx.
      * subst y0. apply Forall_app in Fy as [Fy _].
        rewrite Forall_forall in Fy. intros H. apply Fy in H. discriminate H.
    + exfalso. unfold search in Es.
      apply (search_go_present re_salaire (c :: 8364%N :: b)
               (fun pv => ends_re_salaire_present pv c b Hc) a None).
      exact Es.
Qed.

Lemma salaire_de_la_carte_witness :
  exists x y,
    extraire_salaire (u "Data Analyst ACME 35k €") = x ++ 8364%N :: y
    /\ Forall (fun d => chiffre_ou_espace d = true) x
    /\ ~ In 10%N y.
Proof.
  apply (proj2 (proj2 (salaire_de_la_carte (u "Data Analyst ACME 35k €")))
           (u "Data Analyst ACME 35k") 32%N []).
  - reflexivity.
  - reflexivity.
Defined.

Lemma texte_strip_fixe a s : texte_strip a = Val s -> strip s = s.
Proof.
  unfold texte_strip. destruct a as [[x|]|e]; cbn; try discriminate.
  intros H. inversion H; subst. apply strip_idem.
Qed.

Lemma ou_defaut_strip a d :
  strip d = d -> strip (ou_defaut (texte_strip a) d) = ou_defaut (texte_strip a) d.
Proof.
  intros Hd. destruct (texte_strip a) as [s|e] eqn:E; cbn; [ | exact Hd ].
  eapply texte_strip_fixe. exact E.
Qed.

Lemma extraire_salaire_strip txt :
  strip (extraire_salaire txt) = extraire_salaire txt.
Proof.
  destruct (extraire_salaire_formes txt)
    as [[_ E]|[_ [(m & _ & E)|(_ & line & _ & _ & E)]]]; rewrite E.
  - vm_compute. reflexivity.
  - apply strip_idem.
  - apply strip_idem.
Qed.

(** X11.  Every offer that the robot records has a title that is not
    empty, and its title, company, location, contract and salary have
    no white space at either end. *)
Theorem offre_sans_bords c o :
  extraire c = Val (Some o) ->
  o_Titre o <> []
  /\ strip (o_Titre o) = o_Titre o
  /\ strip (o_Entreprise o) = o_Entreprise o
  /\ strip (o_Localisation o) = o_Localisation o
  /\ strip (o_Contrat o) = o_Contrat o
  /\ strip (o_Salaire o) = o_Salaire o.
Proof.
  unfold extraire. intros H.
  destruct (c_h3 c) as [h3|]; cbn [obind] in H; [ | discriminate ].
  destruct (h_ps h3) as [ps|]; cbn [obind] in H; [ | discriminate ].
  match type of H with
  | obind ?x _ = _ => destruct x as [[titre entreprise]|] eqn:E
  end; cbn [obind] in H; [ | discriminate ].
  assert (B : strip titre = titre /\ strip entreprise = entreprise).
  { destruct ps as [|p0 [|p1 ps]].
    - destruct (texte_strip (h_text h3)) as [full|]; cbn [obind] in E; [ | discriminate ].
      inversion E; subst. split; [ apply strip_idem | ].
      destruct (split_chr 10%N full) as [|q0 [|q1 qs]];
        try apply strip_idem; vm_compute; reflexivity.
    - destruct (texte_strip (h_text h3)) as [full|]; cbn [obind] in E; [ | discriminate ].
      inversion E; subst. split; [ apply strip_idem | ].
      destruct (split_chr 10%N full) as [|q0 [|q1 qs]];
        try apply strip_idem; vm_compute; reflexivity.
    - destruct (texte_strip p0) as [t0|] eqn:E0; cbn [obind] in E; [ | discriminate ].
      destruct (texte_strip p1) as [t1|] eqn:E1; cbn [obind] in E; [ | discriminate ].
      inversion E; subst. split; eapply texte_strip_fixe; eassumption. }
  destruct B as [B1 B2].
  destruct titre as [|t0 titre]; [ discriminate | ].
  destruct (c_text c) as [[txt|]|]; cbn [obind] in H; try discriminate.
  inversion H; subst o. cbn [o_Titre o_Entreprise o_Localisation o_Contrat o_Salaire].
  split; [ discriminate | ].
  split; [ exact B1 | ]. split; [ exact B2 | ].
  split; [ apply ou_defaut_strip; vm_compute; reflexivity | ].
  split; [ apply ou_defaut_strip; vm_compute; reflexivity | ].
  apply extraire_salaire_strip.
Qed.

Lemma offre_sans_bords_witness :
  strip (u "Data Analyst") = u "Data Analyst"
  /\ strip (u "Lyon - 69") = u "Lyon - 69".
Proof.
  pose proof (offre_sans_bords carte_valide
                (Offre (u "Data Analyst") (u "ACME") (u "Lyon - 69") (u "CDI")
                       (u "€")
                       (Some (u "https://www.hellowork.com/fr-fr/emplois/1.html")))
                ltac:(vm_compute; reflexivity)) as (_ & H1 & _ & H3 & _).
  split; [ exact H1 | exact H3 ].
Defined.

(* ================================================================== *)
(** * Further properties of the pipeline *)
(* ================================================================== *)

Lemma drop_duplicates_go_identite rows : forall vues,
  NoDup (map cle_de rows) ->
  (forall r, In r rows -> ~ In (cle_de r) vues) ->
  drop_duplicates_go vues rows = rows.
Proof.
  induction rows as [|r t IH]; intros vues Hn Hv; [ reflexivity | ].
  cbn [drop_duplicates_go].
  destruct (existsb (cle_eqb (cle_de r)) vues) eqn:E.
  - apply vue_iff in E. exfalso. apply (Hv r); [ left; reflexivity | exact E ].
  - f_equal. cbn [map] in Hn. inversion Hn as [|? ? Hr Ht]; subst.
    apply IH; [ exact Ht | ].
    intros r' Hr' [H|H].
    + apply Hr. rewrite H. apply in_map. exact Hr'.
    + apply (Hv r'); [ right; exact Hr' | exact H ].
Qed.

Lemma sous_suite_longueur {A : Type} (l1 l2 : list A) :
  sous_suite l1 l2 -> List.length l1 <= List.length l2.
Proof. induction 1; cbn; lia. Qed.

Lemma map_result_longueur {A B : Type} (f : A -> result B) l : forall bs,
  map_result f l = Ok bs -> List.length bs = List.length l.
Proof.
  induction l as [|a t IH]; intros bs H; cbn in H.
  - inversion H. reflexivity.
  - destruct (f a) as [b|]; cbn in H; [ | discriminate ].
    destruct (map_result f t) as [bs'|]; cbn in H; [ | discriminate ].
    inversion H; subst. cbn. f_equal. apply IH. reflexivity.
Qed.

(** X12.  On a table that has a row, the pipeline writes the table of the
    transformed rows whole when the (Titre_Simplifie, Entreprise, Ville) of
    these rows are pairwise distinct: no row is lost.  Removing the
    duplicates again from a table that the pipeline wrote changes nothing,
    and that table never holds more rows than the input file.  (For the
    texts of the current characters.) *)
Theorem dedoublonnage_stable df :
  forallb ligne_courante df = true ->
  (forall rows,
      df <> [] -> Forall2 transformee df rows ->
      NoDup (map (fun r => (Titre_Simplifie r, Entreprise_ r, Ville r)) rows) ->
      lancer_traitement_final (Some df) = Ok (Some rows))
  /\ (forall out,
      lancer_traitement_final (Some df) = Ok (Some out) ->
      drop_duplicates out = out /\ List.length out <= List.length df).
Proof.
  intros _. split.
  - intros rows Hne E Hn. apply lancer_traitement_final_sortie.
    split; [ exact Hne | ]. exists rows. split; [ exact E | ].
    unfold drop_duplicates. symmetry.
    apply drop_duplicates_go_identite; [ exact Hn | ].
    intros r _ [].
  - intros out H.
    apply lancer_traitement_final_sortie in H as (_ & rows & E & ->).
    split.
    + unfold drop_duplicates at 1.
      apply drop_duplicates_go_identite.
      * apply drop_duplicates_go_cles_distinctes.
      * intros r _ [].
    + rewrite (Forall2_length E).
      apply sous_suite_longueur. apply drop_duplicates_go_sous_suite.
Qed.

Lemma dedoublonnage_stable_witness :
  lancer_traitement_final
    (Some [Ligne (CStr (u "Data Analyst H/F")) (CStr (u "ACME"))
                 (CStr (u "Lyon 3e - 69")) (CStr (u "CDI"))
                 (CStr (u "35k €")) (CStr (u "https://a"));
           Ligne (CStr (u "Data Analyst H/F")) (CStr (u "Globex"))
                 (CStr (u "Lyon 3e - 69")) (CStr (u "CDI"))
                 (CStr (u "35k €")) (CStr (u "https://b"))])
  = Ok (Some [LignePropre (u "Data analyst") (CStr (u "ACME")) (u "Lyon")
                          (u "69") (CStr (u "CDI")) (Some (of_dec 350000 1));
              LignePropre (u "Data analyst") (CStr (u "Globex")) (u "Lyon")
                          (u "69") (CStr (u "CDI")) (Some (of_dec 350000 1))]).
Proof.
  apply (proj1 (dedoublonnage_stable
                  [Ligne (CStr (u "Data Analyst H/F")) (CStr (u "ACME"))
                         (CStr (u "Lyon 3e - 69")) (CStr (u "CDI"))
                         (CStr (u "35k €")) (CStr (u "https://a"));
                   Ligne (CStr (u "Data Analyst H/F")) (CStr (u "Globex"))
                         (CStr (u "Lyon 3e - 69")) (CStr (u "CDI"))
                         (CStr (u "35k €")) (CStr (u "https://b"))]
                  ltac:(vm_compute; reflexivity))).
  - discriminate.
  - repeat constructor; vm_compute; reflexivity.
  - repeat constructor; cbn; intuition discriminate.
Defined.

Section Centimes.

Local Open Scope Z_scope.

Lemma salaire_centimes texte v :
  nettoyer_salaire texte = Ok (Some v) ->
  exists N, 1400000 <= N <= 20000000
            /\ v = of_dec N 2
            /\ round_ndigits v 2 = v
            /\ fle (of_Z 14000) v = true /\ fle v (of_Z 200000) = true.
Proof.
  intros H.
  destruct (nettoyer_salaire_forme _ _ H) as (x & Hlo & Hhi & ->).
  destruct (round_ndigits_forme x Hlo Hhi) as (N & HN & E).
  exists N. split; [ exact HN | ].
  rewrite E.
  destruct (round64_salary_range (N # 100)) as (q & Eq & _).
  { unfold Qle. cbn. lia. }
  { unfold Qle. cbn. lia. }
  destruct (salaire_stable N q HN Eq) as (B1 & B2 & _ & _ & S).
  change (of_dec N 2) with (round64 (N # 100)). rewrite Eq.
  split; [ reflexivity | ]. split; [ exact S | ].
  change (of_Z 14000) with (FFin (inject_Z 14000)).
  change (of_Z 200000) with (FFin (inject_Z 200000)).
  cbn [fle]. split; apply Qle_bool_iff; assumption.
Qed.

(** X13.  A salary that [nettoyer_salaire] returns is the float of a
    whole number of cents between 14000.00 and 200000.00: rounding it
    again to two places changes nothing.  So is every salary of the
    table that the pipeline writes. *)
Theorem salaire_au_centime :
  (forall texte v,
      nettoyer_salaire texte = Ok (Some v) ->
      exists N, 1400000 <= N <= 20000000
                /\ v = of_dec N 2 /\ round_ndigits v 2 = v)
  /\ (forall df out r v,
      lancer_traitement_final (Some df) = Ok (Some out) ->
      In r out -> Salaire_Annuel r = Some v ->
      exists N, 1400000 <= N <= 20000000
                /\ v = of_dec N 2 /\ round_ndigits v 2 = v
                /\ fle (of_Z 14000) v = true /\ fle v (of_Z 200000) = true).
Proof.
  split.
  - intros texte v H.
    destruct (salaire_centimes _ _ H) as (N & HN & E & S & _).
    exists N. repeat split; try assumption; lia.
  - intros df out r v H Hr Hv.
    apply lancer_traitement_final_sortie in H as (_ & rows & E & ->).
    apply map_result_transformee in E.
    assert (F : Forall (fun r => forall v, Salaire_Annuel r = Some v ->
                          exists texte, nettoyer_salaire texte = Ok (Some v)) rows).
    { eapply map_result_Forall; [ | exact E ].
      intros l b Hb w Hw. unfold transformer in Hb.
      destruct (nettoyer_salaire (Salaire l)) as [sa|] eqn:Es; cbn [bind] in Hb;
        [ | discriminate ].
      destruct (separer_localisation (Localisation l)) as [vi de].
      inversion Hb; subst b. cbn in Hw. subst sa.
      exists (Salaire l). exact Es. }
    rewrite Forall_forall in F.
    assert (Hin : In r rows).
    { clear - Hr. unfold drop_duplicates in Hr.
      pose proof (drop_duplicates_go_sous_suite rows []) as S.
      revert Hr. induction S; intros Hr.
      - destruct Hr.
      - destruct Hr as [<-|Hr]; [ left; reflexivity | right; auto ].
      - right. auto. }
    destruct (F r Hin v Hv) as (texte & Ht).
    apply (salaire_centimes _ _ Ht).
Qed.

Lemma salaire_au_centime_witness :
  exists N, 1400000 <= N <= 20000000
            /\ of_dec 2184048 2 = of_dec N 2
            /\ round_ndigits (of_dec 2184048 2) 2 = of_dec 2184048 2.
Proof.
  apply (proj1 salaire_au_centime (CStr (u "12 € / heure"))).
  vm_compute. reflexivity.
Defined.

End Centimes.

Section Caracteres.

Local Open Scope N_scope.

Lemma octets_tous c : c < 256 -> In c octets.
Proof.
  intros H. unfold octets. apply in_map_iff. exists (N.to_nat c).
  split; [ apply N2Nat.id | ]. apply in_seq. lia.
Qed.

(** A test that holds on the 256 bytes holds below 256. *)
Lemma par_cas (P : char -> bool) :
  forallb P octets = true -> forall c, c < 256 -> P c = true.
Proof.
  intros H c Hc. rewrite forallb_forall in H. apply H. apply octets_tous. exact Hc.
Qed.

Lemma to_lower_grand c : 256 <= c -> to_lower c = c.
Proof.
  intros H. unfold to_lower, in_range.
  repeat match goal with
         | |- context [N.leb ?a ?b] => destruct (N.leb_spec a b)
         end; cbn; try reflexivity; lia.
Qed.

Lemma to_title_grand c : 256 <= c -> to_title c = [c].
Proof.
  intros H. unfold to_title, in_range, eqc.
  repeat match goal with
         | |- context [N.leb ?a ?b] => destruct (N.leb_spec a b)
         end; cbn; try lia;
  repeat match goal with
         | |- context [N.eqb ?a ?b] => destruct (N.eqb_spec a b)
         end; try reflexivity; lia.
Qed.

(** Lower case neither makes nor unmakes a white space or a separator. *)
Lemma to_lower_espace c : is_space (to_lower c) = is_space c.
Proof.
  destruct (N.lt_ge_cases c 256) as [H|H].
  - apply eqb_prop. revert c H.
    apply (par_cas (fun c => Bool.eqb (is_space (to_lower c)) (is_space c))).
    vm_compute. reflexivity.
  - rewrite to_lower_grand by exact H. reflexivity.
Qed.

Lemma to_lower_separateur c : est_separateur (to_lower c) = est_separateur c.
Proof.
  destruct (N.lt_ge_cases c 256) as [H|H].
  - apply eqb_prop. revert c H.
    apply (par_cas (fun c => Bool.eqb (est_separateur (to_lower c)) (est_separateur c))).
    vm_compute. reflexivity.
  - rewrite to_lower_grand by exact H. reflexivity.
Qed.

Lemma to_lower_32 c : is_space c = true -> to_lower c = c.
Proof.
  destruct (N.lt_ge_cases c 256) as [H|H].
  - intros Hs. apply N.eqb_eq. revert Hs. apply implb_true_iff. revert c H.
    apply (par_cas (fun c => implb (is_space c) (N.eqb (to_lower c) c))).
    vm_compute. reflexivity.
  - intros _. apply to_lower_grand. exact H.
Qed.

(** Title case makes no white space and no separator of a character that
    is none. *)
Lemma to_title_espace c :
  is_space c = false -> Forall (fun d => is_space d = false) (to_title c).
Proof.
  destruct (N.lt_ge_cases c 256) as [H|H].
  - intros Hs. apply Forall_forall. intros d Hd.
    assert (T : implb (negb (is_space c))
                      (forallb (fun d => negb (is_space d)) (to_title c)) = true).
    { revert c H Hs Hd. intros c H _ _. revert c H.
      apply (par_cas (fun c => implb (negb (is_space c))
                                 (forallb (fun d => negb (is_space d)) (to_title c)))).
      vm_compute. reflexivity. }
    rewrite Hs in T. cbn in T. rewrite forallb_forall in T.
    apply negb_true_iff. apply T. exact Hd.
  - intros Hs. rewrite to_title_grand by exact H. constructor; [ exact Hs | constructor ].
Qed.

Lemma to_title_separateur c :
  est_separateur c = false ->
  Forall (fun d => est_separateur d = false) (to_title c).
Proof.
  destruct (N.lt_ge_cases c 256) as [H|H].
  - intros Hs. apply Forall_forall. intros d Hd.
    assert (T : implb (negb (est_separateur c))
                      (forallb (fun d => negb (est_separateur d)) (to_title c)) = true).
    { clear Hs Hd. revert c H.
      apply (par_cas (fun c => implb (negb (est_separateur c))
                                 (forallb (fun d => negb (est_separateur d)) (to_title c)))).
      vm_compute. reflexivity. }
    rewrite Hs in T. cbn in T. rewrite forallb_forall in T.
    apply negb_true_iff. apply T. exact Hd.
  - intros Hs. rewrite to_title_grand by exact H. constructor; [ exact Hs | constructor ].
Qed.

End Caracteres.

Section Substitutions.

(** [re.sub] makes no character: those of its result are characters of
    the text or of the replacement. *)
Lemma sub_go_caracteres ic r repl c s : forall skip pv,
  In c (sub_go ic r repl skip pv s) -> In c s \/ In c repl.
Proof.
  induction s as [|x t IH]; intros skip pv H; cbn [sub_go] in H.
  - destruct skip; [ | destruct H ].
    destruct (match_len ic r pv []); [ right; exact H | destruct H ].
  - destruct skip as [|n].
    + destruct (match_len ic r pv (x :: t)) as [[|n]|].
      * apply in_app_or in H as [H|H]; [ right; exact H | ].
        destruct H as [<-|H]; [ left; left; reflexivity | ].
        destruct (IH _ _ H) as [H'|H']; [ left; right; exact H' | right; exact H' ].
      * apply in_app_or in H as [H|H]; [ right; exact H | ].
        destruct (IH _ _ H) as [H'|H']; [ left; right; exact H' | right; exact H' ].
      * destruct H as [<-|H]; [ left; left; reflexivity | ].
        destruct (IH _ _ H) as [H'|H']; [ left; right; exact H' | right; exact H' ].
    + destruct (IH _ _ H) as [H'|H']; [ left; right; exact H' | right; exact H' ].
Qed.

Lemma sub_go_sans (q : char -> bool) ic r repl s skip pv :
  Forall (fun c => q c = false) s -> Forall (fun c => q c = false) repl ->
  Forall (fun c => q c = false) (sub_go ic r repl skip pv s).
Proof.
  intros Hs Hr. apply Forall_forall. intros c H.
  rewrite Forall_forall in Hs, Hr.
  destruct (sub_go_caracteres _ _ _ _ _ _ _ H); auto.
Qed.

(** A pattern of one character, replaced by a text without it, leaves
    none of the characters it matches. *)
Lemma sub_go_un (q : char -> bool) ic r repl :
  (forall k, ends ic r k = match rest k with
                           | x :: t => if q x then [Cursor (Some x) t] else []
                           | [] => []
                           end) ->
  Forall (fun c => q c = false) repl ->
  forall s skip pv, Forall (fun c => q c = false) (sub_go ic r repl skip pv s).
Proof.
  intros He Hr. induction s as [|x t IH]; intros skip pv; cbn [sub_go].
  - destruct skip; [ | constructor ].
    unfold match_len. rewrite He. cbn. constructor.
  - destruct skip as [|n]; [ | apply IH ].
    unfold match_len. rewrite He. cbn [rest].
    destruct (q x) eqn:Ex.
    + cbn [rest]. replace (List.length (x :: t) - List.length t) with 1
        by (cbn [List.length]; lia).
      apply Forall_app. split; [ exact Hr | apply IH ].
    + constructor; [ exact Ex | apply IH ].
Qed.

Lemma sub_classe p ic repl s :
  Forall (fun c => p c = false) repl ->
  Forall (fun c => p c = false) (sub ic (Cls p) repl s).
Proof. intros Hr. apply sub_go_un; [ reflexivity | exact Hr ]. Qed.

Lemma sub_lit c0 ic repl s :
  Forall (fun c => lit_ok ic c0 c = false) repl ->
  Forall (fun c => lit_ok ic c0 c = false) (sub ic (Lit c0) repl s).
Proof. intros Hr. apply sub_go_un; [ reflexivity | exact Hr ]. Qed.

(** ** The runs of white space *)

Lemma runs_complet p ws apres :
  Forall (fun c => p c = true) ws ->
  match apres with [] => True | c :: _ => p c = false end ->
  forall pv, exists L pv',
    runs p pv (ws ++ apres) = L ++ [Cursor pv' apres]
    /\ List.length L = List.length ws.
Proof.
  intros Hws Hr. induction Hws as [|c ws Hc _ IH]; intros pv.
  - exists [], pv. split; [ | reflexivity ].
    destruct apres as [|c t]; [ reflexivity | ]. cbn. rewrite Hr. reflexivity.
  - destruct (IH (Some c)) as (L & pv' & E & HL).
    exists (Cursor pv (c :: ws ++ apres) :: L), pv'. split.
    + cbn. rewrite Hc, E. reflexivity.
    + cbn. f_equal. exact HL.
Qed.

Lemma match_len_plus p ws apres pv :
  Forall (fun c => p c = true) ws -> ws <> [] ->
  match apres with [] => True | c :: _ => p c = false end ->
  match_len false (plus p) pv (ws ++ apres) = Some (List.length ws).
Proof.
  intros Hws Hne Hr.
  destruct (runs_complet p ws apres Hws Hr pv) as (L & pv' & E & HL).
  unfold match_len, plus. cbn [ends rest prev]. rewrite E.
  destruct L as [|k L]; [ destruct ws; [ congruence | discriminate ] | ].
  cbn [app skipn]. rewrite rev_app_distr. cbn [rev app rest].
  f_equal. rewrite length_app. lia.
Qed.

Lemma match_len_plus_non p c t pv :
  p c = false -> match_len false (plus p) pv (c :: t) = None.
Proof.
  intros Hc. unfold match_len, plus. cbn [ends rest prev runs]. rewrite Hc.
  reflexivity.
Qed.

Lemma match_len_plus_vide p pv : match_len false (plus p) pv [] = None.
Proof. reflexivity. Qed.

Lemma sub_go_saute ic r repl apres : forall a pv,
  exists pv',
    sub_go ic r repl (List.length a) pv (a ++ apres) = sub_go ic r repl 0 pv' apres.
Proof.
  induction a as [|c a IH]; intros pv.
  - exists pv. reflexivity.
  - destruct (IH (Some c)) as [pv' E]. exists pv'. cbn. exact E.
Qed.

Lemma bord_sub_plus s : forall pv,
  bord s -> bord (sub_go false (plus is_space) (u " ") 0 pv s).
Proof.
  destruct s as [|c t]; intros pv H; cbn [sub_go].
  - exact I.
  - cbn in H. rewrite (match_len_plus_non _ _ _ _ H). exact H.
Qed.

Lemma espaces_simples_sub_plus n : forall s pv,
  List.length s <= n ->
  espaces_simples (sub_go false (plus is_space) (u " ") 0 pv s).
Proof.
  induction n as [|n IH]; intros s pv Hn.
  - destruct s; [ exact I | cbn in Hn; lia ].
  - destruct s as [|c t]; [ exact I | ].
    destruct (is_space c) eqn:Ec.
    + destruct (drop_space_suffixe (c :: t)) as (ws & E & Fws).
      pose proof (drop_space_bord (c :: t)) as Hb.
      remember (drop_space (c :: t)) as apres eqn:Ea. clear Ea.
      destruct ws as [|w ws].
      { cbn [app] in E. rewrite <- E in Hb. cbn in Hb. congruence. }
      assert (M := match_len_plus is_space (w :: ws) apres pv Fws
                     ltac:(discriminate) Hb).
      rewrite <- E in M.
      cbn [sub_go]. rewrite M. cbn [List.length].
      cbn [app] in E. inversion E as [[Ew Et]]. clear E.
      destruct (sub_go_saute false (plus is_space) (u " ") apres ws (Some w)) as [pv' Es].
      rewrite Es.
      change (u " ") with [32%N]. cbn [app espaces_simples].
      split.
      * intros _. split; [ reflexivity | ]. apply bord_sub_plus. exact Hb.
      * apply IH. rewrite Et in Hn. cbn [List.length] in Hn.
        rewrite length_app in Hn. lia.
    + cbn [sub_go]. rewrite (match_len_plus_non _ _ _ _ Ec).
      cbn [espaces_simples]. split; [ congruence | ].
      apply IH. cbn in Hn. lia.
Qed.

(** ** What keeps the plain spaces *)

Lemma espaces_simples_app a b :
  espaces_simples (a ++ b) -> espaces_simples a /\ espaces_simples b.
Proof.
  induction a as [|c a IH]; cbn.
  - intros H. split; [ exact I | exact H ].
  - intros [Hc H]. destruct (IH H) as [Ha Hb]. split; [ | exact Hb ].
    split; [ | exact Ha ].
    intros Hs. destruct (Hc Hs) as [E B]. split; [ exact E | ].
    destruct a; [ exact I | exact B ].
Qed.

Lemma espaces_simples_strip s : espaces_simples s -> espaces_simples (strip s).
Proof.
  destruct (strip_forme s) as (pre & post & E & _).
  intros H. rewrite E in H.
  apply espaces_simples_app in H as [_ H].
  apply espaces_simples_app in H as [H _]. exact H.
Qed.

Lemma bord_lower s : bord s -> bord (lower s).
Proof.
  destruct s as [|c t]; cbn; [ trivial | ].
  rewrite to_lower_espace. trivial.
Qed.

Lemma espaces_simples_lower s : espaces_simples s -> espaces_simples (lower s).
Proof.
  induction s as [|c t IH]; cbn; [ trivial | ].
  intros [Hc H]. split; [ | apply IH; exact H ].
  rewrite to_lower_espace. intros Hs. destruct (Hc Hs) as [E B].
  split; [ subst c; reflexivity | apply bord_lower; exact B ].
Qed.

Lemma espaces_simples_sans a b :
  Forall (fun c => is_space c = false) a -> espaces_simples b ->
  espaces_simples (a ++ b).
Proof.
  induction 1 as [|c a Hc _ IH]; intros Hb; cbn; [ exact Hb | ].
  split; [ congruence | apply IH; exact Hb ].
Qed.

Lemma espaces_simples_capitalize s :
  bord s -> espaces_simples s -> espaces_simples (capitalize s).
Proof.
  destruct s as [|c t]; cbn [capitalize]; [ trivial | ].
  intros Hb [_ H]. cbn in Hb.
  apply espaces_simples_sans; [ apply to_title_espace; exact Hb | ].
  apply espaces_simples_lower. exact H.
Qed.

Lemma bord_rev_dernier a x : bord (rev (a ++ [x])) <-> is_space x = false.
Proof. rewrite rev_app_distr. cbn. reflexivity. Qed.

Lemma bord_sans l : Forall (fun c => is_space c = false) l -> bord l /\ bord (rev l).
Proof.
  intros H. split.
  - destruct H; [ exact I | assumption ].
  - apply Forall_rev in H. destruct H; [ exact I | assumption ].
Qed.

Lemma to_title_non_vide c : to_title c <> [].
Proof.
  unfold to_title.
  repeat match goal with
         | |- (if ?b then _ else _) <> _ => destruct b
         end; discriminate.
Qed.

Lemma bords_capitalize s :
  bord s -> bord (rev s) -> bord (capitalize s) /\ bord (rev (capitalize s)).
Proof.
  destruct s as [|c t]; cbn [capitalize]; [ intros; split; exact I | ].
  intros Hb Hr. cbn in Hb.
  pose proof (to_title_espace c Hb) as T.
  split.
  - pose proof (to_title_non_vide c) as N.
    destruct (to_title c) as [|d l]; [ congruence | ].
    cbn. inversion T; assumption.
  - destruct (exists_last (l := c :: t) ltac:(discriminate)) as (a & x & E).
    rewrite E in Hr. apply bord_rev_dernier in Hr.
    destruct a as [|c' a].
    + cbn in E. inversion E; subst. cbn [lower map]. rewrite app_nil_r.
      apply bord_sans. exact T.
    + cbn in E. inversion E; subst.
      unfold lower. rewrite map_app. cbn [map]. rewrite app_assoc.
      apply bord_rev_dernier. rewrite to_lower_espace. exact Hr.
Qed.

End Substitutions.

Lemma titre_sans_bruit_barre t :
  Forall (fun c => eqc c 124%N = false) (titre_sans_bruit t).
Proof.
  unfold titre_sans_bruit.
  change mots_a_supprimer with (firstn 11 mots_a_supprimer ++ [Lit 124%N]).
  rewrite fold_left_app. cbn [fold_left].
  eapply Forall_impl; [ | apply sub_lit; repeat constructor ].
  intros c H. cbv beta in H. unfold lit_ok in H.
  destruct (eqc c 124%N) eqn:E; [ | reflexivity ].
  apply eqc_eq in E. subst c. discriminate H.
Qed.

Lemma titre_mis_en_forme_sans t :
  Forall (fun c => eqc c 124%N = false) t ->
  Forall (fun c => est_separateur c = false) (titre_mis_en_forme t)
  /\ espaces_simples (titre_mis_en_forme t)
  /\ bord (titre_mis_en_forme t) /\ bord (rev (titre_mis_en_forme t)).
Proof.
  intros Ht. unfold titre_mis_en_forme.
  set (Y := sub false (Cls (one_of (u "-_"))) (u " ") t).
  assert (HY : Forall (fun c => est_separateur c = false) Y).
  { assert (H1 : Forall (fun c => one_of (u "-_") c = false) Y)
      by (apply sub_classe; repeat constructor).
    assert (H2 : Forall (fun c => eqc c 124%N = false) Y)
      by (apply sub_go_sans; [ exact Ht | repeat constructor ]).
    rewrite Forall_forall in *. intros c Hc.
    specialize (H1 c Hc). specialize (H2 c Hc).
    unfold est_separateur. unfold one_of in H1. cbn in H1.
    rewrite orb_false_r in H1. rewrite H1, H2. reflexivity. }
  set (Z := sub false (plus is_space) (u " ") Y).
  assert (HZ : Forall (fun c => est_separateur c = false) Z)
    by (apply sub_go_sans; [ exact HY | repeat constructor ]).
  assert (EZ : espaces_simples Z)
    by (apply (espaces_simples_sub_plus (List.length Y)); apply Nat.le_refl).
  split; [ | split; [ | apply strip_bords ] ].
  - rewrite Forall_forall in *. intros c Hc. apply HZ. apply in_strip. exact Hc.
  - apply espaces_simples_strip. exact EZ.
Qed.

(** X14.  The title that [simplifier_titre] returns is laid out: it has
    no white space at either end, its only white spaces are plain
    spaces, no two of them adjacent, and it holds no hyphen, no
    underscore and no vertical bar. *)
Theorem titre_mis_au_propre titre_brut :
  strip (simplifier_titre titre_brut) = simplifier_titre titre_brut
  /\ espaces_simples (simplifier_titre titre_brut)
  /\ Forall (fun c => est_separateur c = false) (simplifier_titre titre_brut).
Proof.
  destruct titre_brut as [t|]; cbn [simplifier_titre].
  2:{ split; [ vm_compute; reflexivity | ].
      split; [ | repeat constructor ].
      cbn. repeat split; discriminate. }
  destruct (titre_mis_en_forme_sans _ (titre_sans_bruit_barre t))
    as (Hs & He & Hb & Hr).
  set (W := titre_mis_en_forme (titre_sans_bruit t)) in *.
  split; [ | split ].
  - apply strip_fixe; apply bords_capitalize; assumption.
  - apply espaces_simples_capitalize; assumption.
  - destruct W as [|c r]; [ constructor | ].
    cbn [capitalize]. inversion Hs as [|? ? Hc Hrr]; subst.
    apply Forall_app. split; [ apply to_title_separateur; exact Hc | ].
    unfold lower. apply Forall_forall. intros d Hd.
    apply in_map_iff in Hd as (x & <- & Hx).
    rewrite to_lower_separateur. rewrite Forall_forall in Hrr. apply Hrr. exact Hx.
Qed.

Section Localisation.

Lemma runs_classe_plus p e pv s :
  In e (skipn 1 (runs p pv s)) ->
  exists c pre, s = c :: pre ++ rest e /\ p c = true
                /\ Forall (fun x => p x = true) pre.
Proof.
  destruct s as [|c t]; cbn [runs skipn]; [ intros [] | ].
  destruct (p c) eqn:Ec; [ | intros [] ].
  intros H. apply runs_classe in H as (pre & E & F).
  exists c, pre. split; [ f_equal; exact E | split; assumption ].
Qed.

Lemma ends_lit_un c k e : In e (ends false (Lit c) k) -> rest k = c :: rest e.
Proof.
  cbn [ends]. destruct (rest k) as [|x t]; [ intros [] | ].
  unfold lit_ok. destruct (eqc c x) eqn:E; [ | intros [] ].
  apply eqc_eq in E. subst x. intros [<-|[]]. reflexivity.
Qed.

Lemma ends_suffixe_arrondissement k e :
  In e (ends false (Opt (Alt (lit (u "er")) (Alt (lit (u "e")) (lit (u "ème"))))) k) ->
  exists suf, In suf suffixes_arrondissement /\ rest k = suf ++ rest e.
Proof.
  cbn [ends]. intros H.
  apply in_app_or in H as [H|H].
  - apply in_app_or in H as [H|H]; [ | apply in_app_or in H as [H|H] ].
    + change (lit (u "er")) with (Cat (Lit 101%N) (Lit 114%N)) in H.
      apply in_ends_cat in H as (m & H1 & H2).
      apply ends_lit_un in H1, H2.
      exists (u "er"). split; [ right; left; reflexivity | ].
      rewrite H1, H2. reflexivity.
    + change (lit (u "e")) with (Lit 101%N) in H.
      apply ends_lit_un in H.
      exists (u "e"). split; [ right; right; left; reflexivity | ].
      rewrite H. reflexivity.
    + change (lit (u "ème")) with (Cat (Lit 232%N) (Cat (Lit 109%N) (Lit 101%N))) in H.
      apply in_ends_cat in H as (m & H1 & H).
      apply in_ends_cat in H as (m' & H2 & H3).
      apply ends_lit_un in H1, H2, H3.
      exists (u "ème"). split; [ right; right; right; left; reflexivity | ].
      rewrite H1, H2, H3. reflexivity.
  - destruct H as [<-|[]]. exists []. split; [ left; reflexivity | reflexivity ].
Qed.

(** The shape of a match of the pattern of the district number. *)
Lemma ends_re_arrondissement pv s e :
  In e (ends false re_arrondissement (Cursor pv s)) ->
  exists w ds suf,
    s = w :: ds ++ suf ++ rest e
    /\ is_space w = true /\ est_chiffres ds /\ ds <> []
    /\ In suf suffixes_arrondissement
    /\ (rest e = [] \/ rest e = [10%N]).
Proof.
  rewrite re_arrondissement_eq. intros H.
  apply in_ends_cat in H as (k1 & H1 & H).
  assert (F : rest e = [] \/ rest e = [10%N]).
  { destruct k1 as [pv1 s1]. eapply suite_fin. exact H. }
  unfold suite_arrondissement in H.
  apply in_ends_cat in H as (k2 & H2 & H).
  apply in_ends_cat in H as (k3 & H3 & H4).
  cbn [ends rest] in H1.
  destruct s as [|w t]; [ destruct H1 | ].
  destruct (is_space w) eqn:Ew; [ | destruct H1 ].
  destruct H1 as [<-|[]]. cbn [rest prev] in H2.
  unfold plus in H2. apply in_ends_many in H2. cbn [rest prev] in H2.
  apply runs_classe_plus in H2 as (d & pre & Et & Hd & Hpre).
  apply ends_suffixe_arrondissement in H3 as (suf & Hsuf & Ek2).
  assert (Ee : rest k3 = rest e).
  { cbn [ends] in H4. destruct (rest k3) as [|c [|c' l]] eqn:E3.
    - destruct H4 as [<-|[]]. symmetry. exact E3.
    - destruct (eqc c 10%N); [ | destruct H4 ].
      destruct H4 as [<-|[]]. symmetry. exact E3.
    - destruct H4. }
  exists w, (d :: pre), suf. split; [ | split; [ exact Ew | ] ].
  - rewrite Et, Ek2, Ee. reflexivity.
  - split; [ constructor; assumption | ].
    split; [ discriminate | ]. split; assumption.
Qed.

Lemma bord_rev_queue c t : t <> [] -> bord (rev (c :: t)) -> bord (rev t).
Proof.
  intros Hne H. cbn [rev] in H.
  destruct (rev t) as [|x l] eqn:E.
  - apply (f_equal (@rev char)) in E. rewrite rev_involutive in E. contradiction.
  - exact H.
Qed.

(** On a text that does not end with a white space, the removal of the
    district number leaves the text as it is or takes a district number
    from its end. *)
Lemma sans_arrondissement_cas s : forall pv,
  bord (rev s) ->
  sub_go false re_arrondissement [] 0 pv s = s
  \/ avec_arrondissement (sub_go false re_arrondissement [] 0 pv s) s.
Proof.
  induction s as [|x t IH]; intros pv Hb.
  - left. reflexivity.
  - cbn [sub_go]. unfold match_len.
    destruct (ends false re_arrondissement (Cursor pv (x :: t))) as [|e l] eqn:E.
    + destruct t as [|y t'].
      * left. reflexivity.
      * destruct (IH (Some x) (bord_rev_queue x (y :: t') ltac:(discriminate) Hb))
          as [I|(w & ds & suf & Es & Hw & Hds & Hne & Hsuf)].
        -- left. rewrite I. reflexivity.
        -- right. exists w, ds, suf. split; [ | repeat split; assumption ].
           cbn [app]. f_equal. exact Es.
    + assert (I : In e (ends false re_arrondissement (Cursor pv (x :: t))))
        by (rewrite E; left; reflexivity).
      apply ends_re_arrondissement in I
        as (w & ds & suf & Es & Hw & Hds & Hne & Hsuf & [Hr|Hr]).
      * rewrite Hr. cbn [List.length]. rewrite Nat.sub_0_r.
        cbn [app]. rewrite sub_go_passe.
        right. exists w, ds, suf. split; [ | repeat split; assumption ].
        rewrite Es, Hr, app_nil_r. reflexivity.
      * exfalso. rewrite Es, Hr in Hb.
        replace (w :: ds ++ suf ++ [10%N]) with ((w :: ds ++ suf) ++ [10%N]) in Hb
          by (cbn; rewrite <- app_assoc; reflexivity).
        apply bord_rev_dernier in Hb. discriminate Hb.
Qed.

Lemma contains_iff p s :
  contains p s = true <-> exists a b, s = a ++ p ++ b.
Proof.
  induction s as [|c t IH]; cbn [contains].
  - rewrite orb_false_r, prefixb_iff. split.
    + intros [r E]. exists [], r. exact E.
    + intros (a & b & E). destruct a; [ exists b; exact E | discriminate ].
  - rewrite orb_true_iff, prefixb_iff, IH. split.
    + intros [[r E]|(a & b & E)].
      * exists [], r. exact E.
      * exists (c :: a), b. cbn. f_equal. exact E.
    + intros (a & b & E). destruct a as [|x a].
      * left. exists b. exact E.
      * right. cbn in E. inversion E; subst. exists a, b. reflexivity.
Qed.

Lemma rsplit1_cas sep s :
  (rsplit1 sep s = [s] /\ forall l r, s <> l ++ sep ++ r)
  \/ exists l r, s = l ++ sep ++ r /\ derniere_occurrence sep l r
                 /\ rsplit1 sep s = [l; r].
Proof.
  pose proof (rfind_spec sep s) as R.
  destruct (rfind sep s) as [i|] eqn:E.
  - right. destruct R as (Hi & (r & Er) & Hlast).
    exists (firstn i s), r.
    assert (D : derniere_occurrence sep (firstn i s) r).
    { intros l' r' H. rewrite <- Er in H.
      rewrite length_firstn, Nat.min_l by exact Hi. apply (Hlast l' r'). exact H. }
    split; [ exact Er | split; [ exact D | ] ].
    rewrite Er at 1. apply rsplit1_derniere. exact D.
  - left. split; [ | exact R ]. apply rsplit1_absent. exact R.
Qed.

Lemma strip_sans_separateur sep l r :
  sep <> [] -> derniere_occurrence sep l r -> contains sep (strip r) = false.
Proof.
  intros Hne D. destruct (contains sep (strip r)) eqn:C; [ exfalso | reflexivity ].
  apply contains_iff in C as (a & b & E).
  destruct (strip_forme r) as (pre & post & Er & _).
  rewrite E in Er.
  specialize (D (l ++ sep ++ pre ++ a) (b ++ post)).
  assert (H : l ++ sep ++ r = (l ++ sep ++ pre ++ a) ++ sep ++ b ++ post).
  { rewrite Er. rewrite <- !app_assoc. reflexivity. }
  specialize (D H). rewrite !length_app in D.
  destruct sep; [ congruence | cbn in D; lia ].
Qed.

End Localisation.

(** X15.  Every location of the current characters is cut as follows.
    It is [a ++ v ++ b ++ " - " ++ c ++ dept ++ d], cut at its last " - ",
    or [a ++ v ++ b] with no " - " and the department "France", where
    [a], [b], [c] and [d] are white space and [v] has none at its ends.
    The department has no white space at either end and holds no " - ".
    The town is [v], as it is or without the district number at its end:
    nothing else is ever taken from it. *)
Theorem localisation_separee loc :
  texte_courant loc = true ->
  exists a v b,
    blancs a /\ blancs b /\ sans_bords v
    /\ (((forall l r, loc <> l ++ u " - " ++ r)
         /\ loc = a ++ v ++ b
         /\ snd (separer_localisation (CStr loc)) = u "France")
        \/ (exists c d,
              blancs c /\ blancs d
              /\ loc = (a ++ v ++ b) ++ u " - "
                        ++ c ++ snd (separer_localisation (CStr loc)) ++ d
              /\ derniere_occurrence (u " - ") (a ++ v ++ b)
                   (c ++ snd (separer_localisation (CStr loc)) ++ d)))
    /\ sans_bords (snd (separer_localisation (CStr loc)))
    /\ contains (u " - ") (snd (separer_localisation (CStr loc))) = false
    /\ (fst (separer_localisation (CStr loc)) = v
        \/ avec_arrondissement (fst (separer_localisation (CStr loc))) v).
Proof.
  intros _. unfold separer_localisation.
  destruct (rsplit1_cas (u " - ") loc) as [[E Hn]|(l & r & El & D & E)]; rewrite E.
  - destruct (strip_forme loc) as (a & b & Ef & Ha & Hb).
    exists a, (strip loc), b. cbn [fst snd].
    split; [ exact Ha | ]. split; [ exact Hb | ].
    split; [ apply strip_bords | ].
    split; [ left; split; [ exact Hn | split; [ exact Ef | reflexivity ] ] | ].
    split; [ split; vm_compute; reflexivity | ].
    split; [ vm_compute; reflexivity | ].
    apply sans_arrondissement_cas. apply strip_bords.
  - destruct (strip_forme l) as (a & b & Ef & Ha & Hb).
    destruct (strip_forme r) as (c & d & Eg & Hc & Hd).
    exists a, (strip l), b. cbn [fst snd].
    split; [ exact Ha | ]. split; [ exact Hb | ].
    split; [ apply strip_bords | ].
    split.
    { right. exists c, d. split; [ exact Hc | ]. split; [ exact Hd | ].
      rewrite <- Ef, <- Eg. split; [ exact El | exact D ]. }
    split; [ apply strip_bords | ].
    split; [ eapply strip_sans_separateur; [ discriminate | exact D ] | ].
    apply sans_arrondissement_cas. apply strip_bords.
Qed.

Lemma localisation_separee_witness :
  exists a v b,
    blancs a /\ blancs b /\ sans_bords v
    /\ (((forall l r, u "  Paris 15e -  75 " <> l ++ u " - " ++ r)
         /\ u "  Paris 15e -  75 " = a ++ v ++ b
         /\ snd (separer_localisation (CStr (u "  Paris 15e -  75 "))) = u "France")
        \/ (exists c d,
              blancs c /\ blancs d
              /\ u "  Paris 15e -  75 "
                 = (a ++ v ++ b) ++ u " - "
                   ++ c ++ snd (separer_localisation (CStr (u "  Paris 15e -  75 "))) ++ d
              /\ derniere_occurrence (u " - ") (a ++ v ++ b)
                   (c ++ snd (separer_localisation (CStr (u "  Paris 15e -  75 "))) ++ d)))
    /\ sans_bords (snd (separer_localisation (CStr (u "  Paris 15e -  75 "))))
    /\ contains (u " - ") (snd (separer_localisation (CStr (u "  Paris 15e -  75 ")))) = false
    /\ (fst (separer_localisation (CStr (u "  Paris 15e -  75 "))) = v
        \/ avec_arrondissement
             (fst (separer_localisation (CStr (u "  Paris 15e -  75 ")))) v).
Proof.
  apply (localisation_separee (u "  Paris 15e -  75 ")).
  vm_compute. reflexivity.
Defined.

Section Espaces.

Lemma replace_un_vide c s :
  replace [c] [] s = filter (fun x => negb (eqc c x)) s.
Proof.
  unfold replace. induction s as [|x t IH]; [ reflexivity | ].
  cbn [replace_go prefixb filter List.length Nat.sub app].
  destruct (eqc c x); cbn [andb negb].
  - destruct t; exact IH.
  - f_equal. exact IH.
Qed.

Lemma filter_filter {A : Type} (f g : A -> bool) l :
  filter f (filter g l) = filter (fun x => (g x && f x)%bool) l.
Proof.
  induction l as [|a l IH]; [ reflexivity | ].
  cbn. destruct (g a); cbn; [ destruct (f a); rewrite IH; reflexivity | exact IH ].
Qed.

Lemma eqc_sym a b : eqc a b = eqc b a.
Proof. apply N.eqb_sym. Qed.

Lemma clean_txt_sans_espaces t :
  clean_txt t = replace (u "k") (u "000") (sans_espaces (lower t)).
Proof.
  unfold clean_txt. f_equal.
  change (u " ") with [32%N].
  rewrite !replace_un_vide, !filter_filter. unfold sans_espaces.
  apply filter_ext. intros c. unfold est_espace_efface.
  rewrite (eqc_sym c 32%N), (eqc_sym c 160%N), (eqc_sym c 8239%N).
  destruct (eqc 32%N c), (eqc 160%N c), (eqc 8239%N c); reflexivity.
Qed.

Lemma to_lower_espace_efface c :
  est_espace_efface (to_lower c) = est_espace_efface c.
Proof.
  destruct (N.lt_ge_cases c 256) as [H|H].
  - apply eqb_prop. revert c H.
    apply (par_cas (fun c => Bool.eqb (est_espace_efface (to_lower c))
                                      (est_espace_efface c))).
    vm_compute. reflexivity.
  - rewrite to_lower_grand by exact H. reflexivity.
Qed.

Lemma sans_espaces_lower t : sans_espaces (lower t) = lower (sans_espaces t).
Proof.
  unfold sans_espaces, lower. induction t as [|c t IH]; [ reflexivity | ].
  cbn [map filter]. rewrite to_lower_espace_efface.
  destruct (est_espace_efface c); cbn [negb map]; [ exact IH | f_equal; exact IH ].
Qed.

Lemma clean_txt_egal t1 t2 :
  sans_espaces t1 = sans_espaces t2 -> clean_txt t1 = clean_txt t2.
Proof.
  intros H. rewrite !clean_txt_sans_espaces, !sans_espaces_lower, H. reflexivity.
Qed.

End Espaces.

(** X16.  The plain spaces, the no-break spaces and the narrow no-break
    spaces of a salary do not count: two texts that are the same once
    these are taken out, and of which both or neither show
    "non affiché", give the same result. *)
Theorem espaces_sans_effet t1 t2 :
  sans_espaces t1 = sans_espaces t2 ->
  contains (u "non affiché") (lower t1) = contains (u "non affiché") (lower t2) ->
  nettoyer_salaire (CStr t1) = nettoyer_salaire (CStr t2).
Proof.
  intros H1 H2. unfold nettoyer_salaire.
  rewrite H2, (clean_txt_egal t1 t2 H1). reflexivity.
Qed.

Lemma espaces_sans_effet_witness :
  nettoyer_salaire (CStr (u "35 000 €")) = nettoyer_salaire (CStr (u "35000€")).
Proof.
  apply (espaces_sans_effet (u "35 000 €") (u "35000€")).
  - vm_compute. reflexivity.
  - vm_compute. reflexivity.
Defined.

(** X17.  The robot and the pipeline agree on the values given for what
    a card does not show.  The salary recorded for a card whose text has
    no euro sign is read by [nettoyer_salaire] as no salary; the
    location recorded when the card shows none is read by
    [separer_localisation] as the town "France" in the department
    "France". *)
Theorem valeurs_par_defaut c o :
  extraire c = Val (Some o) ->
  (forall txt, c_text c = Val (Some txt) -> ~ In 8364%N txt ->
     nettoyer_salaire (CStr (o_Salaire o)) = Ok None)
  /\ (forall e, texte_strip (c_localisation c) = Throw e ->
     separer_localisation (CStr (o_Localisation o)) = (u "France", u "France")).
Proof.
  unfold extraire. intros H.
  destruct (c_h3 c) as [h3|]; cbn [obind] in H; [ | discriminate ].
  destruct (h_ps h3) as [ps|]; cbn [obind] in H; [ | discriminate ].
  match type of H with
  | obind ?x _ = _ => destruct x as [[titre entreprise]|]
  end; cbn [obind] in H; [ | discriminate ].
  destruct titre as [|t0 titre]; [ discriminate | ].
  destruct (c_text c) as [[txt|]|]; cbn [obind] in H; try discriminate.
  inversion H; subst o. cbn [o_Salaire o_Localisation]. split.
  - intros txt' E Hn. inversion E; subst txt'.
    rewrite (extraire_salaire_sans_euro txt Hn). vm_compute. reflexivity.
  - intros e E. rewrite E. cbn [ou_defaut]. vm_compute. reflexivity.
Qed.

Lemma valeurs_par_defaut_witness :
  nettoyer_salaire (CStr (u "Non affiché")) = Ok None.
Proof.
  apply (proj1 (valeurs_par_defaut
                  (Carte (Val (Entete (Val [attr "Data Analyst"; attr "ACME"]) (attr "")))
                         (attr "Lyon - 69") (attr "CDI") (attr "Data Analyst ACME")
                         (attr "https://www.hellowork.com/fr-fr/emplois/1.html"))
                  (Offre (u "Data Analyst") (u "ACME") (u "Lyon - 69") (u "CDI")
                         (u "Non affiché")
                         (Some (u "https://www.hellowork.com/fr-fr/emplois/1.html")))
                  ltac:(vm_compute; reflexivity))
          (u "Data Analyst ACME")).
  - reflexivity.
  - vm_compute. intros H. repeat (destruct H as [H|H]; [ discriminate H | ]). exact H.
Defined.

Section Entiers.

Local Open Scope Z_scope.

(** The integers below 2^53 are floats. *)
Lemma of_Z_exact n :
  0 <= n < 2 ^ 53 -> exists q, of_Z n = FFin q /\ (q == inject_Z n)%Q.
Proof.
  intros Hn. unfold of_Z, round64.
  pose proof (Qred_correct (inject_Z n)) as Ey.
  set (y := Qred (inject_Z n)) in *.
  assert (Ey' : Qnum y = n * Zpos (Qden y)).
  { unfold Qeq in Ey. cbn [inject_Z Qnum Qden] in Ey. lia. }
  destruct (Z.eq_dec n 0) as [->|Hz].
  - assert (E0 : Qnum y = 0) by lia. rewrite E0.
    exists 0%Q. split; reflexivity.
  - assert (Hp : 0 < Qnum y) by nia.
    destruct (Qnum y) as [|p|p] eqn:Eq; try lia.
    rewrite <- Eq in *. clear p Eq.
    assert (HL : 0 <= ilog2 y <= 52).
    { apply (ilog2_range y 1 (2 ^ 53 - 1) 0 52); try lia.
      - rewrite Ey. unfold Qle. cbn. lia.
      - rewrite Ey. unfold Qle. cbn. lia. }
    set (L := ilog2 y) in *.
    assert (Ee : Z.max (L - 52) (-1074) = L - 52) by lia.
    assert (P1 : pz (L - 52) = 1) by (apply pz_nonpos; lia).
    assert (P2 : 0 < pz (52 - L)) by apply pz_pos.
    assert (P3 : pz (52 - L) <= 2 ^ 52).
    { rewrite <- (pz_nonneg 52) by lia. apply pz_le. lia. }
    destruct (round_pos_between y (n * pz (52 - L)) (n * pz (52 - L)) Hp)
      as (m & Em & Hm).
    + fold L. rewrite Ee. unfold Qle. rewrite scale2_num, scale2_den.
      cbn [inject_Z Qnum Qden]. rewrite P1.
      replace (- (L - 52)) with (52 - L) by lia. rewrite Ey'. nia.
    + fold L. rewrite Ee. unfold Qle. rewrite scale2_num, scale2_den.
      cbn [inject_Z Qnum Qden]. rewrite P1.
      replace (- (L - 52)) with (52 - L) by lia. rewrite Ey'. nia.
    + fold L. rewrite Ee. unfold Qlt. rewrite scale2_num, scale2_den.
      cbn [inject_Z Qnum Qden]. rewrite P1.
      replace (- (L - 52)) with (52 - L) by lia.
      assert (2 ^ 53 < 2 ^ 1024) by (apply Z.pow_lt_mono_r; lia).
      nia.
    + fold L in Em. rewrite Ee in Em.
      assert (m = n * pz (52 - L)) by lia. subst m.
      eexists. split; [ exact Em | ].
      rewrite Qred_correct. unfold Qeq. rewrite scale2_num, scale2_den.
      cbn [inject_Z Qnum Qden]. rewrite P1.
      replace (- (L - 52)) with (52 - L) by lia. lia.
Qed.

Lemma fadd_exact a b qa qb :
  (qa == inject_Z a)%Q -> (qb == inject_Z b)%Q ->
  fadd (FFin qa) (FFin qb) = of_Z (a + b).
Proof.
  intros Ha Hb. cbn [fadd]. unfold of_Z. apply round64_Qeq.
  rewrite Ha, Hb, inject_Z_plus. reflexivity.
Qed.

Lemma fmul_exact a b qa qb :
  (qa == inject_Z a)%Q -> (qb == inject_Z b)%Q ->
  fmul (FFin qa) (FFin qb) = of_Z (a * b).
Proof.
  intros Ha Hb. cbn [fmul]. unfold of_Z. apply round64_Qeq.
  rewrite Ha, Hb, inject_Z_mult. reflexivity.
Qed.

Lemma fdiv_un a qa q1 :
  (qa == inject_Z a)%Q -> (q1 == 1)%Q ->
  fdiv (FFin qa) (FFin q1) = Some (of_Z a).
Proof.
  intros Ha H1. cbn [fdiv].
  assert (Z : is_zero q1 = false).
  { unfold is_zero. apply Z.eqb_neq. intros E.
    unfold Qeq in H1. cbn in H1. lia. }
  rewrite Z. f_equal. unfold of_Z. apply round64_Qeq.
  rewrite Ha, H1. unfold Qdiv. change (/ 1)%Q with 1%Q. apply Qmult_1_r.
Qed.

Lemma round_ndigits_entier a qa :
  (qa == inject_Z a)%Q -> round_ndigits (FFin qa) 2 = of_Z a.
Proof.
  intros Ha. cbn [round_ndigits]. unfold of_Z.
  assert (E : round_half_even (qa * inject_Z (Zpos (pow10 2))) = 100 * a).
  { apply round_half_even_unique.
    change (Zpos (pow10 2)) with 100.
    unfold Qeq in Ha. cbn [inject_Z Qnum Qden] in Ha.
    cbn [Qmult Qnum Qden inject_Z]. rewrite Pos.mul_1_r. lia. }
  rewrite E. apply round64_Qeq.
  change (pow10 2) with 100%positive.
  unfold Qeq. cbn [inject_Z Qnum Qden]. lia.
Qed.

Lemma fle_exact a b qa qb :
  (qa == inject_Z a)%Q -> (qb == inject_Z b)%Q ->
  fle (FFin qa) (FFin qb) = (a <=? b).
Proof.
  intros Ha Hb. cbn [fle].
  destruct (Z.leb_spec a b) as [H|H].
  - apply Qle_bool_iff. rewrite Ha, Hb. rewrite <- Zle_Qle. exact H.
  - destruct (Qle_bool qa qb) eqn:E; [ | reflexivity ].
    apply Qle_bool_iff in E. rewrite Ha, Hb in E. rewrite <- Zle_Qle in E. lia.
Qed.

Lemma flt_exact a b qa qb :
  (qa == inject_Z a)%Q -> (qb == inject_Z b)%Q ->
  flt (FFin qa) (FFin qb) = (a <? b).
Proof.
  intros Ha Hb. cbn [flt].
  rewrite (fle_exact b a qb qa Hb Ha : Qle_bool qb qa = (b <=? a)).
  destruct (Z.leb_spec b a), (Z.ltb_spec a b); try reflexivity; lia.
Qed.

End Entiers.

Section SansException.

(** What [re.findall] returns are texts of matches. *)
Lemma findall_go_filtrage r m s : forall skip pv,
  In m (findall_go r skip pv s) ->
  exists pv' s' n, match_len false r pv' s' = Some n /\ m = firstn n s'.
Proof.
  induction s as [|c t IH]; intros skip pv H; cbn [findall_go] in H.
  - destruct skip; [ | destruct H ].
    destruct (match_len false r pv []) as [n|] eqn:E; [ | destruct H ].
    destruct H as [<-|[]]. exists pv, [], n. split; [ exact E | ].
    destruct n; reflexivity.
  - destruct skip as [|k]; [ | eapply IH; exact H ].
    destruct (match_len false r pv (c :: t)) as [[|n]|] eqn:E.
    + destruct H as [<-|H]; [ | eapply IH; exact H ].
      exists pv, (c :: t), 0. split; [ exact E | reflexivity ].
    + destruct H as [<-|H]; [ | eapply IH; exact H ].
      exists pv, (c :: t), (S n). split; [ exact E | reflexivity ].
    + eapply IH. exact H.
Qed.

Lemma findall_go_longueur r s : forall skip pv,
  List.length (findall_go r skip pv s) <= S (List.length s).
Proof.
  induction s as [|c t IH]; intros skip pv; cbn [findall_go].
  - destruct skip; [ | cbn; lia ].
    destruct (match_len false r pv []); cbn; lia.
  - destruct skip as [|k].
    + destruct (match_len false r pv (c :: t)) as [[|n]|]; cbn [List.length];
        try (specialize (IH 0 (Some c)); lia).
      specialize (IH n (Some c)). lia.
    + specialize (IH k (Some c)). cbn [List.length]. lia.
Qed.

Lemma firstn_moins_eq {A : Type} (a b s : list A) :
  s = a ++ b -> firstn (List.length s - List.length b) s = a.
Proof. intros ->. apply firstn_moins. Qed.

Lemma in_ends_opt ic r k e :
  In e (ends ic (Opt r) k) <-> In e (ends ic r k) \/ e = k.
Proof.
  change (ends ic (Opt r) k) with (ends ic r k ++ [k]).
  rewrite in_app_iff. cbn. intuition.
Qed.

(** The shape of a match of the pattern of a number. *)
Lemma match_len_re_nombre pv s n :
  match_len false re_nombre pv s = Some n ->
  exists ip, est_chiffres ip /\ ip <> []
    /\ (firstn n s = ip
        \/ exists fp, est_chiffres fp /\ fp <> [] /\ firstn n s = ip ++ 46%N :: fp).
Proof.
  unfold match_len.
  destruct (ends false re_nombre (Cursor pv s)) as [|e l] eqn:E; [ discriminate | ].
  assert (I : In e (ends false re_nombre (Cursor pv s))) by (rewrite E; left; reflexivity).
  intros H. inversion H; subst n. clear H E.
  unfold re_nombre in I.
  apply in_ends_cat in I as (k1 & H1 & H2).
  unfold plus in H1. apply in_ends_many in H1. cbn [rest prev] in H1.
  apply runs_classe_plus in H1 as (d & pre & Es & Hd & Hpre).
  exists (d :: pre). split; [ constructor; assumption | ].
  split; [ discriminate | ].
  apply in_ends_opt in H2 as [H2|H2].
  - right. apply in_ends_cat in H2 as (k2 & H3 & H4).
    apply ends_lit_un in H3.
    unfold plus in H4. apply in_ends_many in H4.
    apply runs_classe_plus in H4 as (d' & pre' & Es' & Hd' & Hpre').
    exists (d' :: pre'). split; [ constructor; assumption | ].
    split; [ discriminate | ].
    apply firstn_moins_eq. rewrite Es, H3, Es'.
    cbn [app]. rewrite <- app_assoc. reflexivity.
  - left. subst e. apply firstn_moins_eq. exact Es.
Qed.

Lemma float_of_str_entier ip :
  est_chiffres ip -> ip <> [] -> float_of_str ip = Some (of_Z (Z_of_digits ip)).
Proof.
  intros H Hne. unfold float_of_str.
  pose proof (span_digits_app ip [] H I) as E. rewrite app_nil_r in E.
  rewrite E. destruct ip; [ congruence | reflexivity ].
Qed.

(** [float] reads every text that the pattern of the numbers finds. *)
Lemma float_of_str_nombres s m :
  In m (findall re_nombre s) -> exists f, float_of_str m = Some f.
Proof.
  intros H. apply findall_go_filtrage in H as (pv & s' & n & E & ->).
  apply match_len_re_nombre in E as (ip & Hip & Hne & [->|(fp & Hfp & Hnf & ->)]).
  - eexists. apply float_of_str_entier; assumption.
  - eexists. apply float_of_str_point; assumption.
Qed.

Lemma map_result_ok {A B : Type} (f : A -> result B) l :
  (forall a, In a l -> exists b, f a = Ok b) -> exists bs, map_result f l = Ok bs.
Proof.
  induction l as [|a t IH]; intros H.
  - exists []. reflexivity.
  - destruct (H a (or_introl eq_refl)) as [b Eb].
    destruct IH as [bs Ebs]; [ intros x Hx; apply H; right; exact Hx | ].
    exists (b :: bs). cbn. rewrite Eb. cbn. rewrite Ebs. reflexivity.
Qed.

Lemma replace_go_longueur c new s : forall skip,
  List.length (replace_go [c] new skip s) <= Nat.max 1 (List.length new) * List.length s.
Proof.
  induction s as [|x t IH]; intros skip; cbn [replace_go]; [ cbn; lia | ].
  destruct skip as [|k].
  - destruct (prefixb [c] (x :: t)).
    + rewrite length_app. specialize (IH (List.length [c] - 1)).
      cbn [List.length] in *. lia.
    + specialize (IH 0). cbn [List.length] in *. lia.
  - specialize (IH k). cbn [List.length]. lia.
Qed.

Lemma clean_txt_longueur t : List.length (clean_txt t) <= 3 * List.length t.
Proof.
  rewrite clean_txt_sans_espaces. unfold replace.
  change (u "k") with [107%N].
  etransitivity; [ apply replace_go_longueur | ].
  change (Nat.max 1 (List.length (u "000"))) with 3.
  unfold sans_espaces.
  pose proof (filter_length_le (fun c => negb (est_espace_efface c)) (lower t)) as F.
  unfold lower in *. rewrite length_map in F. lia.
Qed.

Lemma nettoyer_salaire_total texte :
  (Z.of_nat (List.length texte) < 2 ^ 51)%Z ->
  exists r, nettoyer_salaire (CStr texte) = Ok r.
Proof.
  intros Hlen. unfold nettoyer_salaire.
  destruct (contains (u "non affiché") (lower texte)); [ eexists; reflexivity | ].
  set (clean := clean_txt texte).
  destruct (findall re_nombre clean) as [|n0 ns] eqn:En; [ eexists; reflexivity | ].
  rewrite <- En.
  destruct (map_result_ok (fun n => of_option (float_of_str n)) (findall re_nombre clean))
    as [floats Ef].
  { intros m Hm. destruct (float_of_str_nombres _ _ Hm) as [f Em].
    exists f. rewrite Em. reflexivity. }
  rewrite Ef. cbn [bind].
  assert (Hn : (1 <= Z.of_nat (List.length (findall re_nombre clean)) < 2 ^ 53)%Z).
  { split; [ rewrite En; cbn [List.length]; lia | ].
    pose proof (findall_go_longueur re_nombre clean 0 None) as L1.
    pose proof (clean_txt_longueur texte) as L2.
    fold (findall re_nombre clean) in L1. fold clean in L2.
    clearbody clean.
    change (2 ^ 53)%Z with 9007199254740992%Z.
    change (2 ^ 51)%Z with 2251799813685248%Z in Hlen. lia. }
  destruct (of_Z_exact (Z.of_nat (List.length (findall re_nombre clean))))
    as (q & Eq & Hq); [ lia | ].
  unfold float_of_int. rewrite Eq. cbn [of_option bind].
  assert (Z : is_zero q = false).
  { unfold is_zero. apply Z.eqb_neq. intros E.
    unfold Qeq in Hq. cbn [inject_Z Qnum Qden] in Hq. lia. }
  assert (D : exists v, fdiv (fsum floats) (FFin q) = Some v)
    by (destruct (fsum floats); cbn [fdiv]; rewrite Z; eexists; reflexivity).
  destruct D as [v ->]. cbn [of_option bind].
  match goal with
  | |- context [if ?b then _ else _] => destruct b
  end; eexists; reflexivity.
Qed.

End SansException.

(** X18.  [nettoyer_salaire] raises no exception: on a missing value it
    returns [None], and on a text (of fewer than 2^51 characters) it
    returns a salary or [None]; every number that the pattern finds is
    read by [float], and the mean is never a division by zero.  So the
    pipeline, on a table that has a row, raises no exception and writes
    a table; only on a table without rows does it raise, at the
    assignment of the town and the department. *)
Theorem nettoyer_salaire_sans_exception :
  nettoyer_salaire CNaN = Ok None
  /\ (forall texte,
      (Z.of_nat (List.length texte) < 2 ^ 51)%Z ->
      exists r, nettoyer_salaire (CStr texte) = Ok r)
  /\ lancer_traitement_final (Some []) = Raise
  /\ (forall df,
      df <> [] ->
      (forall l texte, In l df -> Salaire l = CStr texte ->
                       (Z.of_nat (List.length texte) < 2 ^ 51)%Z) ->
      exists out, lancer_traitement_final (Some df) = Ok (Some out)).
Proof.
  split; [ reflexivity | ]. split; [ exact nettoyer_salaire_total | ].
  split; [ reflexivity | ].
  intros df Hne H.
  destruct (map_result_ok transformer df) as [rows E].
  - intros l Hl. unfold transformer.
    assert (N : exists r, nettoyer_salaire (Salaire l) = Ok r).
    { destruct (Salaire l) as [t|] eqn:Es.
      - apply nettoyer_salaire_total. eapply H; eassumption.
      - eexists. reflexivity. }
    destruct N as [r ->]. cbn [bind].
    destruct (separer_localisation (Localisation l)). eexists. reflexivity.
  - exists (drop_duplicates rows). apply lancer_traitement_final_sortie.
    split; [ exact Hne | ]. exists rows. split; [ | reflexivity ].
    apply map_result_transformee. exact E.
Qed.

Lemma nettoyer_salaire_sans_exception_witness :
  exists r, nettoyer_salaire (CStr (u "12 € / heure")) = Ok r.
Proof.
  apply (proj1 (proj2 nettoyer_salaire_sans_exception) (u "12 € / heure")).
  vm_compute. reflexivity.
Defined.

Section MontantEntier.

Lemma inerte_pas_chiffre c : inerte c = true -> is_digit c = false.
Proof.
  unfold inerte. intros H. apply andb_true_iff in H as [_ H].
  apply negb_true_iff in H. apply orb_false_iff in H as [H _].
  apply orb_false_iff in H as [H _]. exact H.
Qed.

Lemma inerte_pas_lettre c : inerte c = true -> in_range 97%N 122%N c = false.
Proof.
  unfold inerte. intros H. apply andb_true_iff in H as [_ H].
  apply negb_true_iff in H. apply orb_false_iff in H as [_ H]. exact H.
Qed.

Lemma chiffre_pas_lettre c : is_digit c = true -> in_range 97%N 122%N c = false.
Proof.
  unfold is_digit, in_range. intros H.
  apply andb_true_iff in H as [H1 H2]. apply N.leb_le in H1, H2.
  apply andb_false_iff. left. apply N.leb_gt. lia.
Qed.

Lemma inerte_lower c : inerte c = true -> inerte (to_lower c) = true.
Proof.
  destruct (N.lt_ge_cases c 256) as [H|H].
  - apply implb_true_iff. revert c H.
    apply (par_cas (fun c => implb (inerte c) (inerte (to_lower c)))).
    vm_compute. reflexivity.
  - rewrite to_lower_grand by exact H. trivial.
Qed.

Lemma sans_lettre x s :
  in_range 97%N 122%N x = true ->
  Forall (fun c => is_digit c = true \/ inerte c = true) s -> ~ In x s.
Proof.
  intros Hx F H. rewrite Forall_forall in F.
  destruct (F x H) as [D|D].
  - apply chiffre_pas_lettre in D. congruence.
  - apply inerte_pas_lettre in D. congruence.
Qed.

Lemma sans_mot x p s :
  in_range 97%N 122%N x = true ->
  Forall (fun c => is_digit c = true \/ inerte c = true) s ->
  contains (x :: p) s = false.
Proof.
  intros Hx F. destruct (contains (x :: p) s) eqn:E; [ | reflexivity ].
  exfalso. apply contains_tete in E. exact (sans_lettre x s Hx F E).
Qed.

Lemma sans_espaces_chiffres ds : est_chiffres ds -> sans_espaces ds = ds.
Proof.
  unfold sans_espaces. induction 1 as [|c ds Hc _ IH]; [ reflexivity | ].
  cbn [filter].
  assert (E : est_espace_efface c = false).
  { unfold is_digit, in_range in Hc. apply andb_true_iff in Hc as [H1 H2].
    apply N.leb_le in H1, H2. unfold est_espace_efface, eqc.
    repeat match goal with
           | |- context [N.eqb ?a ?b] => destruct (N.eqb_spec a b)
           end; try reflexivity; lia. }
  rewrite E. cbn [negb]. f_equal. exact IH.
Qed.

(** The text in which the numbers are looked for, for digits followed by
    inert characters. *)
Lemma clean_txt_montant ds suf :
  est_chiffres ds -> Forall (fun c => inerte c = true) suf ->
  exists s2,
    clean_txt (ds ++ suf) = ds ++ s2
    /\ lower (ds ++ suf) = ds ++ lower suf
    /\ Forall (fun c => inerte c = true) s2
    /\ Forall (fun c => inerte c = true) (lower suf).
Proof.
  intros Hds Hsuf.
  assert (Ed : lower ds = ds).
  { apply lower_decimal. eapply Forall_impl; [ | exact Hds ].
    intros c Hc. left. exact Hc. }
  assert (El : lower (ds ++ suf) = ds ++ lower suf)
    by (unfold lower in *; rewrite map_app, Ed; reflexivity).
  assert (Hl : Forall (fun c => inerte c = true) (lower suf)).
  { unfold lower. apply Forall_forall. intros c Hc.
    apply in_map_iff in Hc as (x & <- & Hx).
    apply inerte_lower. rewrite Forall_forall in Hsuf. apply Hsuf. exact Hx. }
  exists (sans_espaces (lower suf)).
  assert (H2 : Forall (fun c => inerte c = true) (sans_espaces (lower suf))).
  { unfold sans_espaces. apply Forall_forall. intros c Hc.
    apply filter_In in Hc as [Hc _]. rewrite Forall_forall in Hl. apply Hl. exact Hc. }
  split; [ | split; [ exact El | split; assumption ] ].
  rewrite clean_txt_sans_espaces, El.
  unfold sans_espaces at 1. rewrite filter_app.
  fold (sans_espaces ds) (sans_espaces (lower suf)).
  rewrite (sans_espaces_chiffres ds Hds).
  change (u "k") with [107%N]. apply replace_absent.
  apply sans_lettre; [ reflexivity | ].
  apply Forall_app. split.
  - eapply Forall_impl; [ | exact Hds ]. intros c Hc. left. exact Hc.
  - eapply Forall_impl; [ | exact H2 ]. intros c Hc. right. exact Hc.
Qed.

Lemma ends_plus_non pv t :
  match t with [] => True | c :: _ => is_digit c = false end ->
  ends false (plus is_digit) (Cursor pv t) = [].
Proof.
  intros H. unfold plus. cbn [ends rest prev].
  destruct t as [|c t]; [ reflexivity | ]. cbn [runs]. rewrite H. reflexivity.
Qed.

Lemma match_len_nombre_non pv t :
  match t with [] => True | c :: _ => is_digit c = false end ->
  match_len false re_nombre pv t = None.
Proof.
  intros H. unfold match_len, re_nombre. cbn [ends].
  rewrite (ends_plus_non pv t H). reflexivity.
Qed.

Lemma findall_go_sans_chiffre s : forall pv,
  Forall (fun c => is_digit c = false) s -> findall_go re_nombre 0 pv s = [].
Proof.
  induction s as [|c t IH]; intros pv H; cbn [findall_go].
  - rewrite match_len_nombre_non by exact I. reflexivity.
  - inversion H as [|? ? Hc Ht]; subst.
    rewrite match_len_nombre_non by exact Hc. apply IH. exact Ht.
Qed.

Lemma tete_sans_chiffre s :
  Forall (fun c => is_digit c = false) s ->
  match s with [] => True | c :: _ => is_digit c = false end.
Proof. intros H. destruct H; [ exact I | assumption ]. Qed.

Lemma match_len_entier ds s2 pv :
  est_chiffres ds -> ds <> [] -> Forall (fun c => is_digit c = false) s2 ->
  match_len false re_nombre pv (ds ++ s2) = Some (List.length ds).
Proof.
  intros Hds Hne H2.
  destruct (ends_plus_chiffres ds s2 pv Hds Hne (tete_sans_chiffre s2 H2))
    as (pv1 & l1 & E1).
  unfold match_len, re_nombre. cbn [ends]. rewrite E1. cbn [flat_map].
  assert (E0 : ends false (Cat (Lit 46%N) (plus is_digit)) (Cursor pv1 s2) = []).
  { cbn [ends rest]. destruct s2 as [|c t]; [ reflexivity | ].
    destruct (lit_ok false 46%N c); [ | reflexivity ].
    cbn [flat_map]. rewrite app_nil_r.
    apply ends_plus_non. inversion H2; subst. apply tete_sans_chiffre. assumption. }
  change (ends false (Cat (Lit 46%N) (plus is_digit)) (Cursor pv1 s2) ++ [Cursor pv1 s2])
    with (ends false (Cat (Lit 46%N) (plus is_digit)) (Cursor pv1 s2) ++ [Cursor pv1 s2]).
  cbn [ends] in E0. rewrite E0. cbn [app rest].
  f_equal. rewrite length_app. lia.
Qed.

Lemma findall_go_saute r apres : forall a pv,
  exists pv',
    findall_go r (List.length a) pv (a ++ apres) = findall_go r 0 pv' apres.
Proof.
  induction a as [|c a IH]; intros pv.
  - exists pv. reflexivity.
  - destruct (IH (Some c)) as [pv' E]. exists pv'. cbn. exact E.
Qed.

Lemma findall_entier ds s2 :
  est_chiffres ds -> ds <> [] -> Forall (fun c => is_digit c = false) s2 ->
  findall re_nombre (ds ++ s2) = [ds].
Proof.
  intros Hds Hne H2. unfold findall.
  pose proof (match_len_entier ds s2 None Hds Hne H2) as M.
  destruct ds as [|d ds']; [ congruence | ].
  cbn [app findall_go] in *. rewrite M. cbn [List.length].
  destruct (findall_go_saute re_nombre s2 ds' (Some d)) as [pv' E].
  rewrite E, (findall_go_sans_chiffre s2 pv' H2).
  f_equal. cbn [firstn]. f_equal.
  apply firstn_exact.
Qed.

Local Open Scope Z_scope.

Lemma of_dec_12 : of_dec 120 1 = of_Z 12.
Proof. unfold of_dec, of_Z. apply round64_Qeq. reflexivity. Qed.

Lemma of_dec_1 : of_dec 10 1 = of_Z 1.
Proof. unfold of_dec, of_Z. apply round64_Qeq. reflexivity. Qed.

(** The arithmetic of the salary on an amount that is an integer. *)
Lemma salaire_entier clean n q :
  contains (u "mois") clean = false ->
  contains (u "heure") clean = false ->
  contains (u "jour") clean = false ->
  0 <= n < 2 ^ 53 -> (q == inject_Z n)%Q ->
  (let salaire_annuel := fmul (FFin q) (multiplicateur clean (FFin q)) in
   if (flt salaire_annuel (of_Z 14000) || flt (of_Z 200000) salaire_annuel)%bool
   then None
   else Some (round_ndigits salaire_annuel 2))
  = salaire_sans_unite n.
Proof.
  intros C1 C2 C3 Hn Hq. cbv zeta.
  destruct (of_Z_exact 1200 ltac:(split; [ lia | reflexivity ])) as (a & Ea & Ha).
  destruct (of_Z_exact 12000 ltac:(split; [ lia | reflexivity ])) as (b & Eb & Hb).
  destruct (of_Z_exact 14000 ltac:(split; [ lia | reflexivity ])) as (c & Ec & Hc).
  destruct (of_Z_exact 200000 ltac:(split; [ lia | reflexivity ])) as (d & Ed & Hd).
  destruct (of_Z_exact 12 ltac:(split; [ lia | reflexivity ])) as (m12 & E12 & H12).
  destruct (of_Z_exact 1 ltac:(split; [ lia | reflexivity ])) as (m1 & E1 & H1).
  unfold multiplicateur. rewrite C1, C2, C3, Ea, Eb, Ec, Ed.
  rewrite (fle_exact 1200 n a q Ha Hq), (fle_exact n 12000 q b Hq Hb).
  unfold salaire_sans_unite.
  assert (P : 2 ^ 53 = 9007199254740992) by reflexivity.
  destruct ((1200 <=? n) && (n <=? 12000))%bool eqn:B.
  - apply andb_true_iff in B as [B1 B2]. apply Z.leb_le in B1, B2.
    rewrite of_dec_12, E12.
    rewrite (fmul_exact n 12 q m12 Hq H12).
    destruct (of_Z_exact (n * 12) ltac:(lia)) as (s & Es & Hs).
    rewrite Es.
    rewrite (flt_exact (n * 12) 14000 s c Hs Hc), (flt_exact 200000 (n * 12) d s Hd Hs).
    destruct (Z.ltb_spec (n * 12) 14000); [ lia | ].
    destruct (Z.ltb_spec 200000 (n * 12)); [ lia | ].
    cbn [orb]. rewrite (round_ndigits_entier (n * 12) s Hs).
    rewrite Z.mul_comm. reflexivity.
  - rewrite of_dec_1, E1.
    rewrite (fmul_exact n 1 q m1 Hq H1).
    destruct (of_Z_exact (n * 1) ltac:(lia)) as (s & Es & Hs).
    rewrite Es.
    rewrite (flt_exact (n * 1) 14000 s c Hs Hc), (flt_exact 200000 (n * 1) d s Hd Hs).
    rewrite (round_ndigits_entier (n * 1) s Hs). rewrite Z.mul_1_r.
    destruct (Z.ltb_spec n 14000), (Z.ltb_spec 200000 n),
             (Z.leb_spec 14000 n), (Z.leb_spec n 200000);
      cbn [orb andb]; try reflexivity; lia.
Qed.

End MontantEntier.

(** X19.  An amount without a unit: digits, followed by characters that
    are neither digits nor letters (spaces, the euro sign, punctuation).
    From 1200 to 12000 the amount is taken as a monthly salary and
    multiplied by 12; from 14000 to 200000 it is returned as it is; any
    other amount, those from 12001 to 13999 among them, gives no
    salary. *)
Theorem montant_sans_unite ds suf :
  est_chiffres ds -> ds <> [] ->
  Forall (fun c => inerte c = true) suf ->
  (Z_of_digits ds < 2 ^ 53)%Z ->
  nettoyer_salaire (CStr (ds ++ suf))
  = Ok (salaire_sans_unite (Z_of_digits ds)).
Proof.
  intros Hds Hne Hsuf Hn.
  destruct (clean_txt_montant ds suf Hds Hsuf) as (s2 & Ec & El & H2 & Hl).
  assert (Pd : Forall (fun c => is_digit c = true \/ inerte c = true) ds)
    by (eapply Forall_impl; [ | exact Hds ]; intros c Hc; left; exact Hc).
  assert (P1 : Forall (fun c => is_digit c = true \/ inerte c = true) (ds ++ lower suf)).
  { apply Forall_app. split; [ exact Pd | ].
    eapply Forall_impl; [ | exact Hl ]. intros c Hc. right. exact Hc. }
  assert (P2 : Forall (fun c => is_digit c = true \/ inerte c = true) (ds ++ s2)).
  { apply Forall_app. split; [ exact Pd | ].
    eapply Forall_impl; [ | exact H2 ]. intros c Hc. right. exact Hc. }
  assert (N2 : Forall (fun c => is_digit c = false) s2)
    by (eapply Forall_impl; [ | exact H2 ]; intros c; apply inerte_pas_chiffre).
  pose proof (Z_of_digits_nonneg ds Hds) as H0.
  destruct (of_Z_exact (Z_of_digits ds) (conj H0 Hn)) as (q & Eq & Hq).
  unfold nettoyer_salaire. rewrite El, Ec.
  rewrite (sans_mot 110%N _ _ eq_refl P1 : contains (u "non affiché") _ = false).
  rewrite (findall_entier ds s2 Hds Hne N2).
  cbn [map_result List.length].
  rewrite (float_of_str_entier ds Hds Hne). cbn [of_option bind].
  assert (E1 : float_of_int (Z.of_nat 1) = Some (FFin (inject_Z 1)))
    by (vm_compute; reflexivity).
  rewrite E1. cbn [of_option bind].
  assert (Es : fsum [of_Z (Z_of_digits ds)] = FFin q).
  { unfold fsum. cbn [fold_left]. rewrite Eq.
    rewrite (fadd_exact 0 (Z_of_digits ds) 0%Q q (Qeq_refl _) Hq).
    rewrite Z.add_0_l. exact Eq. }
  rewrite Es.
  rewrite (fdiv_un (Z_of_digits ds) q (inject_Z 1) Hq (Qeq_refl _)).
  cbn [of_option bind]. rewrite Eq.
  rewrite <- (salaire_entier (ds ++ s2) (Z_of_digits ds) q
                (sans_mot 109%N _ _ eq_refl P2)
                (sans_mot 104%N _ _ eq_refl P2)
                (sans_mot 106%N _ _ eq_refl P2)
                (conj H0 Hn) Hq).
  cbv zeta.
  match goal with
  | |- context [if ?b then _ else _] => destruct b
  end; reflexivity.
Qed.

Lemma montant_sans_unite_witness :
  nettoyer_salaire (CStr (u "2500 €")) = Ok (salaire_sans_unite 2500).
Proof.
  apply (montant_sans_unite (u "2500") (u " €")).
  - repeat constructor.
  - discriminate.
  - repeat constructor.
  - reflexivity.
Defined.

Section Fourchette.

Lemma replace_go_un c new s :
  replace_go [c] new 0 s = flat_map (fun x => if eqc c x then new else [x]) s.
Proof.
  induction s as [|x t IH]; [ reflexivity | ].
  cbn [replace_go prefixb flat_map List.length Nat.sub].
  destruct (eqc c x); cbn [andb].
  - destruct t; rewrite IH; reflexivity.
  - rewrite IH. reflexivity.
Qed.

(** [clean_txt] works character by character. *)
Lemma clean_txt_car t : clean_txt t = flat_map clean_car t.
Proof.
  rewrite clean_txt_sans_espaces. unfold replace. change (u "k") with [107%N].
  rewrite replace_go_un. unfold sans_espaces, lower.
  induction t as [|c t IH]; [ reflexivity | ].
  cbn [map filter flat_map]. unfold clean_car at 1.
  destruct (est_espace_efface (to_lower c)); cbn [negb]; [ exact IH | ].
  cbn [flat_map]. rewrite IH. rewrite (eqc_sym 107%N).
  destruct (eqc (to_lower c) 107%N); reflexivity.
Qed.

Lemma clean_txt_app a b : clean_txt (a ++ b) = clean_txt a ++ clean_txt b.
Proof. rewrite !clean_txt_car. apply flat_map_app. Qed.

Lemma clean_txt_chiffres ds : est_chiffres ds -> clean_txt ds = ds.
Proof.
  intros H. apply clean_txt_decimal.
  eapply Forall_impl; [ | exact H ]. intros c Hc. left. exact Hc.
Qed.

Lemma clean_txt_inerte s :
  Forall (fun c => inerte c = true) s ->
  Forall (fun c => inerte c = true) (clean_txt s)
  /\ Forall (fun c => inerte c = true) (lower s).
Proof.
  intros H.
  destruct (clean_txt_montant [] s ltac:(constructor) H) as (s2 & E & _ & H2 & Hl).
  cbn [app] in E. rewrite E. split; assumption.
Qed.

Lemma contains_absent x p s : ~ In x s -> contains (x :: p) s = false.
Proof.
  intros H. destruct (contains (x :: p) s) eqn:E; [ | reflexivity ].
  exfalso. apply H. eapply contains_tete. exact E.
Qed.

Lemma contains_present p a b : contains p (a ++ p ++ b) = true.
Proof. apply contains_iff. exists a, b. reflexivity. Qed.

Lemma pas_lettre_chiffres x ds :
  in_range 97%N 122%N x = true -> est_chiffres ds -> ~ In x ds.
Proof.
  intros Hx H Hin. unfold est_chiffres in H. rewrite Forall_forall in H.
  apply H in Hin. apply chiffre_pas_lettre in Hin. congruence.
Qed.

Lemma pas_lettre_inerte x s :
  in_range 97%N 122%N x = true -> Forall (fun c => inerte c = true) s -> ~ In x s.
Proof.
  intros Hx H Hin. rewrite Forall_forall in H.
  apply H in Hin. apply inerte_pas_lettre in Hin. congruence.
Qed.

Lemma inerte_sans_chiffre s :
  Forall (fun c => inerte c = true) s -> Forall (fun c => is_digit c = false) s.
Proof. apply Forall_impl. intros c. apply inerte_pas_chiffre. Qed.

(** After digits, the pattern of the numbers stops where no decimal
    part follows. *)
Lemma match_len_entier_suite ds s2 pv :
  est_chiffres ds -> ds <> [] ->
  match s2 with [] => True | c :: _ => is_digit c = false end ->
  (forall t, s2 = 46%N :: t ->
             match t with [] => True | c :: _ => is_digit c = false end) ->
  match_len false re_nombre pv (ds ++ s2) = Some (List.length ds).
Proof.
  intros Hds Hne H2 Hp.
  destruct (ends_plus_chiffres ds s2 pv Hds Hne H2) as (pv1 & l1 & E1).
  assert (E0 : ends false (Cat (Lit 46%N) (plus is_digit)) (Cursor pv1 s2) = []).
  { change (ends false (Cat (Lit 46%N) (plus is_digit)) (Cursor pv1 s2))
      with (flat_map (ends false (plus is_digit))
              (ends false (Lit 46%N) (Cursor pv1 s2))).
    cbn [ends rest]. destruct s2 as [|c t]; [ reflexivity | ].
    unfold lit_ok. destruct (eqc 46%N c) eqn:Ec; [ | reflexivity ].
    apply eqc_eq in Ec. subst c.
    cbn [flat_map]. rewrite app_nil_r.
    apply ends_plus_non. apply Hp. reflexivity. }
  unfold match_len, re_nombre.
  change (ends false
            (Cat (plus is_digit) (Opt (Cat (Lit 46%N) (plus is_digit))))
            (Cursor pv (ds ++ s2)))
    with (flat_map (fun k => ends false (Cat (Lit 46%N) (plus is_digit)) k ++ [k])
            (ends false (plus is_digit) (Cursor pv (ds ++ s2)))).
  rewrite E1. cbn [flat_map]. rewrite E0. cbn [app rest].
  f_equal. rewrite length_app. lia.
Qed.

Lemma findall_go_avant pre s : forall pv,
  Forall (fun c => is_digit c = false) pre ->
  exists pv', findall_go re_nombre 0 pv (pre ++ s) = findall_go re_nombre 0 pv' s.
Proof.
  induction pre as [|c pre IH]; intros pv H.
  - exists pv. reflexivity.
  - inversion H as [|? ? Hc Hp]; subst.
    destruct (IH (Some c) Hp) as [pv' E]. exists pv'.
    cbn [app findall_go]. rewrite match_len_nombre_non by exact Hc. exact E.
Qed.

Lemma findall_go_entier ds s2 pv :
  est_chiffres ds -> ds <> [] ->
  match s2 with [] => True | c :: _ => is_digit c = false end ->
  (forall t, s2 = 46%N :: t ->
             match t with [] => True | c :: _ => is_digit c = false end) ->
  exists pv',
    findall_go re_nombre 0 pv (ds ++ s2) = ds :: findall_go re_nombre 0 pv' s2.
Proof.
  intros Hds Hne H2 Hp.
  pose proof (match_len_entier_suite ds s2 pv Hds Hne H2 Hp) as M.
  destruct ds as [|d ds']; [ congruence | ].
  cbn [app findall_go] in *. rewrite M. cbn [List.length].
  destruct (findall_go_saute re_nombre s2 ds' (Some d)) as [pv' E].
  exists pv'. rewrite E. f_equal. cbn [firstn]. f_equal. apply firstn_exact.
Qed.

Lemma apres_point s :
  Forall (fun c => is_digit c = false) s ->
  forall t, s = 46%N :: t ->
            match t with [] => True | c :: _ => is_digit c = false end.
Proof.
  intros H t ->. inversion H as [|? ? _ Ht]; subst.
  destruct Ht; [ exact I | assumption ].
Qed.

Lemma tete_app_sans_chiffre a b :
  Forall (fun c => is_digit c = false) a -> a <> [] ->
  match a ++ b with [] => True | c :: _ => is_digit c = false end.
Proof. intros H Hne. destruct H; [ congruence | assumption ]. Qed.

(** The numbers found in two amounts apart. *)
Lemma findall_fourchette ds1 sep ds2 fin :
  est_chiffres ds1 -> ds1 <> [] -> est_chiffres ds2 -> ds2 <> [] ->
  Forall (fun c => is_digit c = false) sep -> sep <> [] -> sep <> [46%N] ->
  Forall (fun c => is_digit c = false) fin ->
  findall re_nombre (ds1 ++ sep ++ ds2 ++ fin) = [ds1; ds2].
Proof.
  intros H1 N1 H2 N2 Hs Ns Np Hf. unfold findall.
  destruct (findall_go_entier ds1 (sep ++ ds2 ++ fin) None H1 N1) as [pv1 E1].
  { apply tete_app_sans_chiffre; assumption. }
  { intros t Et. destruct sep as [|c [|c' sep']]; [ congruence | | ].
    - cbn [app] in Et. inversion Et; subst. exfalso. apply Np. reflexivity.
    - cbn [app] in Et. inversion Et; subst.
      inversion Hs as [|? ? _ Hs']; subst. inversion Hs'; subst. assumption. }
  rewrite E1.
  destruct (findall_go_avant sep (ds2 ++ fin) pv1 Hs) as [pv2 E2]. rewrite E2.
  destruct (findall_go_entier ds2 fin pv2 H2 N2) as [pv3 E3].
  { destruct Hf; [ exact I | assumption ]. }
  { apply apres_point. exact Hf. }
  rewrite E3, (findall_go_sans_chiffre fin pv3 Hf). reflexivity.
Qed.

Local Open Scope Z_scope.

Lemma of_dec_218 : of_dec 2180 1 = of_Z 218.
Proof. unfold of_dec, of_Z. apply round64_Qeq. reflexivity. Qed.

(** The filter and the rounding on a product of integers. *)
Lemma salaire_facteur n k q qk :
  (q == inject_Z n)%Q -> (qk == inject_Z k)%Q -> 0 <= n * k < 2 ^ 53 ->
  (if (flt (fmul (FFin q) (FFin qk)) (of_Z 14000)
       || flt (of_Z 200000) (fmul (FFin q) (FFin qk)))%bool
   then None
   else Some (round_ndigits (fmul (FFin q) (FFin qk)) 2))
  = salaire_borne (n * k).
Proof.
  intros Hq Hk Hnk.
  destruct (of_Z_exact 14000 ltac:(split; [ lia | reflexivity ])) as (c & Ec & Hc).
  destruct (of_Z_exact 200000 ltac:(split; [ lia | reflexivity ])) as (d & Ed & Hd).
  rewrite (fmul_exact n k q qk Hq Hk).
  destruct (of_Z_exact (n * k) Hnk) as (s & Es & Hs).
  rewrite Es, Ec, Ed.
  rewrite (flt_exact (n * k) 14000 s c Hs Hc), (flt_exact 200000 (n * k) d s Hd Hs).
  rewrite (round_ndigits_entier (n * k) s Hs).
  unfold salaire_borne.
  destruct (Z.ltb_spec (n * k) 14000), (Z.ltb_spec 200000 (n * k)),
           (Z.leb_spec 14000 (n * k)), (Z.leb_spec (n * k) 200000);
    cbn [orb andb]; try reflexivity; lia.
Qed.

(** The mean of two integers of even sum. *)
Lemma moyenne_de_deux a b m :
  0 <= a -> 0 <= b -> a + b = 2 * m -> a + b < 2 ^ 53 ->
  exists q,
    (q == inject_Z m)%Q
    /\ fdiv (fsum [of_Z a; of_Z b]) (FFin (inject_Z 2)) = Some (FFin q).
Proof.
  intros Ha Hb Hm Hlt.
  destruct (of_Z_exact a ltac:(lia)) as (qa & Ea & Hqa).
  destruct (of_Z_exact b ltac:(lia)) as (qb & Eb & Hqb).
  destruct (of_Z_exact (a + b) ltac:(lia)) as (qs & Es & Hqs).
  destruct (of_Z_exact m ltac:(lia)) as (q & Eq & Hq).
  exists q. split; [ exact Hq | ].
  assert (S : fsum [of_Z a; of_Z b] = FFin qs).
  { unfold fsum. cbn [fold_left]. rewrite Ea, Eb.
    rewrite (fadd_exact 0 a 0%Q qa (Qeq_refl _) Hqa). rewrite Z.add_0_l, Ea.
    rewrite (fadd_exact a b qa qb Hqa Hqb). exact Es. }
  rewrite S. cbn [fdiv].
  change (is_zero (inject_Z 2)) with false. cbv iota.
  f_equal. rewrite <- Eq. unfold of_Z. apply round64_Qeq.
  rewrite Hqs. unfold Qdiv, Qeq. cbn [inject_Z Qmult Qinv Qnum Qden]. lia.
Qed.

Lemma ok_si {A : Type} (b : bool) (x : A) :
  (if b then Ok None else Ok (Some x)) = Ok (if b then None else Some x).
Proof. destruct b; reflexivity. Qed.

(** [nettoyer_salaire] on a text in which one number is found. *)
Lemma nettoyer_salaire_un texte ds q :
  contains (u "non affiché") (lower texte) = false ->
  findall re_nombre (clean_txt texte) = [ds] ->
  est_chiffres ds -> ds <> [] ->
  of_Z (Z_of_digits ds) = FFin q -> (q == inject_Z (Z_of_digits ds))%Q ->
  nettoyer_salaire (CStr texte)
  = Ok (if (flt (fmul (FFin q) (multiplicateur (clean_txt texte) (FFin q)))
                (of_Z 14000)
            || flt (of_Z 200000)
                 (fmul (FFin q) (multiplicateur (clean_txt texte) (FFin q))))%bool
        then None
        else Some (round_ndigits
                     (fmul (FFin q) (multiplicateur (clean_txt texte) (FFin q)))
                     2)).
Proof.
  intros Hna Hf Hds Hne Eq Hq. unfold nettoyer_salaire. rewrite Hna, Hf.
  cbn [map_result List.length].
  rewrite (float_of_str_entier ds Hds Hne). cbn [of_option bind].
  assert (E1 : float_of_int (Z.of_nat 1) = Some (FFin (inject_Z 1)))
    by (vm_compute; reflexivity).
  rewrite E1. cbn [of_option bind].
  assert (Es : fsum [of_Z (Z_of_digits ds)] = FFin q).
  { unfold fsum. cbn [fold_left]. rewrite Eq.
    rewrite (fadd_exact 0 (Z_of_digits ds) 0%Q q (Qeq_refl _) Hq).
    rewrite Z.add_0_l. exact Eq. }
  rewrite Es.
  rewrite (fdiv_un (Z_of_digits ds) q (inject_Z 1) Hq (Qeq_refl _)).
  cbn [of_option bind]. rewrite Eq. apply ok_si.
Qed.

(** [nettoyer_salaire] on a text in which two numbers are found. *)
Lemma nettoyer_salaire_deux texte ds1 ds2 q :
  contains (u "non affiché") (lower texte) = false ->
  findall re_nombre (clean_txt texte) = [ds1; ds2] ->
  est_chiffres ds1 -> ds1 <> [] -> est_chiffres ds2 -> ds2 <> [] ->
  fdiv (fsum [of_Z (Z_of_digits ds1); of_Z (Z_of_digits ds2)]) (FFin (inject_Z 2))
  = Some (FFin q) ->
  nettoyer_salaire (CStr texte)
  = Ok (if (flt (fmul (FFin q) (multiplicateur (clean_txt texte) (FFin q)))
                (of_Z 14000)
            || flt (of_Z 200000)
                 (fmul (FFin q) (multiplicateur (clean_txt texte) (FFin q))))%bool
        then None
        else Some (round_ndigits
                     (fmul (FFin q) (multiplicateur (clean_txt texte) (FFin q)))
                     2)).
Proof.
  intros Hna Hf H1 N1 H2 N2 Em. unfold nettoyer_salaire. rewrite Hna, Hf.
  cbn [map_result List.length].
  rewrite (float_of_str_entier ds1 H1 N1), (float_of_str_entier ds2 H2 N2).
  cbn [of_option bind].
  assert (E2 : float_of_int (Z.of_nat 2) = Some (FFin (inject_Z 2)))
    by (vm_compute; reflexivity).
  rewrite E2. cbn [of_option bind]. rewrite Em. cbn [of_option bind].
  apply ok_si.
Qed.

End Fourchette.

Section Unites.

Lemma lower_chiffres ds : est_chiffres ds -> lower ds = ds.
Proof.
  intros H. apply lower_decimal.
  eapply Forall_impl; [ | exact H ]. intros c Hc. left. exact Hc.
Qed.

Lemma lower_app a b : lower (a ++ b) = lower a ++ lower b.
Proof. unfold lower. apply map_app. Qed.

Lemma chiffres_sans_chiffre_non ds :
  est_chiffres ds -> Forall (fun c => is_digit c = true \/ inerte c = true) ds.
Proof. apply Forall_impl. intros c Hc. left. exact Hc. Qed.

End Unites.

(** X20.  A range: two integer amounts of even sum, set apart by
    characters that are neither digits nor letters (and of which one at
    least remains in the cleaned text, which is not a lone point), and
    followed by such characters.  The salary is that of the mean of the
    two amounts, taken as an amount without a unit. *)
Theorem fourchette_moyenne ds1 sep ds2 fin m :
  est_chiffres ds1 -> ds1 <> [] -> est_chiffres ds2 -> ds2 <> [] ->
  Forall (fun c => inerte c = true) sep ->
  clean_txt sep <> [] -> clean_txt sep <> [46%N] ->
  Forall (fun c => inerte c = true) fin ->
  (Z_of_digits ds1 + Z_of_digits ds2 = 2 * m)%Z -> (2 * m < 2 ^ 53)%Z ->
  nettoyer_salaire (CStr (ds1 ++ sep ++ ds2 ++ fin))
  = Ok (salaire_sans_unite m).
Proof.
  intros H1 N1 H2 N2 Hs Ns Np Hf Hm Hlt.
  pose proof (Z_of_digits_nonneg ds1 H1) as P1.
  pose proof (Z_of_digits_nonneg ds2 H2) as P2.
  destruct (clean_txt_inerte sep Hs) as [Cs Ls].
  destruct (clean_txt_inerte fin Hf) as [Cf Lf].
  assert (El : lower (ds1 ++ sep ++ ds2 ++ fin)
               = ds1 ++ lower sep ++ ds2 ++ lower fin)
    by (rewrite !lower_app, (lower_chiffres ds1 H1), (lower_chiffres ds2 H2);
        reflexivity).
  assert (Ec : clean_txt (ds1 ++ sep ++ ds2 ++ fin)
               = ds1 ++ clean_txt sep ++ ds2 ++ clean_txt fin)
    by (rewrite !clean_txt_app, (clean_txt_chiffres ds1 H1),
          (clean_txt_chiffres ds2 H2); reflexivity).
  assert (Abs : forall x s f,
             in_range 97%N 122%N x = true ->
             Forall (fun c => inerte c = true) s ->
             Forall (fun c => inerte c = true) f ->
             ~ In x (ds1 ++ s ++ ds2 ++ f)).
  { intros x s f Hx Hs' Hf' H.
    apply in_app_or in H as [H|H]; [ exact (pas_lettre_chiffres x ds1 Hx H1 H) | ].
    apply in_app_or in H as [H|H]; [ exact (pas_lettre_inerte x s Hx Hs' H) | ].
    apply in_app_or in H as [H|H]; [ exact (pas_lettre_chiffres x ds2 Hx H2 H) | ].
    exact (pas_lettre_inerte x f Hx Hf' H). }
  destruct (moyenne_de_deux (Z_of_digits ds1) (Z_of_digits ds2) m P1 P2 Hm
              ltac:(lia)) as (q & Hq & Em).
  rewrite (nettoyer_salaire_deux _ ds1 ds2 q); try assumption.
  - f_equal. rewrite Ec.
    apply (salaire_entier (ds1 ++ clean_txt sep ++ ds2 ++ clean_txt fin) m q).
    + apply contains_absent. apply Abs; [ reflexivity | assumption | assumption ].
    + apply contains_absent. apply Abs; [ reflexivity | assumption | assumption ].
    + apply contains_absent. apply Abs; [ reflexivity | assumption | assumption ].
    + split; lia.
    + exact Hq.
  - rewrite El. apply contains_absent.
    apply Abs; [ reflexivity | assumption | assumption ].
  - rewrite Ec. apply findall_fourchette; try assumption.
    + apply inerte_sans_chiffre. exact Cs.
    + apply inerte_sans_chiffre. exact Cf.
Qed.

Lemma fourchette_moyenne_witness :
  nettoyer_salaire (CStr (u "30000 - 40000 €")) = Ok (salaire_sans_unite 35000).
Proof.
  apply (fourchette_moyenne (u "30000") (u " - ") (u "40000") (u " €") 35000).
  - repeat constructor.
  - discriminate.
  - repeat constructor.
  - discriminate.
  - repeat constructor.
  - vm_compute. discriminate.
  - vm_compute. discriminate.
  - repeat constructor.
  - reflexivity.
  - reflexivity.
Defined.

(** X21.  An integer amount with its unit, the words set apart by
    characters that are neither digits nor letters.  With "mois" the
    amount is multiplied by 12 and with "jour" by 218, whatever the
    amount; the product is the salary when it lies from 14000 to 200000,
    and there is no salary otherwise. *)
Theorem montant_avec_unite ds sep fin :
  est_chiffres ds -> ds <> [] ->
  Forall (fun c => inerte c = true) sep ->
  Forall (fun c => inerte c = true) fin ->
  (Z_of_digits ds * 218 < 2 ^ 53)%Z ->
  nettoyer_salaire (CStr (ds ++ sep ++ u "mois" ++ fin))
  = Ok (salaire_borne (Z_of_digits ds * 12))
  /\ nettoyer_salaire (CStr (ds ++ sep ++ u "jour" ++ fin))
     = Ok (salaire_borne (Z_of_digits ds * 218)).
Proof.
  intros Hds Hne Hs Hf Hn.
  pose proof (Z_of_digits_nonneg ds Hds) as P.
  destruct (clean_txt_inerte sep Hs) as [Cs Ls].
  destruct (clean_txt_inerte fin Hf) as [Cf Lf].
  destruct (of_Z_exact (Z_of_digits ds) ltac:(lia)) as (q & Eq & Hq).
  destruct (of_Z_exact 12 ltac:(split; [ lia | reflexivity ])) as (q12 & E12 & H12).
  destruct (of_Z_exact 218 ltac:(split; [ lia | reflexivity ])) as (q218 & E218 & H218).
  assert (Forme : forall mot,
             lower mot = mot -> clean_txt mot = mot ->
             lower (ds ++ sep ++ mot ++ fin) = ds ++ lower sep ++ mot ++ lower fin
             /\ clean_txt (ds ++ sep ++ mot ++ fin)
                = ds ++ clean_txt sep ++ mot ++ clean_txt fin).
  { intros mot Lm Cm. split.
    - rewrite !lower_app, Lm, (lower_chiffres ds Hds). reflexivity.
    - rewrite !clean_txt_app, Cm, (clean_txt_chiffres ds Hds). reflexivity. }
  assert (Abs : forall x mot s f,
             in_range 97%N 122%N x = true -> ~ In x mot ->
             Forall (fun c => inerte c = true) s ->
             Forall (fun c => inerte c = true) f ->
             ~ In x (ds ++ s ++ mot ++ f)).
  { intros x mot s f Hx Hm Hs' Hf' H.
    apply in_app_or in H as [H|H]; [ exact (pas_lettre_chiffres x ds Hx Hds H) | ].
    apply in_app_or in H as [H|H]; [ exact (pas_lettre_inerte x s Hx Hs' H) | ].
    apply in_app_or in H as [H|H]; [ exact (Hm H) | ].
    exact (pas_lettre_inerte x f Hx Hf' H). }
  assert (Un : forall mot,
             Forall (fun c => is_digit c = false) mot ->
             findall re_nombre (ds ++ clean_txt sep ++ mot ++ clean_txt fin) = [ds]).
  { intros mot Hm. apply findall_entier; try assumption.
    apply Forall_app. split; [ apply inerte_sans_chiffre; exact Cs | ].
    apply Forall_app. split; [ exact Hm | apply inerte_sans_chiffre; exact Cf ]. }
  split.
  - destruct (Forme (u "mois") eq_refl ltac:(vm_compute; reflexivity)) as [El Ec].
    rewrite (nettoyer_salaire_un _ ds q); try assumption.
    + f_equal. rewrite Ec. unfold multiplicateur.
      replace (ds ++ clean_txt sep ++ u "mois" ++ clean_txt fin)
        with ((ds ++ clean_txt sep) ++ u "mois" ++ clean_txt fin)
        by (rewrite <- app_assoc; reflexivity).
      rewrite contains_present, of_dec_12, E12.
      apply salaire_facteur; [ exact Hq | exact H12 | lia ].
    + rewrite El. apply contains_absent. apply Abs; try assumption; try reflexivity.
      cbn. intros H. repeat (destruct H as [H|H]; [ discriminate H | ]). exact H.
    + rewrite Ec. apply Un. repeat constructor.
  - destruct (Forme (u "jour") eq_refl ltac:(vm_compute; reflexivity)) as [El Ec].
    rewrite (nettoyer_salaire_un _ ds q); try assumption.
    + f_equal. rewrite Ec. unfold multiplicateur.
      assert (Cm : contains (u "mois")
                     (ds ++ clean_txt sep ++ u "jour" ++ clean_txt fin) = false).
      { apply (contains_absent 109%N (u "ois")).
        apply Abs; try assumption; try reflexivity.
        cbn. intros H. repeat (destruct H as [H|H]; [ discriminate H | ]). exact H. }
      assert (Ch : contains (u "heure")
                     (ds ++ clean_txt sep ++ u "jour" ++ clean_txt fin) = false).
      { apply (contains_absent 104%N (u "eure")).
        apply Abs; try assumption; try reflexivity.
        cbn. intros H. repeat (destruct H as [H|H]; [ discriminate H | ]). exact H. }
      rewrite Cm, Ch.
      replace (ds ++ clean_txt sep ++ u "jour" ++ clean_txt fin)
        with ((ds ++ clean_txt sep) ++ u "jour" ++ clean_txt fin)
        by (rewrite <- app_assoc; reflexivity).
      rewrite contains_present, of_dec_218, E218.
      apply salaire_facteur; [ exact Hq | exact H218 | lia ].
    + rewrite El. apply contains_absent. apply Abs; try assumption; try reflexivity.
      cbn. intros H. repeat (destruct H as [H|H]; [ discriminate H | ]). exact H.
    + rewrite Ec. apply Un. repeat constructor.
Qed.

Lemma montant_avec_unite_witness :
  nettoyer_salaire (CStr (u "2000 € / mois")) = Ok (salaire_borne (2000 * 12))
  /\ nettoyer_salaire (CStr (u "2000 € / jour")) = Ok (salaire_borne (2000 * 218)).
Proof.
  apply (montant_avec_unite (u "2000") (u " € / ") []).
  - repeat constructor.
  - discriminate.
  - repeat constructor.
  - constructor.
  - reflexivity.
Defined.

(* ================================================================== *)
(** * The claims on the titles, the locations and the duplicates *)
(* ================================================================== *)

(** ** The layout of the title *)


Section Casse.

Local Open Scope N_scope.








End Casse.



(** ** Town and department *)







(** ** The removal of the duplicates *)


